(** * tree-printer: the layout engine of [tree_printer.py], embedded and verified

    The Python module defines [Node] (a value string and two optional
    children) and [TreePrinter], whose [__str__] renders the tree as text.
    The embedding below follows the source function by function:

    - Python [str] is a list of characters (code points below 256);
    - the values given to [Node] are strings or integers, and [str(value)]
      is the string itself or the decimal numeral;
    - Python [int] is [Z]; [n * s] with [n <= 0] is the empty string;
    - a [Node] object carries its identity ([node_id], what [id()] returns),
      because the bridge row compares nodes with the default [==];
    - [itertools.chain] objects are one-shot iterators, lists are not;
    - [defaultdict] is a [gmap]; exceptions are a [result] type.

    The class is embedded twice.  First over trees as values, where the
    layout properties are proved.  Then, in module [Heap], over a store of
    node objects, where the methods are computations on the store: there the
    rendering is shown to leave the store alone and to return what the
    value-level methods return. *)

From Stdlib Require Import ZArith Ascii String Lia DecimalString.
From stdpp Require Import gmap list sorting.

Local Open Scope Z_scope.

(** ** Python strings and lists *)

Abbreviation str := (list ascii).

(** A string literal. *)
Definition s_ (s : string) : str := list_ascii_of_string s.

(** The newline character, and the string made of it. *)
Definition newline : ascii := ascii_of_nat 10.
Definition NL : str := [newline].

Definition len {A} (l : list A) : Z := Z.of_nat (length l).

(** [n * s] on strings and [l * n] on lists: nothing when [n <= 0]. *)
Definition str_mul (n : Z) (s : str) : str := concat (replicate (Z.to_nat n) s).
Definition list_mul {A} (l : list A) (n : Z) : list A :=
  concat (replicate (Z.to_nat n) l).

(** [str.center(width)] with the default fill character, as CPython pads:
    [left = marg / 2 + (marg & width & 1)]. *)
Definition center (s : str) (width : Z) : str :=
  if width <=? len s then s
  else
    let marg := width - len s in
    let left := marg / 2 + Z.land (Z.land marg width) 1 in
    str_mul left (s_ " ") ++ s ++ str_mul (marg - left) (s_ " ").

(** The characters [str.rstrip()] removes, among code points below 256. *)
Definition isspace (c : ascii) : bool :=
  let n := Z.of_nat (nat_of_ascii c) in
  ((9 <=? n) && (n <=? 13)) || ((28 <=? n) && (n <=? 32))
  || (n =? 133) || (n =? 160).

Fixpoint rstrip (s : str) : str :=
  match s with
  | [] => []
  | c :: s' =>
      match rstrip s' with
      | [] => if isspace c then [] else [c]
      | r => c :: r
      end
  end.

(** [sep.join(l)] *)
Fixpoint join (sep : str) (l : list str) : str :=
  match l with
  | [] => []
  | [x] => x
  | x :: xs => x ++ sep ++ join sep xs
  end.

(** [enumerate(l)] *)
Fixpoint enumerate_from {A} (start : Z) (l : list A) : list (Z * A) :=
  match l with
  | [] => []
  | x :: xs => (start, x) :: enumerate_from (start + 1) xs
  end.
Definition enumerate {A} (l : list A) : list (Z * A) := enumerate_from 0 l.

(** Slice bounds as [PySlice_AdjustIndices] clamps them. *)
Definition slice_index (i n : Z) : Z :=
  if i <? 0 then Z.max 0 (i + n) else Z.min i n.

(** [l[start:stop] = new]: the slice is replaced, the list may grow. *)
Definition slice_assign {A} (l : list A) (start stop : Z) (new : list A)
  : list A :=
  let ilow := slice_index start (len l) in
  let ihigh := Z.max ilow (slice_index stop (len l)) in
  take (Z.to_nat ilow) l ++ new ++ drop (Z.to_nat ihigh) l.

(** ** Exceptions *)

Inductive exn := IndexError | StopIteration | AttributeError | RecursionError.

Inductive result (A : Type) :=
| Ok (a : A)
| Raise (e : exn).
Arguments Ok {A} a.
Arguments Raise {A} e.

(** Sequencing: an exception skips the rest ([x ← r; k] below). *)
#[export] Instance result_bind : MBind result := fun A B k r =>
  match r with
  | Ok a => k a
  | Raise e => Raise e
  end.

(** [l[-1]] *)
Definition last_item {A} (l : list A) : result A :=
  match last l with
  | Some x => Ok x
  | None => Raise IndexError
  end.

(** [l[i]] for an index that is not negative *)
Definition item {A} (l : list A) (i : Z) : result A :=
  match (if i <? 0 then None else l !! Z.to_nat i) with
  | Some x => Ok x
  | None => Raise IndexError
  end.

(** A list comprehension whose body may raise. *)
Fixpoint comprehension {A B} (f : A -> result B) (l : list A)
  : result (list B) :=
  match l with
  | [] => Ok []
  | x :: xs => y ← f x; ys ← comprehension f xs; Ok (y :: ys)
  end.

(** ** Iterables: lists can be iterated again, a chain only once *)

Inductive Iterable (A : Type) :=
| PyList (items : list A)
| PyChain (pending : list A).
Arguments PyList {A} items.
Arguments PyChain {A} pending.

Definition pending_items {A} (it : Iterable A) : list A :=
  match it with
  | PyList l => l
  | PyChain l => l
  end.

(** Running a [for] loop to its end over an iterable: the items it yields
    and what is left of the iterable afterwards. *)
Definition iterate {A} (it : Iterable A) : list A * Iterable A :=
  match it with
  | PyList l => (l, PyList l)
  | PyChain l => (l, PyChain [])
  end.

(** [itertools.chain(a, b, c)] *)
Definition chain {A} (its : list (Iterable A)) : Iterable A :=
  PyChain (concat (map pending_items its)).

(** ** Values and [str(value)] *)

(** The values the repository gives to [Node]: strings and integers. *)
Inductive pyvalue :=
| PyStr (s : str)
| PyInt (z : Z).

(** [str(value)]: a string is itself, an integer its decimal numeral. *)
Definition py_str (value : pyvalue) : str :=
  match value with
  | PyStr s => s
  | PyInt z => s_ (NilZero.string_of_int (Z.to_int z))
  end.

(** ** class Node *)

#[local] Unset Elimination Schemes.
Inductive Node : Type :=
  mkNode {
    node_id : nat;              (* the object's identity *)
    _value : str;
    _left : option Node;
    _right : option Node
  }.
#[local] Set Elimination Schemes.

Definition get_left (self : Node) : option Node := _left self.
Definition get_right (self : Node) : option Node := _right self.
Definition get_value (self : Node) : str := _value self.

(** [Node] defines no [__eq__]: [a == b] is [a is b]. *)
Definition Node_eq (a b : Node) : bool := Nat.eqb (node_id a) (node_id b).

(** [x is not None] *)
Definition is_not_None {A} (x : option A) : bool :=
  match x with Some _ => true | None => false end.

(** ** class TreePrinter *)

Definition VALUE_MAX_LEN : Z := 80.

Record TreePrinter := {
  _root : option Node;
  _max_value_len : Z;
  _inorder_listinfo : Iterable (Z * Node)
}.

(** The inner [wrapped] of [_get_inorder_listinfo]: [[]] for [None], a chain
    object otherwise.  The recursion is on the node; [wrapped] below is the
    function as the source calls it, on a reference that may be [None]. *)
Fixpoint inorder_wrapped_node (cur_node : Node) (level : Z)
  : Iterable (Z * Node) :=
  let wrapped (c : option Node) (lv : Z) :=
    match c with
    | None => PyList []
    | Some n => inorder_wrapped_node n lv
    end in
  match cur_node with
  | mkNode _ _ l r =>
      let left_iter := wrapped l (level + 1) in
      let right_iter := wrapped r (level + 1) in
      chain [left_iter; PyList [(level, cur_node)]; right_iter]
  end.

Definition inorder_wrapped (cur_node : option Node) (level : Z)
  : Iterable (Z * Node) :=
  match cur_node with
  | None => PyList []
  | Some n => inorder_wrapped_node n level
  end.

Definition _get_inorder_listinfo (root : option Node) : Iterable (Z * Node) :=
  inorder_wrapped root 0.

(** The inner [wrapped] of [_find_max_value_len]. *)
Fixpoint maxlen_wrapped_node (cur_node : Node) : Z :=
  let wrapped (c : option Node) :=
    match c with
    | None => - VALUE_MAX_LEN
    | Some n => maxlen_wrapped_node n
    end in
  match cur_node with
  | mkNode _ v l r => Z.max (Z.max (len v) (wrapped l)) (wrapped r)
  end.

Definition maxlen_wrapped (cur_node : option Node) : Z :=
  match cur_node with
  | None => - VALUE_MAX_LEN
  | Some n => maxlen_wrapped_node n
  end.

Definition _find_max_value_len (root : option Node) : Z := maxlen_wrapped root.

(** [TreePrinter.__init__] *)
Definition __init__ (root : option Node) : TreePrinter :=
  {| _root := root;
     _max_value_len := Z.max 2 (_find_max_value_len root);
     _inorder_listinfo := _get_inorder_listinfo root |}.

(** A line of the tree: the nodes of one level with their column index. *)
Abbreviation tree_line := (list (Z * Node)).

(** The first loop of [__str__]: the [defaultdict] of lines by level.  The
    nodes are only filed, so their type [N] is left open. *)
Definition lines_dict_of {N} (nodeinfos : list (Z * N))
  : gmap Z (list (Z * N)) :=
  foldl (fun lines_dict '(i, nodeinfo) =>
           <[fst nodeinfo :=
               default [] (lines_dict !! fst nodeinfo) ++ [(i, snd nodeinfo)]]>
             lines_dict)
        ∅ (enumerate nodeinfos).

(** [sorted(lines_dict)]: the keys in increasing order. *)
Definition sorted_keys {N} (lines_dict : gmap Z (list (Z * N))) : list Z :=
  merge_sort Z.le (map_to_list lines_dict).*1.

Definition tree_lines_of {N} (nodeinfos : list (Z * N)) : list (list (Z * N)) :=
  let lines_dict := lines_dict_of nodeinfos in
  map (fun k => default [] (lines_dict !! k)) (sorted_keys lines_dict).

(** [zip] of four lists stops at the shortest. *)
Fixpoint zip4 {A B C D} (a : list A) (b : list B) (c : list C) (d : list D)
  : list (A * B * C * D) :=
  match a, b, c, d with
  | x :: a', y :: b', z :: c', w :: d' => (x, y, z, w) :: zip4 a' b' c' d'
  | _, _, _, _ => []
  end.

(** [tree_lines[:-1]] *)
Definition all_but_last {A} (l : list A) : list A :=
  take (length l - 1)%nat l.

Section Rendering.
Variable self : TreePrinter.

Definition _get_centered_node_value (node : Node) : str :=
  center (get_value node) (_max_value_len self).

Definition _left_pad_node_using_offset (offset : Z) (node : Node) : str :=
  str_mul offset (str_mul (_max_value_len self) (s_ " "))
  ++ _get_centered_node_value node.

(** The loop of [_format_tree_line_with_offsets], from a given state. *)
Fixpoint format_loop (format_action : Z -> Node -> str)
    (last_position_offset : Z) (line : str) (tl : tree_line) : str :=
  match tl with
  | [] => line
  | (position, node) :: rest =>
      format_loop format_action (position + 1)
        (line ++ format_action (position - last_position_offset) node) rest
  end.

Definition _format_tree_line_with_offsets (tl : tree_line)
    (format_action : Z -> Node -> str) : str :=
  format_loop format_action 0 [] tl.

Definition _build_tree_scheleton (tree_lines : list tree_line) : list str :=
  map (fun tl => _format_tree_line_with_offsets tl
                   (fun offset node => _left_pad_node_using_offset offset node))
      tree_lines.

Definition _get_first_line_below_tree_line (tl : tree_line) : str :=
  _format_tree_line_with_offsets tl (fun offset node =>
    str_mul offset (str_mul (_max_value_len self) (s_ " "))
    ++ (if is_not_None (get_left node) then s_ "/" else s_ " ")
    ++ str_mul (_max_value_len self - 2) (s_ " ")
    ++ (if is_not_None (get_right node) then s_ "\" else s_ " ")).

(** The inner [fill_line_blocks], with [line_blocks] passed and returned. *)
Definition fill_line_blocks (line_blocks : list str)
    (start end_ : Z) (is_left_child : bool) : list str :=
  let half_max_len := _max_value_len self / 2 in
  if is_left_child then
    slice_assign line_blocks start end_
      ([str_mul (_max_value_len self - half_max_len) (s_ " ")
        ++ str_mul half_max_len (s_ "-")]
       ++ list_mul [str_mul (_max_value_len self) (s_ "-")]
            (end_ - start - 1))
  else
    slice_assign line_blocks (start + 1) (end_ + 1)
      (list_mul [str_mul (_max_value_len self) (s_ "-")] (end_ - start - 1)
       ++ [str_mul half_max_len (s_ "-")
           ++ str_mul (_max_value_len self - half_max_len) (s_ " ")]).

(** [next(filter(lambda x: x[1] == child, tree_line_below))[0]] *)
Definition child_index (child : Node) (tree_line_below : tree_line)
  : result Z :=
  match filter (fun x => Is_true (Node_eq (snd x) child)) tree_line_below with
  | x :: _ => Ok (fst x)
  | [] => Raise StopIteration
  end.

(** The body of the loop over [tree_line_above]. *)
Definition bridge_step (tree_line_below : tree_line)
    (line_blocks : list str) (entry : Z * Node) : result (list str) :=
  let '(parent_index, node) := entry in
  line_blocks ←
    (match get_left node with
     | Some c =>
         left_child_index ← child_index c tree_line_below;
         Ok (fill_line_blocks line_blocks left_child_index parent_index true)
     | None => Ok line_blocks
     end);
  match get_right node with
  | Some c =>
      right_child_index ← child_index c tree_line_below;
      Ok (fill_line_blocks line_blocks parent_index right_child_index false)
  | None => Ok line_blocks
  end.

Fixpoint bridge_loop (tree_line_below : tree_line)
    (line_blocks : list str) (above : tree_line) : result (list str) :=
  match above with
  | [] => Ok line_blocks
  | entry :: rest =>
      line_blocks ← bridge_step tree_line_below line_blocks entry;
      bridge_loop tree_line_below line_blocks rest
  end.

(** The list [line_blocks] when [_get_second_line_below_tree_line] returns. *)
Definition second_line_blocks (tree_line_above tree_line_below : tree_line)
  : result (list str) :=
  last_above ← last_item tree_line_above;
  last_below ← last_item tree_line_below;
  let line_blocks_length := Z.max (fst last_above) (fst last_below) in
  let line_blocks :=
    list_mul [str_mul (_max_value_len self) (s_ " ")] line_blocks_length in
  bridge_loop tree_line_below line_blocks tree_line_above.

Definition _get_second_line_below_tree_line
    (tree_line_above tree_line_below : tree_line) : result str :=
  line_blocks ← second_line_blocks tree_line_above tree_line_below;
  Ok (concat line_blocks).

Definition _get_third_line_below_tree_line (tree_line_below : tree_line)
  : str :=
  let half_max_len := _max_value_len self / 2 in
  _format_tree_line_with_offsets tree_line_below (fun offset node =>
    str_mul offset (str_mul (_max_value_len self) (s_ " "))
    ++ str_mul half_max_len (s_ " ")
    ++ s_ "|"
    ++ str_mul (_max_value_len self - half_max_len - 1) (s_ " ")).

(** [__str__] from the point where [tree_lines] is known. *)
Definition render_tree_lines (tree_lines : list tree_line) : result str :=
  let scheleton_lines := _build_tree_scheleton tree_lines in
  let first_lines_below_tree_lines :=
    map _get_first_line_below_tree_line tree_lines in
  second_lines ←
    comprehension
      (fun '(i, tl) =>
         below ← item tree_lines (i + 1);
         _get_second_line_below_tree_line tl below)
      (enumerate (all_but_last tree_lines));
  let second_lines_below_tree_lines := second_lines ++ [[]] in
  let third_lines_below_tree_lines :=
    map _get_third_line_below_tree_line (tail tree_lines) ++ [[]] in
  Ok (rstrip
        (join NL
           (map (fun '(x0, x1, x2, x3) =>
                   x0 ++ NL ++ x1 ++ NL ++ x2 ++ NL ++ x3)
                (zip4 scheleton_lines first_lines_below_tree_lines
                   second_lines_below_tree_lines
                   third_lines_below_tree_lines)))).

(** [TreePrinter.__str__]: the string or the exception, and the printer
    afterwards (its iterator has been run). *)
Definition __str__ : result str * TreePrinter :=
  let '(nodeinfos, it) := iterate (_inorder_listinfo self) in
  let self' := {| _root := _root self;
                  _max_value_len := _max_value_len self;
                  _inorder_listinfo := it |} in
  (render_tree_lines (tree_lines_of nodeinfos), self').
End Rendering.

(** ** The class over a store of node objects

    Above, a tree is a value and cannot change.  To say that rendering leaves
    the caller's nodes alone, the same methods are written here over a store
    that maps the address of each [Node] object to its attributes: a method
    is a computation that takes the store and gives it back, with its result
    or the exception it raises.

    The two traversals of the constructor nest as deep as the tree is high,
    so there the frames are counted: a call takes a frame, one per call in
    progress, and a call made when the interpreter's recursion limit leaves
    none raises [RecursionError].  How many frames a value given to
    [sys.setrecursionlimit] leaves at a point of the program depends on the
    caller and on the interpreter.  The rendering methods nest a bounded
    number of calls whatever the tree is; their frames are not counted. *)
Module Heap.

Abbreviation addr := nat.

(** The attributes of a [Node] object. *)
Record NodeObj := {
  obj_value : str;
  obj_left : option addr;
  obj_right : option addr
}.

Abbreviation store := (gmap addr NodeObj).

Definition M (A : Type) : Type := store -> result A * store.

Definition ret {A} (a : A) : M A := fun σ => (Ok a, σ).
Definition raise {A} (e : exn) : M A := fun σ => (Raise e, σ).
Definition bind {A B} (m : M A) (k : A -> M B) : M B := fun σ =>
  match m σ with
  | (Ok a, σ') => k a σ'
  | (Raise e, σ') => (Raise e, σ')
  end.

Notation "'do' x <- m ; k" := (bind m (fun x => k))
  (at level 10, x name, m at level 100, k at level 200).

(** [Node.__init__]: a new object is added to the store; its value
    attribute is [str(value)]. *)
Definition Node__init__ (value : pyvalue) (left right : option addr) : M addr :=
  fun σ =>
    let self := fresh (dom σ) in
    (Ok self,
     <[self := {| obj_value := py_str value;
                  obj_left := left; obj_right := right |}]> σ).

(** Reading an attribute of the object at [self]. *)
Definition attribute {A} (f : NodeObj -> A) (self : addr) : M A := fun σ =>
  match σ !! self with
  | Some o => (Ok (f o), σ)
  | None => (Raise AttributeError, σ)
  end.

Definition get_left (self : addr) : M (option addr) := attribute obj_left self.
Definition get_right (self : addr) : M (option addr) := attribute obj_right self.
Definition get_value (self : addr) : M str := attribute obj_value self.

Record TreePrinter := {
  _root : option addr;
  _max_value_len : Z;
  _inorder_listinfo : Iterable (Z * addr)
}.

(** Calling a function takes a frame: with [frames] frames left where the
    call is made, the function runs with one less, and with none left the
    call raises [RecursionError]. *)
Definition call {A} (frames : nat) (f : nat -> M A) : M A :=
  match frames with
  | O => raise RecursionError
  | S frames' => f frames'
  end.

(** The inner [wrapped] of [_get_inorder_listinfo].  [fuel] is the number of
    frames left for the calls its body makes.  Every call takes one: the
    getters, and the nested [wrapped] on a child or on [None].  On [None] the
    body makes no call. *)
Fixpoint inorder_wrapped (fuel : nat) (cur_node : option addr) (level : Z)
  : M (Iterable (Z * addr)) :=
  match cur_node with
  | None => ret (PyList [])
  | Some n =>
      do l <- call fuel (fun _ => get_left n);
      do left_iter <-
        call fuel (fun fuel' => inorder_wrapped fuel' l (level + 1));
      do r <- call fuel (fun _ => get_right n);
      do right_iter <-
        call fuel (fun fuel' => inorder_wrapped fuel' r (level + 1));
      ret (chain [left_iter; PyList [(level, n)]; right_iter])
  end.

Definition _get_inorder_listinfo (fuel : nat) (root : option addr)
  : M (Iterable (Z * addr)) :=
  inorder_wrapped fuel root 0.

(** The inner [wrapped] of [_find_max_value_len], with the frames left for
    the calls of its body as above. *)
Fixpoint maxlen_wrapped (fuel : nat) (cur_node : option addr) : M Z :=
  match cur_node with
  | None => ret (- VALUE_MAX_LEN)
  | Some n =>
      do v <- call fuel (fun _ => get_value n);
      do l <- call fuel (fun _ => get_left n);
      do ml <- call fuel (fun fuel' => maxlen_wrapped fuel' l);
      do r <- call fuel (fun _ => get_right n);
      do mr <- call fuel (fun fuel' => maxlen_wrapped fuel' r);
      ret (Z.max (Z.max (len v) ml) mr)
  end.

Definition _find_max_value_len (fuel : nat) (root : option addr) : M Z :=
  maxlen_wrapped fuel root.

(** [TreePrinter.__init__].  The two methods it calls both run the outermost
    [wrapped] three frames above the constructor's caller (the constructor,
    the method, [wrapped]), whatever the tree is; [fuel] is the number of
    frames left above that frame, for the calls [wrapped] makes. *)
Definition __init__ (fuel : nat) (root : option addr) : M TreePrinter :=
  do m <- _find_max_value_len fuel root;
  do it <- _get_inorder_listinfo fuel root;
  ret {| _root := root; _max_value_len := Z.max 2 m; _inorder_listinfo := it |}.

Definition _get_centered_node_value (self : TreePrinter) (node : addr) : M str :=
  do v <- get_value node;
  ret (center v (_max_value_len self)).

Definition _left_pad_node_using_offset (self : TreePrinter) (offset : Z)
    (node : addr) : M str :=
  do s <- _get_centered_node_value self node;
  ret (str_mul offset (str_mul (_max_value_len self) (s_ " ")) ++ s).

Fixpoint format_loop (format_action : Z -> addr -> M str)
    (last_position_offset : Z) (line : str) (tl : list (Z * addr)) : M str :=
  match tl with
  | [] => ret line
  | (position, node) :: rest =>
      do s <- format_action (position - last_position_offset) node;
      format_loop format_action (position + 1) (line ++ s) rest
  end.

Definition _format_tree_line_with_offsets (tl : list (Z * addr))
    (format_action : Z -> addr -> M str) : M str :=
  format_loop format_action 0 [] tl.

(** A list comprehension whose body is a computation. *)
Fixpoint comprehension {A B} (f : A -> M B) (l : list A) : M (list B) :=
  match l with
  | [] => ret []
  | x :: xs => do y <- f x; do ys <- comprehension f xs; ret (y :: ys)
  end.

Definition _build_tree_scheleton (self : TreePrinter)
    (tree_lines : list (list (Z * addr))) : M (list str) :=
  comprehension
    (fun tl => _format_tree_line_with_offsets tl
                 (fun offset node => _left_pad_node_using_offset self offset node))
    tree_lines.

Definition _get_first_line_below_tree_line (self : TreePrinter)
    (tl : list (Z * addr)) : M str :=
  _format_tree_line_with_offsets tl (fun offset node =>
    do l <- get_left node;
    do r <- get_right node;
    ret (str_mul offset (str_mul (_max_value_len self) (s_ " "))
         ++ (if is_not_None l then s_ "/" else s_ " ")
         ++ str_mul (_max_value_len self - 2) (s_ " ")
         ++ (if is_not_None r then s_ "\" else s_ " "))).

Definition fill_line_blocks (self : TreePrinter) (line_blocks : list str)
    (start end_ : Z) (is_left_child : bool) : list str :=
  let half_max_len := _max_value_len self / 2 in
  if is_left_child then
    slice_assign line_blocks start end_
      ([str_mul (_max_value_len self - half_max_len) (s_ " ")
        ++ str_mul half_max_len (s_ "-")]
       ++ list_mul [str_mul (_max_value_len self) (s_ "-")]
            (end_ - start - 1))
  else
    slice_assign line_blocks (start + 1) (end_ + 1)
      (list_mul [str_mul (_max_value_len self) (s_ "-")] (end_ - start - 1)
       ++ [str_mul half_max_len (s_ "-")
           ++ str_mul (_max_value_len self - half_max_len) (s_ " ")]).

(** [next(filter(lambda x: x[1] == child(), tree_line_below))[0]]: the lambda
    reads the child reference again for every entry it looks at. *)
Fixpoint child_index (child : M (option addr)) (tree_line_below : list (Z * addr))
  : M Z :=
  match tree_line_below with
  | [] => raise StopIteration
  | x :: rest =>
      do c <- child;
      if decide (Some (snd x) = c) then ret (fst x)
      else child_index child rest
  end.

Definition bridge_step (self : TreePrinter) (tree_line_below : list (Z * addr))
    (line_blocks : list str) (entry : Z * addr) : M (list str) :=
  let '(parent_index, node) := entry in
  do l <- get_left node;
  do line_blocks <-
    (if is_not_None l then
       do left_child_index <- child_index (get_left node) tree_line_below;
       ret (fill_line_blocks self line_blocks left_child_index parent_index true)
     else ret line_blocks);
  do r <- get_right node;
  if is_not_None r then
    do right_child_index <- child_index (get_right node) tree_line_below;
    ret (fill_line_blocks self line_blocks parent_index right_child_index false)
  else ret line_blocks.

Fixpoint bridge_loop (self : TreePrinter) (tree_line_below : list (Z * addr))
    (line_blocks : list str) (above : list (Z * addr)) : M (list str) :=
  match above with
  | [] => ret line_blocks
  | entry :: rest =>
      do line_blocks <- bridge_step self tree_line_below line_blocks entry;
      bridge_loop self tree_line_below line_blocks rest
  end.

(** An operation that touches no node, as a computation. *)
Definition pure {A} (r : result A) : M A := fun σ => (r, σ).

Definition _get_second_line_below_tree_line (self : TreePrinter)
    (tree_line_above tree_line_below : list (Z * addr)) : M str :=
  do last_above <- pure (last_item tree_line_above);
  do last_below <- pure (last_item tree_line_below);
  let line_blocks_length := Z.max (fst last_above) (fst last_below) in
  let line_blocks :=
    list_mul [str_mul (_max_value_len self) (s_ " ")] line_blocks_length in
  do line_blocks <- bridge_loop self tree_line_below line_blocks tree_line_above;
  ret (concat line_blocks).

Definition _get_third_line_below_tree_line (self : TreePrinter)
    (tree_line_below : list (Z * addr)) : M str :=
  let half_max_len := _max_value_len self / 2 in
  _format_tree_line_with_offsets tree_line_below (fun offset node =>
    ret (str_mul offset (str_mul (_max_value_len self) (s_ " "))
         ++ str_mul half_max_len (s_ " ")
         ++ s_ "|"
         ++ str_mul (_max_value_len self - half_max_len - 1) (s_ " "))).

Definition render_tree_lines (self : TreePrinter)
    (tree_lines : list (list (Z * addr))) : M str :=
  do scheleton_lines <- _build_tree_scheleton self tree_lines;
  do first_lines_below_tree_lines <-
    comprehension (_get_first_line_below_tree_line self) tree_lines;
  do second_lines <-
    comprehension
      (fun '(i, tl) =>
         do below <- pure (item tree_lines (i + 1));
         _get_second_line_below_tree_line self tl below)
      (enumerate (all_but_last tree_lines));
  let second_lines_below_tree_lines := second_lines ++ [[]] in
  do third_lines <-
    comprehension (_get_third_line_below_tree_line self) (tail tree_lines);
  let third_lines_below_tree_lines := third_lines ++ [[]] in
  ret (rstrip
         (join NL
            (map (fun '(x0, x1, x2, x3) =>
                    x0 ++ NL ++ x1 ++ NL ++ x2 ++ NL ++ x3)
                 (zip4 scheleton_lines first_lines_below_tree_lines
                    second_lines_below_tree_lines
                    third_lines_below_tree_lines)))).

(** [TreePrinter.__str__]: the computation on the store, and the printer
    afterwards. *)
Definition __str__ (self : TreePrinter) : M str * TreePrinter :=
  let '(nodeinfos, it) := iterate (_inorder_listinfo self) in
  let self' := {| _root := _root self;
                  _max_value_len := _max_value_len self;
                  _inorder_listinfo := it |} in
  (render_tree_lines self (tree_lines_of nodeinfos), self').

(** A computation that gives the store back as it got it. *)
Definition reads_only {A} (m : M A) : Prop := forall σ, snd (m σ) = σ.

(** The tree of the class docstring, built as the docstring builds it, and
    its printer. *)
Definition docstring_tree : M addr :=
  do n3 <- Node__init__ (PyInt 123) None None;
  do n4 <- Node__init__ (PyStr (s_ "56789")) None None;
  do n5 <- Node__init__ (PyStr (s_ "789")) None None;
  do n1 <- Node__init__ (PyInt 12) None (Some n3);
  do n2 <- Node__init__ (PyInt 1234) (Some n4) (Some n5);
  Node__init__ (PyStr (s_ "1")) (Some n1) (Some n2).

Definition docstring_print : M str :=
  do n0 <- docstring_tree;
  do tv <- __init__ 1000 (Some n0);
  fst (__str__ tv).

End Heap.

(** ** The tree of the class docstring *)

Definition n3 := mkNode 3 (s_ "123") None None.
Definition n4 := mkNode 4 (s_ "56789") None None.
Definition n5 := mkNode 5 (s_ "789") None None.
Definition n1 := mkNode 1 (s_ "12") None (Some n3).
Definition n2 := mkNode 2 (s_ "1234") (Some n4) (Some n5).
Definition n0 := mkNode 0 (s_ "1") (Some n1) (Some n2).


(** A single node holding [5], and a node whose value has 81 characters. *)
Definition single5 := mkNode 0 (s_ "5") None None.
Definition wide_node := mkNode 0 (replicate 81 "a"%char) None None.

(** A single node whose value has two lines. *)
Definition two_lines := mkNode 0 (s_ "a" ++ NL ++ s_ "b") None None.

(** A tree with equal values in different nodes. *)
Definition tw2 := mkNode 2 (s_ "7") None None.
Definition tw4 := mkNode 4 (s_ "7") None None.
Definition tw1 := mkNode 1 (s_ "7") (Some tw2) None.
Definition tw3 := mkNode 3 (s_ "7") None (Some tw4).
Definition twins := mkNode 0 (s_ "7") (Some tw1) (Some tw3).

(** ** Notions the properties are stated with *)

(** The items a call of the inner [wrapped] yields. *)
Definition inorder (n : Node) (level : Z) : list (Z * Node) :=
  pending_items (inorder_wrapped_node n level).
Definition opt_inorder (c : option Node) (level : Z) : list (Z * Node) :=
  pending_items (inorder_wrapped c level).

(** The nodes of a tree, the root first. *)
Fixpoint nodes (n : Node) : list Node :=
  match n with
  | mkNode _ _ l r =>
      n :: match l with Some c => nodes c | None => [] end
        ++ match r with Some c => nodes c | None => [] end
  end.
Definition opt_nodes (c : option Node) : list Node :=
  match c with Some n => nodes n | None => [] end.

(** No object occurs at two places of the tree. *)
Definition distinct_ids (root : Node) : Prop :=
  NoDup (map node_id (nodes root)).

(** The object that stands for a node in the store, a store that holds the
    objects of a tree at the addresses its nodes' identities give, and the
    references that stand for nodes in lists and in a printer. *)
Definition obj_of (n : Node) : Heap.NodeObj :=
  {| Heap.obj_value := _value n;
     Heap.obj_left := node_id <$> _left n;
     Heap.obj_right := node_id <$> _right n |}.

Definition represents (σ : Heap.store) (root : Node) : Prop :=
  forall n, n ∈ nodes root -> σ !! node_id n = Some (obj_of n).

Definition refs {A} (l : list (A * Node)) : list (A * Heap.addr) :=
  (fun e => (e.1, node_id e.2)) <$> l.

Definition Iterable_refs (it : Iterable (Z * Node)) : Iterable (Z * Heap.addr) :=
  match it with
  | PyList l => PyList (refs l)
  | PyChain l => PyChain (refs l)
  end.

Definition printer_refs (tp : TreePrinter) : Heap.TreePrinter :=
  {| Heap._root := node_id <$> _root tp;
     Heap._max_value_len := _max_value_len tp;
     Heap._inorder_listinfo := Iterable_refs (_inorder_listinfo tp) |}.

(** The longest value string of the tree. *)
Definition longest_value_len (root : Node) : Z :=
  foldr Z.max 0 (map (fun n => len (get_value n)) (nodes root)).

(** The number of levels of a tree. *)
Fixpoint height (n : Node) : nat :=
  match n with
  | mkNode _ _ l r =>
      S (Nat.max match l with Some c => height c | None => O end
                 match r with Some c => height c | None => O end)
  end.

Definition opt_height (c : option Node) : nat :=
  match c with Some n => height n | None => O end.

(** Positions in a tree: the way down from the root. *)
Inductive dir := GoLeft | GoRight.

Fixpoint node_at (n : Node) (p : list dir) : option Node :=
  match p with
  | [] => Some n
  | GoLeft :: p' =>
      match get_left n with Some c => node_at c p' | None => None end
  | GoRight :: p' =>
      match get_right n with Some c => node_at c p' | None => None end
  end.

(** The positions of a tree in order: left subtree, the node, right subtree. *)
Fixpoint inorder_paths (n : Node) : list (list dir) :=
  match n with
  | mkNode _ _ l r =>
      match l with Some c => map (cons GoLeft) (inorder_paths c) | None => [] end
      ++ [[]]
      ++ match r with Some c => map (cons GoRight) (inorder_paths c) | None => [] end
  end.

(** The block of [w] characters at column [c] of a row. *)
Definition block_at (w : Z) (row : str) (c : Z) : str :=
  take (Z.to_nat w) (drop (Z.to_nat (c * w)) row).

(** The lines of the tree a printer works with. *)
Definition tree_lines (root : Node) : list tree_line :=
  tree_lines_of (pending_items (_get_inorder_listinfo (Some root))).

(** The entries of level [k] among the enumerated [(level, node)] pairs, as
    the first loop of [__str__] files them. *)
Definition level_line {N} (k : Z) (E : list (Z * (Z * N))) : list (Z * N) :=
  (fun e => (e.1, e.2.2)) <$> filter (fun e => e.2.1 = k) E.

(** The enumerated [(level, node)] pairs of a tree. *)
Definition columns (root : Node) : list (Z * (Z * Node)) :=
  enumerate (pending_items (_get_inorder_listinfo (Some root))).

(** The column indices of a line increase, starting at [last] or later. *)
Fixpoint increasing_from (last : Z) (tl : tree_line) : Prop :=
  match tl with
  | [] => True
  | (p, _) :: rest => last <= p /\ increasing_from (p + 1) rest
  end.

(** The blocks of a bridge row, [w] characters each: blank, all dashes, and
    the two half-dashed blocks that stand in the column of a child. *)
Definition blank_block (w : Z) : str := replicate (Z.to_nat w) " "%char.
Definition full_block (w : Z) : str := replicate (Z.to_nat w) "-"%char.
Definition left_child_block (w : Z) : str :=
  replicate (Z.to_nat (w - w / 2)) " "%char ++ replicate (Z.to_nat (w / 2)) "-"%char.
Definition right_child_block (w : Z) : str :=
  replicate (Z.to_nat (w / 2)) "-"%char ++ replicate (Z.to_nat (w - w / 2)) " "%char.

(** Column [j] lies on the bridge from the parent [(p, n)] to one of its
    children: from the child's column up to, not including, the parent's. *)
Definition in_span (below : tree_line) (e : Z * Node) (j : Z) : Prop :=
  exists c cc, (cc, c) ∈ below
    /\ ((get_left e.2 = Some c /\ cc <= j < e.1)
        \/ (get_right e.2 = Some c /\ e.1 < j <= cc)).

(** What the bridge loop needs of a parent entry: its children are found in
    the line below, the left one before it and the right one after it, and
    the slices lie within [n] blocks. *)
Definition step_ready (below : tree_line) (n : nat) (e : Z * Node) : Prop :=
  (forall c, get_left e.2 = Some c ->
     exists cl, child_index c below = Ok cl /\ (cl, c) ∈ below
                /\ 0 <= cl < e.1 /\ e.1 <= Z.of_nat n)
  /\ (forall c, get_right e.2 = Some c ->
     exists cr, child_index c below = Ok cr /\ (cr, c) ∈ below
                /\ 0 <= e.1 < cr /\ e.1 + 1 <= Z.of_nat n).

(** The blocks a parent entry has written once the loop has passed it. *)
Definition entry_done (w : Z) (below : tree_line) (blocks : list str)
    (e : Z * Node) : Prop :=
  (forall c cl, get_left e.2 = Some c -> (cl, c) ∈ below ->
     blocks !! Z.to_nat cl = Some (left_child_block w)
     /\ forall j, cl < j < e.1 -> blocks !! Z.to_nat j = Some (full_block w))
  /\ (forall c cr, get_right e.2 = Some c -> (cr, c) ∈ below ->
     blocks !! Z.to_nat cr = Some (right_child_block w)
     /\ forall j, e.1 < j < cr -> blocks !! Z.to_nat j = Some (full_block w)).

(** [Node.__repr__] *)
Definition __repr__ (self : Node) : str := s_ "Node(" ++ _value self ++ s_ ")".

(** The tree [tester.py] builds and prints. *)
Definition tester_n1 := mkNode 1 (s_ "1") None None.
Definition tester_n3 := mkNode 3 (s_ "3") (Some tester_n1) None.
Definition tester_n6 := mkNode 6 (s_ "6") None None.
Definition tester_n8 := mkNode 8 (s_ "8") None None.
Definition tester_n14 := mkNode 14 (s_ "14") None None.
Definition tester_n4 := mkNode 4 (s_ "4") (Some tester_n3) (Some tester_n6).
Definition tester_n10 := mkNode 10 (s_ "10") (Some tester_n8) (Some tester_n14).
Definition tester_n7 := mkNode 7 (s_ "7") (Some tester_n4) (Some tester_n10).

(** The block of the row of vertical strokes that stands under a bridge end:
    a stroke after [w / 2] blanks. *)
Definition vertical_block (w : Z) : str :=
  replicate (Z.to_nat (w / 2)) " "%char
  ++ ["|"%char]
  ++ replicate (Z.to_nat (w - w / 2 - 1)) " "%char.

(** A string that holds no newline character. *)
Definition one_line (s : str) : Prop := Forall (fun ch => ch <> newline) s.

(** ** Induction on trees *)

Lemma Node_ind (P : Node -> Prop) :
  (forall i v l r,
      (forall c, l = Some c -> P c) -> (forall c, r = Some c -> P c) ->
      P (mkNode i v l r)) ->
  forall n, P n.
Proof.
  intros H. fix IH 1. intros [i v l r]. apply H.
  - destruct l as [c'|]; intros c Hc; [|discriminate].
    injection Hc as <-. apply IH.
  - destruct r as [c'|]; intros c Hc; [|discriminate].
    injection Hc as <-. apply IH.
Qed.

(** ** Strings *)

Lemma str_mul_char n c : str_mul n [c] = replicate (Z.to_nat n) c.
Proof.
  unfold str_mul. induction (Z.to_nat n) as [|k IH]; simpl; [done|].
  by rewrite IH.
Qed.

Lemma concat_replicate_replicate {A} k m (c : A) :
  concat (replicate k (replicate m c)) = replicate (k * m) c.
Proof.
  induction k as [|k IH]; simpl; [done|]. by rewrite IH, replicate_add.
Qed.

Lemma str_mul_spaces k w :
  str_mul k (str_mul w (s_ " ")) = replicate (Z.to_nat k * Z.to_nat w) " "%char.
Proof.
  change (s_ " ") with [" "%char]. rewrite str_mul_char.
  apply concat_replicate_replicate.
Qed.

Lemma rstrip_app_spaces s ws :
  Forall (fun c => isspace c = true) ws -> rstrip (s ++ ws) = rstrip s.
Proof.
  intros Hws.
  assert (Hnil : rstrip ws = []).
  { induction Hws as [|c ws Hc _ IH]; simpl; [done|]. by rewrite IH, Hc. }
  induction s as [|c s IH]; simpl; [done|]. by rewrite IH.
Qed.

Lemma rstrip_subseq s : sublist (rstrip s) s.
Proof.
  induction s as [|c s IH]; simpl; [done|].
  destruct (rstrip s) as [|d r].
  - destruct (isspace c); [apply sublist_nil_l|].
    apply sublist_skip, sublist_nil_l.
  - by apply sublist_skip.
Qed.

Lemma center_length s w : len s <= w -> len (center s w) = w.
Proof.
  unfold center, len. intros Hle.
  destruct (Z.leb_spec w (Z.of_nat (length s))) as [Hge|Hlt]; [lia|].
  change (s_ " ") with [" "%char]. rewrite !str_mul_char.
  rewrite !length_app, !length_replicate.
  set (marg := w - Z.of_nat (length s)).
  assert (0 <= Z.land (Z.land marg w) 1 <= 1).
  { assert (H1 := Z.land_nonneg (Z.land marg w) 1).
    assert (H2 : Z.land (Z.land marg w) 1 = (Z.land marg w) mod 2)
      by (apply (Z.land_ones _ 1); lia).
    assert (H3 := Z.mod_pos_bound (Z.land marg w) 2). lia. }
  assert (0 <= marg / 2) by (apply Z.div_pos; lia).
  assert (marg = 2 * (marg / 2) + marg mod 2) by (apply Z.div_mod; lia).
  assert (H5 := Z.mod_pos_bound marg 2).
  lia.
Qed.

(** ** The two traversals *)

Lemma inorder_eq n level :
  inorder n level
  = opt_inorder (get_left n) (level + 1)
    ++ (level, n) :: opt_inorder (get_right n) (level + 1).
Proof.
  destruct n as [i v l r]. unfold inorder, opt_inorder. simpl.
  rewrite app_nil_r. by destruct l, r.
Qed.

Lemma opt_inorder_Some n level : opt_inorder (Some n) level = inorder n level.
Proof. done. Qed.

Lemma nodes_eq n : nodes n = n :: opt_nodes (get_left n) ++ opt_nodes (get_right n).
Proof. by destruct n as [i v [l|] [r|]]. Qed.

Lemma foldr_max_app l1 l2 :
  foldr Z.max 0 (l1 ++ l2) = Z.max (foldr Z.max 0 l1) (foldr Z.max 0 l2).
Proof.
  induction l1 as [|x l1 IH]; simpl.
  - assert (0 <= foldr Z.max 0 l2) by (induction l2; simpl; lia). lia.
  - rewrite IH. lia.
Qed.

Lemma maxlen_wrapped_node_longest n :
  maxlen_wrapped_node n = longest_value_len n /\ 0 <= longest_value_len n.
Proof.
  induction n as [i v l r IHl IHr] using Node_ind.
  unfold longest_value_len. simpl. rewrite map_app, foldr_max_app.
  fold (opt_nodes l) (opt_nodes r).
  assert (Hl : exists m, foldr Z.max 0 (map (fun n => len (get_value n)) (opt_nodes l)) = m
      /\ 0 <= m
      /\ Z.max (len v) match l with Some c => maxlen_wrapped_node c | None => - VALUE_MAX_LEN end
         = Z.max (len v) m).
  { destruct l as [c|]; simpl.
    - destruct (IHl c eq_refl) as [-> ?]. eauto.
    - exists 0. unfold VALUE_MAX_LEN, len. repeat split; lia. }
  assert (Hr : exists m, foldr Z.max 0 (map (fun n => len (get_value n)) (opt_nodes r)) = m
      /\ 0 <= m
      /\ forall a, 0 <= a ->
         Z.max a match r with Some c => maxlen_wrapped_node c | None => - VALUE_MAX_LEN end
         = Z.max a m).
  { destruct r as [c|]; simpl.
    - destruct (IHr c eq_refl) as [-> ?]. eauto.
    - exists 0. unfold VALUE_MAX_LEN. repeat split; lia. }
  destruct Hl as (ml & -> & ? & ->), Hr as (mr & -> & ? & Hr).
  unfold get_value; simpl. unfold len in *. rewrite Hr by lia. lia.
Qed.

Lemma value_len_le_longest root n :
  n ∈ nodes root -> len (get_value n) <= longest_value_len root.
Proof.
  unfold longest_value_len. induction (nodes root) as [|x l IH]; simpl.
  - by intros ?%elem_of_nil.
  - intros [->|Hin]%elem_of_cons; [lia|]. specialize (IH Hin). lia.
Qed.

Lemma max_value_len_init (root : Node) :
  _max_value_len (__init__ (Some root)) = Z.max 2 (longest_value_len root).
Proof.
  simpl. unfold _find_max_value_len, maxlen_wrapped.
  by destruct (maxlen_wrapped_node_longest root) as [-> _].
Qed.

(** ** Rendering a printer twice, an absent root, a single node *)

Lemma str_of_exhausted root w :
  fst (__str__ {| _root := root; _max_value_len := w;
                  _inorder_listinfo := PyChain [] |}) = Ok [].
Proof. done. Qed.

Lemma inorder_wrapped_node_chain n level :
  inorder_wrapped_node n level = PyChain (inorder n level).
Proof. by destruct n. Qed.

(** After one rendering of a tree that is not empty the printer's iterator is
    exhausted, and every later rendering is the empty string. *)
Lemma second_str_empty (root : Node) :
  fst (__str__ (snd (__str__ (__init__ (Some root))))) = Ok [].
Proof.
  unfold __init__, _get_inorder_listinfo, inorder_wrapped.
  rewrite inorder_wrapped_node_chain. apply str_of_exhausted.
Qed.

(** C1 (the code departs from the specification): the printer of the single
    node [5] renders as [5] the first time and as the empty string the second
    time, so converting the same unmodified printer twice does not give the
    same string. *)
Theorem C1_second_rendering_differs :
  let tp := __init__ (Some single5) in
  fst (__str__ tp) = Ok (s_ "5")
  /\ fst (__str__ (snd (__str__ tp))) = Ok []
  /\ fst (__str__ tp) <> fst (__str__ (snd (__str__ tp))).
Proof. vm_compute. repeat split; congruence. Qed.

(** C2, as the specification states it, fails: a node whose value has 81
    characters gives the cell width 81, above the maximum of 80. *)
Lemma C2_width_not_capped :
  _max_value_len (__init__ (Some wide_node)) = 81
  /\ ~ (_max_value_len (__init__ (Some wide_node)) <= VALUE_MAX_LEN)
  /\ _max_value_len (__init__ (Some wide_node))
     <> Z.min VALUE_MAX_LEN (Z.max 2 (longest_value_len wide_node)).
Proof. vm_compute. repeat split; congruence. Qed.

(** C2, amended: for every tree that is not empty the cell width is
    [max(2, longest value length over all nodes)]; no upper bound is
    applied. *)
Theorem C2_cell_width (root : Node) :
  _max_value_len (__init__ (Some root)) = Z.max 2 (longest_value_len root).
Proof. apply max_value_len_init. Qed.

(** C10: with a [None] root the constructor yields a printer (cell width 2,
    an empty list of nodes), and its rendering returns the empty string, the
    first time and again.  Over the store of node objects, where a method
    may raise, neither raises, whatever the store and the recursion limit
    are. *)
Theorem C10_absent_root :
  __init__ None
  = {| _root := None; _max_value_len := 2; _inorder_listinfo := PyList [] |}
  /\ fst (__str__ (__init__ None)) = Ok []
  /\ fst (__str__ (snd (__str__ (__init__ None)))) = Ok []
  /\ (forall fuel σ,
        exists tv, Heap.__init__ fuel None σ = (Ok tv, σ)
                   /\ fst (Heap.__str__ tv) σ = (Ok [], σ)).
Proof.
  repeat split; try done. intros fuel σ. eexists. split; [by destruct fuel|].
  done.
Qed.

(** ** Grouping the nodes by level *)

Lemma map_fmap {A B} (f : A -> B) (l : list A) : map f l = f <$> l.
Proof. induction l as [|x l IH]; [done|]. simpl. by rewrite IH. Qed.

Lemma enumerate_from_lookup {A} s (l : list A) (i : nat) :
  enumerate_from s l !! i = (fun x => (s + Z.of_nat i, x)) <$> l !! i.
Proof.
  revert s i. induction l as [|x l IH]; intros s [|i]; simpl; try done.
  - by rewrite Z.add_0_r.
  - rewrite IH. destruct (l !! i); simpl; [|done]. do 2 f_equal. lia.
Qed.

Lemma elem_of_enumerate_from {A} s (l : list A) i x :
  (i, x) ∈ enumerate_from s l
  <-> exists m : nat, l !! m = Some x /\ i = s + Z.of_nat m.
Proof.
  rewrite list_elem_of_lookup. split.
  - intros [m Hm]. rewrite enumerate_from_lookup in Hm.
    destruct (l !! m) eqn:E; simplify_eq/=. eauto.
  - intros (m & Hm & ->). exists m. by rewrite enumerate_from_lookup, Hm.
Qed.

Section Grouping.
Context {N : Type}.

Let step (lines_dict : gmap Z (list (Z * N))) (e : Z * (Z * N)) :=
  let '(i, nodeinfo) := e in
  <[fst nodeinfo :=
      default [] (lines_dict !! fst nodeinfo) ++ [(i, snd nodeinfo)]]>
    lines_dict.

Lemma level_line_snoc k (E : list (Z * (Z * N))) e :
  level_line k (E ++ [e])
  = level_line k E ++ (if decide (e.2.1 = k) then [(e.1, e.2.2)] else []).
Proof.
  unfold level_line. rewrite filter_app, fmap_app. f_equal.
  rewrite filter_cons, filter_nil. by case_decide.
Qed.

Lemma lines_dict_lookup E k :
  foldl step ∅ E !! k
  = match level_line k E with [] => None | l => Some l end.
Proof.
  induction E as [|e E IH] using rev_ind; [done|].
  rewrite foldl_snoc, level_line_snoc. destruct e as [i [d n]]. simpl.
  destruct (decide (d = k)) as [->|Hne].
  - rewrite lookup_insert_eq, IH.
    destruct (level_line k E); simpl; done.
  - rewrite lookup_insert_ne, IH by done. by rewrite app_nil_r.
Qed.

Lemma lines_dict_of_lookup (nodeinfos : list (Z * N)) k :
  lines_dict_of nodeinfos !! k
  = match level_line k (enumerate nodeinfos) with
    | [] => None
    | l => Some l
    end.
Proof. apply lines_dict_lookup. Qed.
End Grouping.

Lemma elem_of_level_line {N} k (E : list (Z * (Z * N))) i n :
  (i, n) ∈ level_line k E <-> (i, (k, n)) ∈ E.
Proof.
  unfold level_line. rewrite list_elem_of_fmap. split.
  - intros ([j [d m]] & [= -> ->] & [Hd Hin]%list_elem_of_filter).
    simpl in Hd. by subst.
  - intros Hin. exists (i, (k, n)). split; [done|].
    by apply list_elem_of_filter.
Qed.

Lemma sorted_keys_elem {N} (nodeinfos : list (Z * N)) k :
  k ∈ sorted_keys (lines_dict_of nodeinfos) <-> exists n, (k, n) ∈ nodeinfos.
Proof.
  unfold sorted_keys. rewrite merge_sort_Permutation, list_elem_of_fmap.
  split.
  - intros ([k' l] & -> & Hin%elem_of_map_to_list). simpl.
    rewrite lines_dict_of_lookup in Hin.
    destruct (level_line k' (enumerate nodeinfos)) as [|[i n] l'] eqn:E;
      [done|].
    assert (Hi : (i, n) ∈ level_line k' (enumerate nodeinfos))
      by (rewrite E; left).
    apply elem_of_level_line, elem_of_enumerate_from in Hi as (m & Hm & _).
    exists n. eapply list_elem_of_lookup_2, Hm.
  - intros (n & [m Hm]%list_elem_of_lookup).
    assert (Hi : (0 + Z.of_nat m, n) ∈ level_line k (enumerate nodeinfos)).
    { apply elem_of_level_line, elem_of_enumerate_from. eauto. }
    destruct (level_line k (enumerate nodeinfos)) as [|x l'] eqn:E;
      [by apply elem_of_nil in Hi|].
    exists (k, x :: l'). split; [done|].
    apply elem_of_map_to_list. by rewrite lines_dict_of_lookup, E.
Qed.

Lemma sorted_keys_seqZ {N} (nodeinfos : list (Z * N)) h :
  (forall k, (exists n, (k, n) ∈ nodeinfos) <-> 0 <= k < h) ->
  sorted_keys (lines_dict_of nodeinfos) = seqZ 0 h.
Proof.
  intros Hlev. apply (Sorted_unique Z.le).
  - apply Sorted_merge_sort. intros x y. lia.
  - apply (StronglySorted_Sorted). unfold seqZ.
    generalize (Z.to_nat h) 0%nat. intros n. induction n as [|n IH];
      intros s; simpl; constructor.
    + apply IH.
    + apply Forall_forall. intros x (y & -> & Hy)%list_elem_of_fmap.
      apply elem_of_seq in Hy. lia.
  - apply NoDup_Permutation.
    + unfold sorted_keys. rewrite merge_sort_Permutation.
      apply NoDup_fst_map_to_list.
    + apply NoDup_seqZ.
    + intros k. rewrite sorted_keys_elem, Hlev, elem_of_seqZ. lia.
Qed.

Lemma tree_lines_of_seqZ {N} (nodeinfos : list (Z * N)) h :
  (forall k, (exists n, (k, n) ∈ nodeinfos) <-> 0 <= k < h) ->
  tree_lines_of nodeinfos
  = (fun k => level_line k (enumerate nodeinfos)) <$> seqZ 0 h.
Proof.
  intros Hlev. unfold tree_lines_of. rewrite (sorted_keys_seqZ _ h Hlev).
  rewrite map_fmap. apply list_fmap_ext. intros _ k Hk%list_elem_of_lookup_2.
  rewrite lines_dict_of_lookup. by destruct (level_line k _).
Qed.

(** ** The in-order list and the shape of the tree *)

Lemma height_eq n :
  height n = S (Nat.max (opt_height (get_left n)) (opt_height (get_right n))).
Proof. by destruct n. Qed.

Lemma inorder_levels n : forall d k,
  (exists x, (k, x) ∈ inorder n d) <-> d <= k < d + Z.of_nat (height n).
Proof.
  induction n as [i v l r IHl IHr] using Node_ind. intros d k.
  assert (Hl : forall d k, (exists x, (k, x) ∈ opt_inorder l d)
                           <-> d <= k < d + Z.of_nat (opt_height l)).
  { destruct l as [c|]; simpl; [by apply IHl|]. intros d' k'.
    split; [intros [x Hx]; by apply elem_of_nil in Hx|lia]. }
  assert (Hr : forall d k, (exists x, (k, x) ∈ opt_inorder r d)
                           <-> d <= k < d + Z.of_nat (opt_height r)).
  { destruct r as [c|]; simpl; [by apply IHr|]. intros d' k'.
    split; [intros [x Hx]; by apply elem_of_nil in Hx|lia]. }
  rewrite inorder_eq, height_eq. simpl get_left. simpl get_right. split.
  - intros [x [Hx|[Hx|Hx]%elem_of_cons]%elem_of_app].
    + assert (H : exists x, (k, x) ∈ opt_inorder l (d + 1)) by eauto.
      apply Hl in H. lia.
    + simplify_eq. lia.
    + assert (H : exists x, (k, x) ∈ opt_inorder r (d + 1)) by eauto.
      apply Hr in H. lia.
  - intros Hk. destruct (decide (k = d)) as [->|Hne].
    { eexists. apply elem_of_app. right. left. }
    destruct (decide (k < d + 1 + Z.of_nat (opt_height l))) as [Hlt|Hge].
    + destruct (proj2 (Hl (d + 1) k)) as [x Hx]; [lia|].
      exists x. apply elem_of_app. by left.
    + destruct (proj2 (Hr (d + 1) k)) as [x Hx]; [lia|].
      exists x. apply elem_of_app. right. by right.
Qed.

Lemma inorder_level_ge n d k x : (k, x) ∈ inorder n d -> d <= k.
Proof. intros H. assert (d <= k < d + Z.of_nat (height n)); [|lia].
  apply inorder_levels. eauto. Qed.

Lemma opt_inorder_level_ge c d k x : (k, x) ∈ opt_inorder c d -> d <= k.
Proof.
  destruct c; [apply inorder_level_ge|]. by intros ?%elem_of_nil.
Qed.

Lemma tree_lines_levels root :
  tree_lines root
  = (fun k => level_line k (columns root)) <$> seqZ 0 (Z.of_nat (height root)).
Proof.
  unfold tree_lines, columns. apply tree_lines_of_seqZ. intros k.
  apply (inorder_levels root 0 k).
Qed.

Lemma tree_lines_lookup root (k : nat) tl :
  tree_lines root !! k = Some tl
  <-> (k < height root)%nat /\ tl = level_line (Z.of_nat k) (columns root).
Proof.
  rewrite tree_lines_levels, list_lookup_fmap. split.
  - intros H. destruct (seqZ 0 _ !! k) as [z|] eqn:E; simplify_eq/=.
    apply lookup_seqZ in E as [-> ?]. split; [lia|]. f_equal.
  - intros [Hk ->]. rewrite lookup_seqZ_lt by lia. done.
Qed.

Lemma length_tree_lines root : length (tree_lines root) = height root.
Proof.
  rewrite tree_lines_levels, length_fmap, length_seqZ. lia.
Qed.

Lemma inorder_nodes n : forall d, (inorder n d).*2 ≡ₚ nodes n.
Proof.
  induction n as [i v l r IHl IHr] using Node_ind. intros d.
  rewrite inorder_eq, nodes_eq. simpl get_left. simpl get_right.
  rewrite fmap_app, fmap_cons. simpl.
  assert (Hl : (opt_inorder l (d + 1)).*2 ≡ₚ opt_nodes l)
    by (destruct l; simpl; [by apply IHl|done]).
  assert (Hr : (opt_inorder r (d + 1)).*2 ≡ₚ opt_nodes r)
    by (destruct r; simpl; [by apply IHr|done]).
  rewrite Hl, Hr. by rewrite Permutation_middle.
Qed.

Lemma inorder_elem_nodes n d k x : (k, x) ∈ inorder n d -> x ∈ nodes n.
Proof.
  intros H. rewrite <- (inorder_nodes n d). apply list_elem_of_fmap.
  by exists (k, x).
Qed.

Lemma nodes_elem_inorder n d x : x ∈ nodes n -> exists k, (k, x) ∈ inorder n d.
Proof.
  rewrite <- (inorder_nodes n d). intros ([k y] & -> & H)%list_elem_of_fmap.
  eauto.
Qed.

Lemma opt_nodes_elem_inorder c d x :
  x ∈ opt_nodes c -> exists k, (k, x) ∈ opt_inorder c d.
Proof.
  destruct c; [apply nodes_elem_inorder|]. by intros ?%elem_of_nil.
Qed.

Lemma nodes_self n : n ∈ nodes n.
Proof. rewrite nodes_eq. left. Qed.

Lemma nodes_trans n : forall a x, a ∈ nodes n -> x ∈ nodes a -> x ∈ nodes n.
Proof.
  induction n as [i v l r IHl IHr] using Node_ind. intros a x Ha Hx.
  rewrite nodes_eq in Ha |- *. simpl get_left in *. simpl get_right in *.
  apply elem_of_cons in Ha as [->|Ha].
  { by rewrite nodes_eq in Hx. }
  right. apply elem_of_app in Ha as [Ha|Ha]; apply elem_of_app.
  - left. destruct l as [c|]; simpl in *; [|by apply elem_of_nil in Ha].
    eapply IHl; eauto.
  - right. destruct r as [c|]; simpl in *; [|by apply elem_of_nil in Ha].
    eapply IHr; eauto.
Qed.

Lemma nodes_left n c x : get_left n = Some c -> x ∈ nodes c -> x ∈ nodes n.
Proof.
  intros Hc Hx. rewrite nodes_eq, Hc. right. apply elem_of_app. by left.
Qed.

Lemma nodes_right n c x : get_right n = Some c -> x ∈ nodes c -> x ∈ nodes n.
Proof.
  intros Hc Hx. rewrite nodes_eq, Hc. right. apply elem_of_app. by right.
Qed.

(** A child is listed one level below its parent. *)
Lemma inorder_child n : forall d k a c,
  (k, a) ∈ inorder n d ->
  get_left a = Some c \/ get_right a = Some c ->
  (k + 1, c) ∈ inorder n d.
Proof.
  induction n as [i v l r IHl IHr] using Node_ind. intros d k a c Ha Hc.
  rewrite inorder_eq in Ha |- *. simpl get_left in *. simpl get_right in *.
  apply elem_of_app in Ha as [Ha|[Ha|Ha]%elem_of_cons].
  - apply elem_of_app. left.
    destruct l as [cl|]; simpl in *; [|by apply elem_of_nil in Ha].
    eapply IHl; eauto.
  - simplify_eq. simpl in Hc. destruct Hc as [->| ->].
    + apply elem_of_app. left. rewrite opt_inorder_Some, inorder_eq.
      apply elem_of_app. right. left.
    + apply elem_of_app. right. right. rewrite opt_inorder_Some, inorder_eq.
      apply elem_of_app. right. left.
  - apply elem_of_app. right. right.
    destruct r as [cr|]; simpl in *; [|by apply elem_of_nil in Ha].
    eapply IHr; eauto.
Qed.

(** ** Distinct identities *)

Lemma distinct_ids_children n :
  distinct_ids n ->
  (node_id n ∉ node_id <$> (opt_nodes (get_left n) ++ opt_nodes (get_right n)))
  /\ NoDup (node_id <$> opt_nodes (get_left n))
  /\ NoDup (node_id <$> opt_nodes (get_right n))
  /\ (forall x y, x ∈ opt_nodes (get_left n) -> y ∈ opt_nodes (get_right n) ->
                  node_id x <> node_id y).
Proof.
  unfold distinct_ids. rewrite nodes_eq, map_fmap, fmap_cons.
  intros [Hn Hlr]%NoDup_cons. split; [done|].
  rewrite fmap_app in Hlr. apply NoDup_app in Hlr as (Hl & Hlr & Hr).
  repeat split; [done..|]. intros x y Hx Hy Heq.
  apply (Hlr (node_id x)); [by apply list_elem_of_fmap_2|].
  rewrite Heq. by apply list_elem_of_fmap_2.
Qed.

Lemma distinct_ids_left n c : distinct_ids n -> get_left n = Some c -> distinct_ids c.
Proof.
  intros (_ & H & _)%distinct_ids_children Hc. rewrite Hc in H.
  unfold distinct_ids. by rewrite map_fmap.
Qed.

Lemma distinct_ids_right n c : distinct_ids n -> get_right n = Some c -> distinct_ids c.
Proof.
  intros (_ & _ & H & _)%distinct_ids_children Hc. rewrite Hc in H.
  unfold distinct_ids. by rewrite map_fmap.
Qed.

(** With distinct identities, nodes of the tree with the same identity are
    the same node. *)
Lemma distinct_ids_inj root x y :
  distinct_ids root -> x ∈ nodes root -> y ∈ nodes root ->
  node_id x = node_id y -> x = y.
Proof.
  unfold distinct_ids. rewrite map_fmap.
  intros Hnd [i Hi]%list_elem_of_lookup [j Hj]%list_elem_of_lookup Heq.
  assert (i = j); [|congruence].
  apply (NoDup_lookup _ _ _ (node_id x) Hnd).
  - by rewrite list_lookup_fmap, Hi.
  - by rewrite list_lookup_fmap, Hj, Heq.
Qed.

Lemma distinct_ids_NoDup_inorder n d : distinct_ids n -> NoDup (inorder n d).*2.
Proof.
  unfold distinct_ids. rewrite map_fmap. intros H%NoDup_fmap_1.
  by rewrite inorder_nodes.
Qed.

(** With distinct identities a node is listed at one place only. *)
Lemma inorder_lookup_inj n d i j k k' x :
  distinct_ids n ->
  inorder n d !! i = Some (k, x) -> inorder n d !! j = Some (k', x) -> i = j.
Proof.
  intros Hnd Hi Hj.
  apply (NoDup_lookup _ _ _ x (distinct_ids_NoDup_inorder n d Hnd)).
  - by rewrite list_lookup_fmap, Hi.
  - by rewrite list_lookup_fmap, Hj.
Qed.

(** ** Columns: where a node stands in the in-order list *)

Lemma opt_inorder_elem_nodes c d k x :
  (k, x) ∈ opt_inorder c d -> x ∈ opt_nodes c.
Proof.
  destruct c; [apply inorder_elem_nodes|]. by intros ?%elem_of_nil.
Qed.

Lemma inorder_lookup_cases n d i e :
  inorder n d !! i = Some e ->
  let L := opt_inorder (get_left n) (d + 1) in
  let R := opt_inorder (get_right n) (d + 1) in
  ((i < length L)%nat /\ L !! i = Some e)
  \/ (i = length L /\ e = (d, n))
  \/ ((length L < i)%nat /\ R !! (i - S (length L))%nat = Some e).
Proof.
  rewrite inorder_eq. intros H L R. fold L R in H.
  destruct (decide (i < length L)%nat) as [Hlt|Hge].
  - left. by rewrite lookup_app_l in H.
  - right. rewrite lookup_app_r in H by lia.
    destruct (i - length L)%nat as [|m] eqn:E; simpl in H.
    + left. split; [lia|congruence].
    + right. split; [lia|]. by replace (i - S (length L))%nat with m by lia.
Qed.

Lemma inorder_lookup_left n d i e :
  opt_inorder (get_left n) (d + 1) !! i = Some e -> inorder n d !! i = Some e.
Proof. intros H. rewrite inorder_eq. by apply lookup_app_l_Some. Qed.

Lemma inorder_lookup_right n d i e :
  opt_inorder (get_right n) (d + 1) !! i = Some e ->
  inorder n d !! (S (length (opt_inorder (get_left n) (d + 1))) + i)%nat = Some e.
Proof.
  intros H. rewrite inorder_eq, lookup_app_r by lia.
  by replace (_ + i - _)%nat with (S i) by lia.
Qed.

(** Where the nodes of the two subtrees stand. *)
Lemma inorder_locate n d j lx x :
  distinct_ids n -> inorder n d !! j = Some (lx, x) ->
  let L := opt_inorder (get_left n) (d + 1) in
  let R := opt_inorder (get_right n) (d + 1) in
  (x ∈ opt_nodes (get_left n) -> (j < length L)%nat /\ L !! j = Some (lx, x))
  /\ (x ∈ opt_nodes (get_right n) ->
      (length L < j)%nat /\ R !! (j - S (length L))%nat = Some (lx, x)).
Proof.
  intros Hnd Hj L R. split; intros Hx.
  - apply (opt_nodes_elem_inorder _ (d + 1)) in Hx as [k Hx].
    apply list_elem_of_lookup in Hx as [j' Hj'].
    assert (j = j') as <-.
    { eapply inorder_lookup_inj; eauto using inorder_lookup_left. }
    split; [by eapply lookup_lt_Some|]. fold L in Hj'.
    rewrite Hj'. f_equal. apply inorder_lookup_left in Hj'. congruence.
  - apply (opt_nodes_elem_inorder _ (d + 1)) in Hx as [k Hx].
    apply list_elem_of_lookup in Hx as [j' Hj'].
    assert (j = S (length L) + j')%nat as ->.
    { eapply inorder_lookup_inj; eauto using inorder_lookup_right. }
    split; [lia|]. replace (_ + j' - _)%nat with j' by lia. fold R in Hj'.
    rewrite Hj'. f_equal. apply inorder_lookup_right in Hj'. fold L in Hj'.
    congruence.
Qed.

Lemma opt_nodes_trans c a x : a ∈ opt_nodes c -> x ∈ nodes a -> x ∈ opt_nodes c.
Proof.
  destruct c; simpl; [apply nodes_trans|]. by intros ?%elem_of_nil.
Qed.

Lemma opt_nodes_sub a x : x ∈ opt_nodes (get_left a) \/ x ∈ opt_nodes (get_right a) -> x ∈ nodes a.
Proof.
  rewrite nodes_eq. intros [H|H]; right; apply elem_of_app; auto.
Qed.

(** The nodes of a left subtree stand before the node, those of a right
    subtree after it. *)
Lemma inorder_left_right n : forall d i j k a lx x,
  distinct_ids n ->
  inorder n d !! i = Some (k, a) -> inorder n d !! j = Some (lx, x) ->
  (x ∈ opt_nodes (get_left a) -> (j < i)%nat)
  /\ (x ∈ opt_nodes (get_right a) -> (i < j)%nat).
Proof.
  induction n as [id v l r IHl IHr] using Node_ind.
  intros d i j k a lx x Hnd Hi Hj.
  set (n := mkNode id v l r) in *.
  assert (Hl : forall i j, opt_inorder l (d + 1) !! i = Some (k, a) ->
     opt_inorder l (d + 1) !! j = Some (lx, x) ->
     (x ∈ opt_nodes (get_left a) -> (j < i)%nat)
     /\ (x ∈ opt_nodes (get_right a) -> (i < j)%nat)).
  { destruct l as [c|]; [|done]. intros i' j'. apply IHl; [done|].
    by apply (distinct_ids_left n). }
  assert (Hr : forall i j, opt_inorder r (d + 1) !! i = Some (k, a) ->
     opt_inorder r (d + 1) !! j = Some (lx, x) ->
     (x ∈ opt_nodes (get_left a) -> (j < i)%nat)
     /\ (x ∈ opt_nodes (get_right a) -> (i < j)%nat)).
  { destruct r as [c|]; [|done]. intros i' j'. apply IHr; [done|].
    by apply (distinct_ids_right n). }
  destruct (inorder_locate n d j lx x Hnd Hj) as [HxL HxR].
  simpl get_left in *. simpl get_right in *.
  assert (Hsub : x ∈ opt_nodes (get_left a) \/ x ∈ opt_nodes (get_right a) ->
                 x ∈ nodes a) by apply opt_nodes_sub.
  destruct (inorder_lookup_cases n d i _ Hi) as [[Hlt Hi']|[[-> He]|[Hgt Hi']]];
    simpl get_left in *; simpl get_right in *.
  - assert (Ha : a ∈ opt_nodes l)
      by (eapply opt_inorder_elem_nodes, list_elem_of_lookup_2, Hi').
    assert (Hx : x ∈ opt_nodes (get_left a) \/ x ∈ opt_nodes (get_right a) ->
                 opt_inorder l (d + 1) !! j = Some (lx, x)).
    { intros H. apply HxL. eapply opt_nodes_trans; eauto. }
    split; intros H; apply (Hl i j); auto.
  - simplify_eq. simpl. split; intros H.
    + by apply HxL.
    + by apply HxR.
  - assert (Ha : a ∈ opt_nodes r)
      by (eapply opt_inorder_elem_nodes, list_elem_of_lookup_2, Hi').
    assert (Hx : x ∈ opt_nodes (get_left a) \/ x ∈ opt_nodes (get_right a) ->
        (length (opt_inorder l (d + 1)) < j)%nat
        /\ opt_inorder r (d + 1) !! (j - S (length (opt_inorder l (d + 1))))%nat
           = Some (lx, x)).
    { intros H. apply HxR. eapply opt_nodes_trans; eauto. }
    split; intros H.
    + destruct Hx as [? Hx]; [auto|].
      pose proof (proj1 (Hr _ _ Hi' Hx) H). lia.
    + destruct Hx as [? Hx]; [auto|].
      pose proof (proj2 (Hr _ _ Hi' Hx) H). lia.
Qed.

(** Two nodes of one level: the whole subtree of the one that stands first
    stands before the whole subtree of the other. *)
Lemma inorder_subtrees_apart n : forall d i1 i2 k a b jx jy lx ly x y,
  distinct_ids n ->
  inorder n d !! i1 = Some (k, a) -> inorder n d !! i2 = Some (k, b) ->
  (i1 < i2)%nat ->
  x ∈ nodes a -> y ∈ nodes b ->
  inorder n d !! jx = Some (lx, x) -> inorder n d !! jy = Some (ly, y) ->
  (jx < jy)%nat.
Proof.
  induction n as [id v l r IHl IHr] using Node_ind.
  intros d i1 i2 k a b jx jy lx ly x y Hnd Hi1 Hi2 Hlt Hx Hy Hjx Hjy.
  set (n := mkNode id v l r) in *.
  assert (Hl : forall i1 i2 jx jy, opt_inorder l (d + 1) !! i1 = Some (k, a) ->
     opt_inorder l (d + 1) !! i2 = Some (k, b) -> (i1 < i2)%nat ->
     opt_inorder l (d + 1) !! jx = Some (lx, x) ->
     opt_inorder l (d + 1) !! jy = Some (ly, y) -> (jx < jy)%nat).
  { destruct l as [c|]; [|done]. intros i1' i2' jx' jy' H1 H2 H3 H4 H5.
    apply (IHl c eq_refl (d + 1) i1' i2' k a b jx' jy' lx ly x y); auto.
    by apply (distinct_ids_left n). }
  assert (Hr : forall i1 i2 jx jy, opt_inorder r (d + 1) !! i1 = Some (k, a) ->
     opt_inorder r (d + 1) !! i2 = Some (k, b) -> (i1 < i2)%nat ->
     opt_inorder r (d + 1) !! jx = Some (lx, x) ->
     opt_inorder r (d + 1) !! jy = Some (ly, y) -> (jx < jy)%nat).
  { destruct r as [c|]; [|done]. intros i1' i2' jx' jy' H1 H2 H3 H4 H5.
    apply (IHr c eq_refl (d + 1) i1' i2' k a b jx' jy' lx ly x y); auto.
    by apply (distinct_ids_right n). }
  destruct (inorder_locate n d jx lx x Hnd Hjx) as [HxL HxR].
  destruct (inorder_locate n d jy ly y Hnd Hjy) as [HyL HyR].
  simpl get_left in *. simpl get_right in *.
  assert (HinL : forall i e, opt_inorder l (d + 1) !! i = Some e ->
                    e.2 ∈ opt_nodes l /\ d + 1 <= e.1).
  { intros i [k' e] He%list_elem_of_lookup_2.
    eauto using opt_inorder_elem_nodes, opt_inorder_level_ge. }
  assert (HinR : forall i e, opt_inorder r (d + 1) !! i = Some e ->
                    e.2 ∈ opt_nodes r /\ d + 1 <= e.1).
  { intros i [k' e] He%list_elem_of_lookup_2.
    eauto using opt_inorder_elem_nodes, opt_inorder_level_ge. }
  destruct (inorder_lookup_cases n d i1 _ Hi1) as [[H1 Hi1']|[[-> He1]|[H1 Hi1']]];
  destruct (inorder_lookup_cases n d i2 _ Hi2) as [[H2 Hi2']|[[-> He2]|[H2 Hi2']]];
    simpl get_left in *; simpl get_right in *; try lia.
  - destruct (HinL _ _ Hi1') as [Ha _], (HinL _ _ Hi2') as [Hb _].
    simpl in *.
    destruct HxL as [_ HxL]; [by apply (opt_nodes_trans _ a)|].
    destruct HyL as [_ HyL]; [by apply (opt_nodes_trans _ b)|].
    eapply Hl; eauto.
  - destruct (HinL _ _ Hi1') as [_ Hk]. simplify_eq/=. lia.
  - destruct (HinL _ _ Hi1') as [Ha _], (HinR _ _ Hi2') as [Hb _].
    simpl in *.
    destruct HxL as [? _]; [by apply (opt_nodes_trans _ a)|].
    destruct HyR as [? _]; [by apply (opt_nodes_trans _ b)|]. lia.
  - destruct (HinR _ _ Hi2') as [_ Hk]. simplify_eq/=. lia.
  - destruct (HinR _ _ Hi1') as [Ha _], (HinR _ _ Hi2') as [Hb _].
    simpl in *.
    destruct HxR as [? HxR]; [by apply (opt_nodes_trans _ a)|].
    destruct HyR as [? HyR]; [by apply (opt_nodes_trans _ b)|].
    assert (jx - S (length (opt_inorder l (d + 1)))
            < jy - S (length (opt_inorder l (d + 1))))%nat; [|lia].
    eapply (Hr (i1 - S _)%nat (i2 - S _)%nat); eauto. lia.
Qed.

Lemma inorder_paths_spec n : forall d,
  Forall2 (fun e p => node_at n p = Some e.2 /\ e.1 = d + len p)
          (inorder n d) (inorder_paths n).
Proof.
  induction n as [i v l r IHl IHr] using Node_ind. intros d.
  rewrite inorder_eq. simpl.
  apply Forall2_app; [|constructor; [split; [done|unfold len; simpl; lia]|]].
  - destruct l as [c|]; [|constructor]. rewrite opt_inorder_Some.
    apply Forall2_fmap_r. eapply Forall2_impl; [apply (IHl c eq_refl (d + 1))|].
    intros [k x] p [Hp Hk]; simpl in *. split; [done|].
    unfold len in *; simpl; lia.
  - destruct r as [c|]; [|constructor]. rewrite opt_inorder_Some.
    apply Forall2_fmap_r. eapply Forall2_impl; [apply (IHr c eq_refl (d + 1))|].
    intros [k x] p [Hp Hk]; simpl in *. split; [done|].
    unfold len in *; simpl; lia.
Qed.

(** C6: the level flattening is the recursive in-order traversal.  A [None]
    reference yields nothing; a node yields the items of its left subtree,
    then itself with the current depth, then the items of its right subtree,
    the children being visited with the depth plus one; the root is visited
    with depth 0.  Hence the list follows the positions of the tree in order
    (left subtree, node, right subtree) and pairs each node with the length of
    the way from the root to it. *)
Theorem C6_level_flattening :
  (forall level, pending_items (inorder_wrapped None level) = [])
  /\ (forall n level,
        pending_items (inorder_wrapped (Some n) level)
        = pending_items (inorder_wrapped (get_left n) (level + 1))
          ++ [(level, n)]
          ++ pending_items (inorder_wrapped (get_right n) (level + 1)))
  /\ (forall root, _get_inorder_listinfo root = inorder_wrapped root 0)
  /\ (forall root : Node,
        Forall2 (fun e p => node_at root p = Some e.2 /\ e.1 = len p)
                (pending_items (_get_inorder_listinfo (Some root)))
                (inorder_paths root)).
Proof.
  split; [done|]. split; [intros n level; apply inorder_eq|].
  split; [done|]. intros root. apply (inorder_paths_spec root 0).
Qed.

Lemma elem_of_columns root i e :
  (i, e) ∈ columns root
  <-> exists m : nat, inorder root 0 !! m = Some e /\ i = Z.of_nat m.
Proof.
  unfold columns, enumerate. rewrite elem_of_enumerate_from.
  by setoid_rewrite Z.add_0_l.
Qed.

(** C4: column ordering.  The column index of a node is the one the first
    loop of [__str__] files it with, on the line of its level.  Every node of
    the tree has one; it is the node's zero-based position in the in-order
    list [_get_inorder_listinfo] returns, where the node stands with its
    level; and every node of the left subtree of a node has a strictly
    smaller column index than the node, every node of its right subtree a
    strictly larger one (in a tree where no node object occurs twice). *)
Theorem C4_column_ordering (root : Node) :
  distinct_ids root ->
  (forall x, x ∈ nodes root ->
     exists (k : nat) tl j, tree_lines root !! k = Some tl /\ (j, x) ∈ tl)
  /\ (forall (k : nat) tl i n,
        tree_lines root !! k = Some tl -> (i, n) ∈ tl ->
        0 <= i
        /\ pending_items (_get_inorder_listinfo (Some root)) !! Z.to_nat i
           = Some (Z.of_nat k, n))
  /\ (forall (kn kx : nat) tln tlx i j n x,
        tree_lines root !! kn = Some tln -> (i, n) ∈ tln ->
        tree_lines root !! kx = Some tlx -> (j, x) ∈ tlx ->
        (x ∈ opt_nodes (get_left n) -> j < i)
        /\ (x ∈ opt_nodes (get_right n) -> i < j)).
Proof.
  intros Hnd.
  assert (Hentry : forall (k : nat) tl i n,
            tree_lines root !! k = Some tl -> (i, n) ∈ tl ->
            exists m : nat,
              inorder root 0 !! m = Some (Z.of_nat k, n) /\ i = Z.of_nat m).
  { intros k tl i n [_ ->]%tree_lines_lookup Hin.
    by apply elem_of_level_line, elem_of_columns in Hin. }
  split; [|split].
  - intros x Hx. destruct (nodes_elem_inorder root 0 x Hx) as [d Hd].
    assert (Hlevel : 0 <= d < 0 + Z.of_nat (height root)).
    { apply inorder_levels. eauto. }
    apply list_elem_of_lookup in Hd as [m Hm].
    exists (Z.to_nat d), (level_line d (columns root)), (Z.of_nat m).
    split; [apply tree_lines_lookup; split; [lia|f_equal; lia]|].
    apply elem_of_level_line, elem_of_columns. eauto.
  - intros k tl i n Htl Hin.
    destruct (Hentry k tl i n Htl Hin) as (m & Hm & ->).
    split; [lia|]. rewrite Nat2Z.id. exact Hm.
  - intros kn kx tln tlx i j n x Hn Hin Hx Hjx.
    destruct (Hentry kn tln i n Hn Hin) as (mi & Hi & ->).
    destruct (Hentry kx tlx j x Hx Hjx) as (mj & Hj & ->).
    destruct (inorder_left_right root 0 mi mj _ n _ x Hnd Hi Hj) as [HL HR].
    split; intros H; [apply HL in H|apply HR in H]; lia.
Qed.

Lemma C4_column_ordering_witness :
  (exists (k : nat) tl j, tree_lines n0 !! k = Some tl /\ (j, n3) ∈ tl)
  /\ (0 <= 1
      /\ pending_items (_get_inorder_listinfo (Some n0)) !! Z.to_nat 1
         = Some (Z.of_nat 2, n3))
  /\ ((n3 ∈ opt_nodes (get_left n0) -> 1 < 2)
      /\ (n3 ∈ opt_nodes (get_right n0) -> 2 < 1)).
Proof.
  destruct (C4_column_ordering n0) as (Hall & Hpos & Hord).
  { apply (bool_decide_unpack _). vm_compute. exact I. }
  split; [|split].
  - apply Hall. apply list_elem_of_lookup. exists 2%nat. reflexivity.
  - apply (Hpos 2%nat [(1, n3); (3, n4); (5, n5)]).
    + vm_compute. reflexivity.
    + apply list_elem_of_lookup. exists 0%nat. reflexivity.
  - apply (Hord 0%nat 2%nat [(2, n0)] [(1, n3); (3, n4); (5, n5)]).
    + vm_compute. reflexivity.
    + apply list_elem_of_lookup. exists 0%nat. reflexivity.
    + vm_compute. reflexivity.
    + apply list_elem_of_lookup. exists 0%nat. reflexivity.
Defined.

(** ** Rows built by [_format_tree_line_with_offsets] *)

Lemma increasing_from_elem last tl c n :
  increasing_from last tl -> (c, n) ∈ tl -> last <= c.
Proof.
  revert last. induction tl as [|[p m] tl IH]; intros last; simpl.
  - by intros _ ?%elem_of_nil.
  - intros [Hp Hinc] [?|Hin]%elem_of_cons; [simplify_eq; lia|].
    specialize (IH _ Hinc Hin). lia.
Qed.

Lemma increasing_from_weaken last last' tl :
  last' <= last -> increasing_from last tl -> increasing_from last' tl.
Proof. destruct tl as [|[p m] tl]; simpl; [done|]. intros ? [??]. split; [lia|done]. Qed.

Lemma format_loop_line fa last line tl :
  format_loop fa last line tl = line ++ format_loop fa last [] tl.
Proof.
  revert last line. induction tl as [|[p n] tl IH]; intros last line; simpl.
  - by rewrite app_nil_r.
  - rewrite IH, (IH _ (fa _ _)). by rewrite app_assoc.
Qed.

Lemma take_drop_replicate_app {A} (x : A) m k w t :
  (k + w <= m)%nat -> take w (drop k (replicate m x ++ t)) = replicate w x.
Proof.
  intros H. rewrite drop_app_le by (rewrite length_replicate; lia).
  rewrite drop_replicate, take_app_le by (rewrite length_replicate; lia).
  rewrite take_replicate. f_equal. lia.
Qed.

Section Rows.
Variable w : Z.
Variable body : Node -> str.
Hypothesis w_nonneg : 0 <= w.

Let fa (offset : Z) (node : Node) : str :=
  str_mul offset (str_mul w (s_ " ")) ++ body node.

Lemma format_loop_length tl : forall lst,
  0 <= lst -> increasing_from lst tl ->
  (forall c n, (c, n) ∈ tl -> len (body n) = w) ->
  len (format_loop fa lst [] tl)
  = match last tl with
    | Some (p, _) => (p + 1 - lst) * w
    | None => 0
    end.
Proof.
  induction tl as [|[p n] tl IH]; intros lst Hlast Hinc Hbody; [done|].
  simpl in Hinc. destruct Hinc as [Hp Hinc].
  cbn [format_loop]. rewrite format_loop_line. unfold len in *.
  rewrite length_app, Nat2Z.inj_add.
  rewrite (IH (p + 1)); [|lia|done|intros c m Hin; apply (Hbody c m); by right].
  unfold fa. simpl. rewrite str_mul_spaces, length_app, length_replicate.
  rewrite Nat2Z.inj_add, (Hbody p n) by left.
  rewrite Nat2Z.inj_mul, !Z2Nat.id by lia.
  rewrite (last_cons (p, n) tl).
  destruct (last tl) as [[q ?]|]; lia.
Qed.

Lemma format_loop_blocks tl : forall last c,
  0 <= last -> increasing_from last tl ->
  (forall c n, (c, n) ∈ tl -> len (body n) = w) ->
  last <= c ->
  let s := format_loop fa last [] tl in
  let blk := take (Z.to_nat w) (drop (Z.to_nat (c - last) * Z.to_nat w) s) in
  (forall n, (c, n) ∈ tl -> blk = body n)
  /\ ((forall n, (c, n) ∉ tl) -> (exists p n, (p, n) ∈ tl /\ c < p) ->
      blk = replicate (Z.to_nat w) " "%char).
Proof.
  induction tl as [|[p n] tl IH]; intros lst c Hlast Hinc Hbody Hc.
  { simpl. split; [by intros ? ?%elem_of_nil|].
    by intros _ (? & ? & ?%elem_of_nil & _). }
  simpl in Hinc. destruct Hinc as [Hp Hinc]. intros s blk.
  assert (Hs : s = replicate (Z.to_nat (p - lst) * Z.to_nat w) " "%char
                   ++ body n ++ format_loop fa (p + 1) [] tl).
  { unfold s. cbn [format_loop]. rewrite format_loop_line. simpl.
    unfold fa at 1. by rewrite str_mul_spaces, <- app_assoc. }
  unfold blk. rewrite Hs. clear s blk Hs.
  assert (Hlen : length (body n) = Z.to_nat w).
  { specialize (Hbody p n). unfold len in Hbody. rewrite <- Hbody by left.
    by rewrite Nat2Z.id. }
  assert (Hrest : forall c' m, (c', m) ∈ tl -> p + 1 <= c')
    by (intros; by eapply increasing_from_elem).
  destruct (decide (c < p)) as [Hlt|Hge].
  - rewrite take_drop_replicate_app by nia. split; [|done].
    intros m [?|Hin%Hrest]%elem_of_cons; [simplify_eq|]; lia.
  - destruct (IH (p + 1) (Z.max c (p + 1))) as [IH1 IH2];
      [lia|done|by intros c' m' Hin; apply (Hbody c' m'); right|lia|].
    destruct (decide (c = p)) as [->|Hne].
    + rewrite drop_app_length' by (rewrite length_replicate; lia).
      rewrite take_app_length' by done. split.
      * intros m [?|Hin%Hrest]%elem_of_cons; [by simplify_eq|lia].
      * intros Hnot. destruct (Hnot n). left.
    + replace (Z.max c (p + 1)) with c in * by lia.
      replace (Z.to_nat (c - lst) * Z.to_nat w)%nat
        with (Z.to_nat (p - lst) * Z.to_nat w
              + (Z.to_nat w + Z.to_nat (c - (p + 1)) * Z.to_nat w))%nat by nia.
      rewrite <- drop_drop.
      rewrite drop_app_length' by (rewrite length_replicate; lia).
      rewrite <- drop_drop, drop_app_length' by done. split.
      * intros m [?|Hin]%elem_of_cons; [simplify_eq; lia|]. by apply IH1.
      * intros Hnot (q & m & [?|Hin]%elem_of_cons & Hq); [simplify_eq; lia|].
        apply IH2; [|eauto]. intros m' Hm'. apply (Hnot m'). by right.
Qed.

(** The block of every column of a row: the body of the node standing at
    that column, or blanks when no node of the line does. *)
Lemma format_row_blocks tl c :
  increasing_from 0 tl ->
  (forall c n, (c, n) ∈ tl -> len (body n) = w) ->
  0 <= c ->
  let row := _format_tree_line_with_offsets tl fa in
  (forall n, (c, n) ∈ tl -> block_at w row c = body n)
  /\ ((forall n, (c, n) ∉ tl) -> (exists p n, (p, n) ∈ tl /\ c < p) ->
      block_at w row c = replicate (Z.to_nat w) " "%char).
Proof.
  intros Hinc Hbody Hc. unfold block_at, _format_tree_line_with_offsets.
  rewrite Z2Nat.inj_mul by lia.
  pose proof (format_loop_blocks tl 0 c (Z.le_refl 0) Hinc Hbody Hc) as H.
  by rewrite Z.sub_0_r in H.
Qed.
End Rows.

(** ** The lines of a tree *)

Lemma level_line_increasing k (l : list (Z * Node)) : forall s,
  increasing_from s (level_line k (enumerate_from s l)).
Proof.
  induction l as [|[d n] l IH]; intros s; [done|].
  unfold level_line. simpl. rewrite filter_cons. simpl.
  case_decide; simpl.
  - split; [lia|apply IH].
  - eapply increasing_from_weaken; [|apply (IH (s + 1))]. lia.
Qed.

Lemma elem_of_tree_line root (k : nat) tl c n :
  tree_lines root !! k = Some tl ->
  (c, n) ∈ tl <-> (c, (Z.of_nat k, n)) ∈ columns root.
Proof. intros [_ ->]%tree_lines_lookup. apply elem_of_level_line. Qed.

Lemma tree_line_increasing root (k : nat) tl :
  tree_lines root !! k = Some tl -> increasing_from 0 tl.
Proof. intros [_ ->]%tree_lines_lookup. apply level_line_increasing. Qed.

Lemma tree_line_nodes root (k : nat) tl c n :
  tree_lines root !! k = Some tl -> (c, n) ∈ tl -> n ∈ nodes root /\ 0 <= c.
Proof.
  intros Htl Hin. apply (elem_of_tree_line _ _ _ _ _ Htl) in Hin.
  apply elem_of_columns in Hin as (m & Hm & ->). split; [|lia].
  eapply inorder_elem_nodes, list_elem_of_lookup_2, Hm.
Qed.

Lemma tree_line_nonempty root (k : nat) tl :
  tree_lines root !! k = Some tl -> tl <> [].
Proof.
  intros Htl. pose proof Htl as [Hk ->]%tree_lines_lookup.
  destruct (proj2 (inorder_levels root 0 (Z.of_nat k))) as [x Hx]; [lia|].
  apply list_elem_of_lookup in Hx as [m Hm].
  assert (Hin : (Z.of_nat m, x) ∈ level_line (Z.of_nat k) (columns root)).
  { apply elem_of_level_line, elem_of_columns. eauto. }
  intros E. rewrite E in Hin. by apply elem_of_nil in Hin.
Qed.

Lemma max_value_len_ge root n :
  n ∈ nodes root ->
  len (get_value n) <= _max_value_len (__init__ (Some root))
  /\ 2 <= _max_value_len (__init__ (Some root)).
Proof.
  intros Hn%value_len_le_longest. rewrite max_value_len_init. lia.
Qed.

Lemma str_init root :
  fst (__str__ (__init__ (Some root)))
  = render_tree_lines (__init__ (Some root)) (tree_lines root).
Proof.
  unfold __str__, __init__, _get_inorder_listinfo, inorder_wrapped.
  cbn [_inorder_listinfo]. rewrite inorder_wrapped_node_chain. done.
Qed.

(** C7: skeleton-row placement.  For every tree and every depth level [k],
    the skeleton line of the level has, at the character offset
    [column index * W] of every node of that level, the node's value centered
    in a block of exactly [W] characters, and an all-blank block of [W]
    characters at every other column up to the last node of the level. *)
Theorem C7_skeleton_rows (root : Node) (k : nat) (tl : tree_line) (c : Z) :
  let self := __init__ (Some root) in
  let W := _max_value_len self in
  tree_lines root !! k = Some tl ->
  exists row,
    _build_tree_scheleton self (tree_lines root) !! k = Some row
    /\ (forall n, (c, n) ∈ tl <-> (c, (Z.of_nat k, n)) ∈ columns root)
    /\ (forall n, (c, n) ∈ tl ->
          block_at W row c = center (get_value n) W
          /\ len (block_at W row c) = W)
    /\ (0 <= c -> (forall n, (c, n) ∉ tl) ->
        (exists p n, (p, n) ∈ tl /\ c < p) ->
        block_at W row c = replicate (Z.to_nat W) " "%char).
Proof.
  intros self W Htl. unfold _build_tree_scheleton.
  rewrite map_fmap, list_lookup_fmap, Htl. simpl. eexists. split; [done|].
  split; [intros n; by apply elem_of_tree_line|].
  assert (HW : 0 <= W).
  { unfold W, self. rewrite max_value_len_init. lia. }
  assert (Hbody : forall c n, (c, n) ∈ tl ->
            len (_get_centered_node_value self n) = W).
  { intros c' n Hin. apply center_length.
    destruct (tree_line_nodes _ _ _ _ _ Htl Hin) as [Hn _].
    by apply max_value_len_ge. }
  split.
  - intros n Hin. destruct (tree_line_nodes _ _ _ _ _ Htl Hin) as [_ Hc].
    pose proof (format_row_blocks W (_get_centered_node_value self) HW tl c
                  (tree_line_increasing _ _ _ Htl) Hbody Hc) as [H _].
    specialize (H n Hin). split; [exact H|].
    etransitivity; [|apply (Hbody c n Hin)]. f_equal. exact H.
  - intros Hc Hnot Hex.
    pose proof (format_row_blocks W (_get_centered_node_value self) HW tl c
                  (tree_line_increasing _ _ _ Htl) Hbody Hc) as [_ H].
    exact (H Hnot Hex).
Qed.

Lemma C7_skeleton_rows_witness :
  exists row,
    _build_tree_scheleton (__init__ (Some n0)) (tree_lines n0) !! 1%nat = Some row
    /\ (forall n, (4, n) ∈ [(0, n1); (4, n2)]
                  <-> (4, (Z.of_nat 1, n)) ∈ columns n0)
    /\ (forall n, (4, n) ∈ [(0, n1); (4, n2)] ->
          block_at (_max_value_len (__init__ (Some n0))) row 4
          = center (get_value n) (_max_value_len (__init__ (Some n0)))
          /\ len (block_at (_max_value_len (__init__ (Some n0))) row 4)
             = _max_value_len (__init__ (Some n0)))
    /\ (0 <= 4 -> (forall n, (4, n) ∉ [(0, n1); (4, n2)]) ->
        (exists p n, (p, n) ∈ [(0, n1); (4, n2)] /\ 4 < p) ->
        block_at (_max_value_len (__init__ (Some n0))) row 4
        = replicate (Z.to_nat (_max_value_len (__init__ (Some n0)))) " "%char).
Proof.
  apply (C7_skeleton_rows n0 1 [(0, n1); (4, n2)] 4). vm_compute. reflexivity.
Defined.

Lemma block_at_lookup w row c (i : nat) :
  0 <= c -> 0 <= w -> Z.of_nat i < w ->
  block_at w row c !! i = row !! Z.to_nat (c * w + Z.of_nat i).
Proof.
  intros Hc Hw Hi. unfold block_at.
  rewrite lookup_take_lt by lia. rewrite lookup_drop. f_equal. lia.
Qed.

(** C5: stub-row characters.  For every tree and every node of a depth level,
    the stub row under that level has, in the node's block of [W] characters,
    a slash at the left edge if the node has a left child and a blank if not,
    a backslash at the right edge if it has a right child and a blank if not,
    and blanks in between; so the slash is there exactly when there is a left
    child and the backslash exactly when there is a right child. *)
Theorem C5_stub_rows (root : Node) (k : nat) (tl : tree_line) (c : Z) (n : Node) :
  let self := __init__ (Some root) in
  let W := _max_value_len self in
  let row := _get_first_line_below_tree_line self tl in
  tree_lines root !! k = Some tl ->
  (c, n) ∈ tl ->
  block_at W row c
  = (if is_not_None (get_left n) then s_ "/" else s_ " ")
    ++ replicate (Z.to_nat (W - 2)) " "%char
    ++ (if is_not_None (get_right n) then s_ "\" else s_ " ")
  /\ (row !! Z.to_nat (c * W) = Some "/"%char <-> get_left n <> None)
  /\ (row !! Z.to_nat (c * W + W - 1) = Some "\"%char <-> get_right n <> None)
  /\ (forall j, c * W < j < c * W + W - 1 -> row !! Z.to_nat j = Some " "%char).
Proof.
  intros self W row Htl Hin.
  pose (body := fun node =>
    (if is_not_None (get_left node) then s_ "/" else s_ " ")
    ++ str_mul (W - 2) (s_ " ")
    ++ (if is_not_None (get_right node) then s_ "\" else s_ " ")).
  destruct (tree_line_nodes _ _ _ _ _ Htl Hin) as [Hn Hc].
  assert (HW : 2 <= W) by (by apply (max_value_len_ge root n)).
  assert (Hbody : forall c n, (c, n) ∈ tl -> len (body n) = W).
  { intros c' n' _. unfold body, len. change (s_ " ") with [" "%char].
    rewrite str_mul_char, !length_app, length_replicate.
    destruct (is_not_None _), (is_not_None _); simpl; lia. }
  pose proof (format_row_blocks W body ltac:(lia) tl c
                (tree_line_increasing _ _ _ Htl) Hbody Hc) as [H _].
  specialize (H n Hin). change (_format_tree_line_with_offsets tl _) with row in H.
  assert (Hblk : block_at W row c
    = (if is_not_None (get_left n) then s_ "/" else s_ " ")
      ++ replicate (Z.to_nat (W - 2)) " "%char
      ++ (if is_not_None (get_right n) then s_ "\" else s_ " ")).
  { rewrite H. unfold body. change (s_ " ") with [" "%char].
    by rewrite str_mul_char. }
  split; [exact Hblk|].
  assert (Hat : forall i : nat, Z.of_nat i < W ->
            row !! Z.to_nat (c * W + Z.of_nat i) = block_at W row c !! i).
  { intros i Hi. symmetry. apply block_at_lookup; lia. }
  split; [|split].
  - replace (c * W) with (c * W + Z.of_nat 0) by lia.
    rewrite Hat, Hblk by lia.
    destruct (get_left n); simpl; split; congruence.
  - replace (c * W + W - 1) with (c * W + Z.of_nat (Z.to_nat (W - 1))) by lia.
    rewrite Hat, Hblk by lia.
    rewrite lookup_app_r; [|destruct (is_not_None _); simpl; lia].
    rewrite lookup_app_r;
      [|rewrite length_replicate; destruct (is_not_None _); simpl; lia].
    rewrite length_replicate.
    replace (_ - _ - _)%nat with 0%nat
      by (destruct (is_not_None (get_left n)); simpl; lia).
    destruct (get_right n); simpl; split; congruence.
  - intros j Hj.
    replace j with (c * W + Z.of_nat (Z.to_nat (j - c * W))) by lia.
    rewrite Hat, Hblk by lia.
    rewrite lookup_app_r; [|destruct (is_not_None _); simpl; lia].
    rewrite lookup_app_l;
      [|rewrite length_replicate; destruct (is_not_None _); simpl; lia].
    apply lookup_replicate_2. destruct (is_not_None _); simpl; lia.
Qed.

Lemma C5_stub_rows_witness :
  let self := __init__ (Some n0) in
  let W := _max_value_len self in
  let row := _get_first_line_below_tree_line self [(0, n1); (4, n2)] in
  block_at W row 0
  = (if is_not_None (get_left n1) then s_ "/" else s_ " ")
    ++ replicate (Z.to_nat (W - 2)) " "%char
    ++ (if is_not_None (get_right n1) then s_ "\" else s_ " ")
  /\ (row !! Z.to_nat (0 * W) = Some "/"%char <-> get_left n1 <> None)
  /\ (row !! Z.to_nat (0 * W + W - 1) = Some "\"%char <-> get_right n1 <> None)
  /\ (forall j, 0 * W < j < 0 * W + W - 1 -> row !! Z.to_nat j = Some " "%char).
Proof.
  apply (C5_stub_rows n0 1 [(0, n1); (4, n2)] 0 n1).
  - vm_compute. reflexivity.
  - apply list_elem_of_lookup. exists 0%nat. reflexivity.
Defined.

(** ** A single node *)

Lemma single_node_tree_lines i v :
  tree_lines (mkNode i v None None) = [[(0, mkNode i v None None)]].
Proof.
  rewrite tree_lines_levels. simpl height. change (Z.of_nat 1) with 1.
  rewrite seqZ_cons, seqZ_nil by lia. simpl. f_equal.
Qed.

Lemma render_single_line self i v :
  render_tree_lines self [[(0, mkNode i v None None)]]
  = Ok (rstrip (center v (_max_value_len self))).
Proof.
  unfold render_tree_lines. simpl.
  unfold _format_tree_line_with_offsets, _get_first_line_below_tree_line,
    _format_tree_line_with_offsets, _left_pad_node_using_offset,
    _get_centered_node_value. simpl. f_equal.
  rewrite <- !app_assoc. change (s_ " ") with [" "%char].
  rewrite str_mul_char. apply rstrip_app_spaces. unfold NL.
  apply Forall_forall. intros c Hc.
  repeat match type of Hc with
         | _ ∈ _ ++ _ => apply elem_of_app in Hc as [Hc|Hc]
         | _ ∈ _ :: _ => apply elem_of_cons in Hc as [->|Hc]
         | _ ∈ replicate _ _ => apply elem_of_replicate_inv in Hc as ->
         | _ ∈ [] => by apply elem_of_nil in Hc
         end; done.
Qed.

Lemma str_single_node i v :
  fst (__str__ (__init__ (Some (mkNode i v None None))))
  = Ok (rstrip (center v (Z.max 2 (len v)))).
Proof.
  rewrite str_init, single_node_tree_lines, render_single_line.
  rewrite max_value_len_init. unfold longest_value_len. simpl.
  do 3 f_equal. unfold get_value, len; simpl. lia.
Qed.

Lemma center_chars s w ch : ch ∈ center s w -> ch ∈ s \/ ch = " "%char.
Proof.
  unfold center. destruct (w <=? len s); [auto|].
  change (s_ " ") with [" "%char]. rewrite !str_mul_char.
  rewrite !elem_of_app.
  intros [?%elem_of_replicate_inv|[?|?%elem_of_replicate_inv]]; auto.
Qed.

(** C3, as the specification states it, fails: the single node [5] renders
    as the one character [5], its cell's trailing blank being stripped, not
    as [5] padded to width 2; and a single node whose value holds a newline
    renders as more than one line. *)
Lemma C3_single_node_not_padded :
  fst (__str__ (__init__ (Some single5))) = Ok (s_ "5")
  /\ center (s_ "5") 2 = s_ "5 "
  /\ fst (__str__ (__init__ (Some single5))) <> Ok (center (s_ "5") 2)
  /\ (exists out, fst (__str__ (__init__ (Some two_lines))) = Ok out
                  /\ newline ∈ out).
Proof.
  split; [by vm_compute|]. split; [by vm_compute|].
  split; [by vm_compute|]. eexists. split; [by vm_compute|].
  apply list_elem_of_lookup. by exists 1%nat.
Qed.

(** C3, amended: for every single-node tree the rendered string is the
    node's value centered in its cell of [W = max(2, length)] characters with
    the trailing whitespace stripped; it has no connector rows, and it holds
    no newline when the value holds none.  (For the single node [5] this is
    the one-character string [5].) *)
Theorem C3_single_node (i : nat) (v : str) :
  newline ∉ v ->
  exists out,
    fst (__str__ (__init__ (Some (mkNode i v None None)))) = Ok out
    /\ out = rstrip (center v (Z.max 2 (len v)))
    /\ newline ∉ out.
Proof.
  intros Hv. eexists. split; [apply str_single_node|]. split; [done|].
  intros Hin. eapply elem_of_sublist in Hin; [|apply rstrip_subseq].
  apply center_chars in Hin as [?|?]; [done|discriminate].
Qed.

Lemma C3_single_node_witness :
  exists out,
    fst (__str__ (__init__ (Some (mkNode 0 (s_ "5") None None)))) = Ok out
    /\ out = rstrip (center (s_ "5") (Z.max 2 (len (s_ "5"))))
    /\ newline ∉ out.
Proof.
  apply (C3_single_node 0 (s_ "5")).
  intros Hin. apply elem_of_cons in Hin as [Hin|Hin]; [discriminate|].
  by apply elem_of_nil in Hin.
Defined.

(** ** Slice assignment and [fill_line_blocks] *)

Lemma slice_assign_lookup {A} (l new : list A) (a b : Z) (j : nat) :
  0 <= a <= len l -> a <= b -> len new = b - a ->
  slice_assign l a b new !! j
  = if decide (a <= Z.of_nat j < b) then new !! (j - Z.to_nat a)%nat else l !! j.
Proof.
  unfold slice_assign, slice_index, len. intros Ha Hab Hnew.
  destruct (Z.ltb_spec a 0) as [?|_]; [lia|].
  destruct (Z.ltb_spec b 0) as [?|_]; [lia|].
  rewrite (Z.min_l a) by lia.
  case_decide as Hj.
  - rewrite lookup_app_r by (rewrite length_take; lia).
    rewrite length_take, Nat.min_l by lia.
    by rewrite lookup_app_l by lia.
  - destruct (decide (Z.of_nat j < a)) as [Hlt|Hge].
    + rewrite lookup_app_l by (rewrite length_take; lia).
      by rewrite lookup_take_lt by lia.
    + rewrite lookup_app_r by (rewrite length_take; lia).
      rewrite length_take, Nat.min_l by lia.
      rewrite lookup_app_r by lia. rewrite lookup_drop.
      destruct (decide (b <= Z.of_nat (length l))) as [Hb|Hb].
      * f_equal. lia.
      * rewrite !lookup_ge_None_2; [done|lia..].
Qed.

Lemma slice_assign_length {A} (l new : list A) (a b : Z) :
  0 <= a <= len l -> a <= b -> len new = b - a ->
  (length l <= length (slice_assign l a b new))%nat.
Proof.
  unfold slice_assign, slice_index, len. intros Ha Hab Hnew.
  destruct (Z.ltb_spec a 0) as [?|_]; [lia|].
  destruct (Z.ltb_spec b 0) as [?|_]; [lia|].
  rewrite !length_app, length_take, length_drop. lia.
Qed.

Lemma list_mul_singleton {A} (x : A) n : list_mul [x] n = replicate (Z.to_nat n) x.
Proof.
  unfold list_mul. induction (Z.to_nat n) as [|m IH]; simpl; [done|].
  by rewrite IH.
Qed.

Lemma dashes n : str_mul n (s_ "-") = replicate (Z.to_nat n) "-"%char.
Proof. apply (str_mul_char n "-"%char). Qed.

Lemma spaces n : str_mul n (s_ " ") = replicate (Z.to_nat n) " "%char.
Proof. apply (str_mul_char n " "%char). Qed.

Lemma fill_left_lookup self blocks (cl p : Z) (j : nat) :
  0 <= cl < p -> p <= len blocks ->
  fill_line_blocks self blocks cl p true !! j
  = if decide (Z.of_nat j = cl) then Some (left_child_block (_max_value_len self))
    else if decide (cl < Z.of_nat j < p) then Some (full_block (_max_value_len self))
    else blocks !! j.
Proof.
  intros Hcl Hp. unfold fill_line_blocks.
  rewrite !dashes, !spaces, list_mul_singleton.
  rewrite slice_assign_lookup; [|unfold len in *; lia..|]; cycle 1.
  { unfold len. rewrite length_app, length_replicate. simpl. lia. }
  case_decide as H1; repeat case_decide; try lia.
  - replace (j - Z.to_nat cl)%nat with 0%nat by lia. done.
  - destruct (j - Z.to_nat cl)%nat as [|m] eqn:E; [lia|]. simpl.
    apply lookup_replicate_2. lia.
  - done.
Qed.

Lemma fill_right_lookup self blocks (p cr : Z) (j : nat) :
  0 <= p < cr -> p + 1 <= len blocks ->
  fill_line_blocks self blocks p cr false !! j
  = if decide (Z.of_nat j = cr) then Some (right_child_block (_max_value_len self))
    else if decide (p < Z.of_nat j < cr) then Some (full_block (_max_value_len self))
    else blocks !! j.
Proof.
  intros Hcr Hp. unfold fill_line_blocks.
  rewrite !dashes, !spaces, list_mul_singleton.
  rewrite slice_assign_lookup; [|unfold len in *; lia..|]; cycle 1.
  { unfold len. rewrite length_app, length_replicate. simpl. lia. }
  case_decide as H1; repeat case_decide; try lia.
  - rewrite lookup_app_r by (rewrite length_replicate; lia).
    rewrite length_replicate.
    replace (_ - _ - _)%nat with 0%nat by lia. done.
  - rewrite lookup_app_l by (rewrite length_replicate; lia).
    apply lookup_replicate_2. lia.
  - done.
Qed.

Lemma fill_length self blocks (a b : Z) (is_left : bool) :
  (if is_left then 0 <= a < b /\ b <= len blocks
   else 0 <= a < b /\ a + 1 <= len blocks) ->
  (length blocks <= length (fill_line_blocks self blocks a b is_left))%nat.
Proof.
  unfold fill_line_blocks. rewrite list_mul_singleton.
  destruct is_left; intros [Hab Hlen]; apply slice_assign_length;
    unfold len in *; rewrite ?length_app, ?length_replicate; simpl; lia.
Qed.

(** ** The loop of [_get_second_line_below_tree_line] *)

Section Bridge.
Variable self : TreePrinter.
Variable below : tree_line.

Let W := _max_value_len self.

Hypothesis below_unique :
  forall c cc cc', (cc, c) ∈ below -> (cc', c) ∈ below -> cc = cc'.

Lemma bridge_step_spec blocks e :
  step_ready below (length blocks) e ->
  exists blocks',
    bridge_step self below blocks e = Ok blocks'
    /\ (length blocks <= length blocks')%nat
    /\ entry_done W below blocks' e
    /\ (forall j : nat, ~ in_span below e (Z.of_nat j) -> blocks' !! j = blocks !! j).
Proof.
  destruct e as [p n]. unfold step_ready, entry_done, in_span, bridge_step.
  cbn [fst snd]. intros [Hl Hr].
  destruct (get_left n) as [cl_node|] eqn:El;
    [destruct (Hl _ eq_refl) as (cl & -> & Hcl & Hclp & Hlen)|clear Hl];
  (destruct (get_right n) as [cr_node|] eqn:Er;
    [destruct (Hr _ eq_refl) as (cr & -> & Hcr & Hpcr & Hlen')|clear Hr]);
  cbn -[fill_line_blocks].
  - pose proof (fill_length self blocks cl p true ltac:(cbv beta iota; unfold len; lia)) as Hlen1.
    pose proof (fill_length self (fill_line_blocks self blocks cl p true) p cr false
                  ltac:(cbv beta iota; unfold len; lia)) as Hlen2.
    eexists. split; [done|]. split; [lia|]. split; [split|].
    + intros c cl' [= <-] Hin. rewrite (below_unique _ _ _ Hin Hcl). split.
      * rewrite fill_right_lookup, fill_left_lookup by (unfold len; lia).
        repeat case_decide; try lia; done.
      * intros j Hj.
        rewrite fill_right_lookup, fill_left_lookup by (unfold len; lia).
        repeat case_decide; try lia; done.
    + intros c cr' [= <-] Hin. rewrite (below_unique _ _ _ Hin Hcr). split.
      * rewrite fill_right_lookup by (unfold len; lia).
        repeat case_decide; try lia; done.
      * intros j Hj. rewrite fill_right_lookup by (unfold len; lia).
        repeat case_decide; try lia; done.
    + intros j Hj.
      rewrite fill_right_lookup, fill_left_lookup by (unfold len; lia).
      repeat case_decide; try done; exfalso; apply Hj.
      * exists cr_node, cr. split; [done|]. right. split; [done|lia].
      * exists cr_node, cr. split; [done|]. right. split; [done|lia].
      * exists cl_node, cl. split; [done|]. left. split; [done|lia].
      * exists cl_node, cl. split; [done|]. left. split; [done|lia].
  - pose proof (fill_length self blocks cl p true ltac:(cbv beta iota; unfold len; lia)) as Hlen1.
    eexists. split; [done|]. split; [lia|]. split; [split|].
    + intros c cl' [= <-] Hin. rewrite (below_unique _ _ _ Hin Hcl). split.
      * rewrite fill_left_lookup by (unfold len; lia).
        repeat case_decide; try lia; done.
      * intros j Hj. rewrite fill_left_lookup by (unfold len; lia).
        repeat case_decide; try lia; done.
    + intros c cr' [=].
    + intros j Hj. rewrite fill_left_lookup by (unfold len; lia).
      repeat case_decide; try done; exfalso; apply Hj.
      * exists cl_node, cl. split; [done|]. left. split; [done|lia].
      * exists cl_node, cl. split; [done|]. left. split; [done|lia].
  - pose proof (fill_length self blocks p cr false ltac:(cbv beta iota; unfold len; lia)) as Hlen1.
    eexists. split; [done|]. split; [lia|]. split; [split|].
    + intros c cl' [=].
    + intros c cr' [= <-] Hin. rewrite (below_unique _ _ _ Hin Hcr). split.
      * rewrite fill_right_lookup by (unfold len; lia).
        repeat case_decide; try lia; done.
      * intros j Hj. rewrite fill_right_lookup by (unfold len; lia).
        repeat case_decide; try lia; done.
    + intros j Hj. rewrite fill_right_lookup by (unfold len; lia).
      repeat case_decide; try done; exfalso; apply Hj.
      * exists cr_node, cr. split; [done|]. right. split; [done|lia].
      * exists cr_node, cr. split; [done|]. right. split; [done|lia].
  - exists blocks. repeat split; try done; intros ?? [=].
Qed.

Lemma step_ready_mono n m e : (n <= m)%nat -> step_ready below n e -> step_ready below m e.
Proof.
  intros Hnm [Hl Hr]. split; intros c Hc.
  - destruct (Hl c Hc) as (cl & ? & ? & ? & ?). exists cl. repeat split; auto; lia.
  - destruct (Hr c Hc) as (cr & ? & ? & ? & ?). exists cr. repeat split; auto; lia.
Qed.

Lemma entry_done_frame blocks blocks' e :
  step_ready below (length blocks) e ->
  (forall j : nat, in_span below e (Z.of_nat j) -> blocks' !! j = blocks !! j) ->
  entry_done W below blocks e -> entry_done W below blocks' e.
Proof.
  intros [Hl Hr] Hsame [Dl Dr]. split.
  - intros c cl Hc Hin. destruct (Hl c Hc) as (cl' & _ & Hin' & Hcl & _).
    assert (cl' = cl) as -> by eauto.
    destruct (Dl c cl Hc Hin) as [D1 D2]. split.
    + rewrite Hsame; [done|]. exists c, cl. split; [done|]. left. split; [done|lia].
    + intros j Hj. rewrite Hsame; [by apply D2|].
      exists c, cl. split; [done|]. left. split; [done|lia].
  - intros c cr Hc Hin. destruct (Hr c Hc) as (cr' & _ & Hin' & Hcr & _).
    assert (cr' = cr) as -> by eauto.
    destruct (Dr c cr Hc Hin) as [D1 D2]. split.
    + rewrite Hsame; [done|]. exists c, cr. split; [done|]. right. split; [done|lia].
    + intros j Hj. rewrite Hsame; [by apply D2|].
      exists c, cr. split; [done|]. right. split; [done|lia].
Qed.

Lemma bridge_loop_spec above : forall blocks,
  (forall e, e ∈ above -> step_ready below (length blocks) e) ->
  (forall e1 e2 j, e1 ∈ above -> e2 ∈ above -> e1.1 < e2.1 ->
                   in_span below e1 j -> in_span below e2 j -> False) ->
  (exists s, increasing_from s above) ->
  exists final,
    bridge_loop self below blocks above = Ok final
    /\ (length blocks <= length final)%nat
    /\ (forall e, e ∈ above -> entry_done W below final e)
    /\ (forall j : nat, (forall e, e ∈ above -> ~ in_span below e (Z.of_nat j)) ->
          final !! j = blocks !! j).
Proof.
  induction above as [|e above IH]; intros blocks Hready Hapart Hinc.
  { exists blocks. split; [done|]. split; [lia|].
    split; [by intros ? ?%elem_of_nil|done]. }
  destruct (bridge_step_spec blocks e) as (blocks1 & Hstep & Hlen1 & Hdone & Hframe).
  { apply Hready. left. }
  assert (Hlater : forall e', e' ∈ above -> e.1 < e'.1).
  { destruct Hinc as [s Hinc]. destruct e as [p n]. simpl in Hinc.
    destruct Hinc as [_ Hinc]. intros [p' n'] Hin.
    pose proof (increasing_from_elem _ _ _ _ Hinc Hin). simpl. lia. }
  destruct (IH blocks1) as (final & Hloop & Hlen & Hdones & Hframes).
  { intros e' He'. eapply step_ready_mono; [exact Hlen1|].
    apply Hready. by right. }
  { intros e1 e2 j H1 H2. apply Hapart; by right. }
  { destruct Hinc as [s Hinc]. destruct e as [p n]. simpl in Hinc.
    destruct Hinc as [_ Hinc]. eauto. }
  exists final. split; [simpl; by rewrite Hstep|]. split; [lia|]. split.
  - intros e' [->|He']%elem_of_cons; [|by apply Hdones].
    eapply (entry_done_frame blocks1); [|..|exact Hdone].
    + eapply step_ready_mono; [exact Hlen1|]. apply Hready. left.
    + intros j Hj. apply Hframes. intros e' He' Hj'.
      eapply (Hapart e e' (Z.of_nat j)); eauto; [left|by right].
  - intros j Hj. rewrite Hframes; [apply Hframe|].
    + apply Hj. left.
    + intros e' He'. apply Hj. by right.
Qed.
End Bridge.

Lemma Ok_inj {A} (a b : A) : Ok a = Ok b -> a = b.
Proof. congruence. Qed.

Lemma slice_assign_Forall {A} (P : A -> Prop) (l new : list A) a b :
  Forall P l -> Forall P new -> Forall P (slice_assign l a b new).
Proof.
  intros Hl Hnew. unfold slice_assign.
  repeat apply Forall_app_2; auto using Forall_take, Forall_drop.
Qed.

Lemma fill_widths self blocks a b is_left :
  0 <= _max_value_len self ->
  Forall (fun blk => len blk = _max_value_len self) blocks ->
  Forall (fun blk => len blk = _max_value_len self)
         (fill_line_blocks self blocks a b is_left).
Proof.
  intros HW Hblocks. unfold fill_line_blocks.
  rewrite !dashes, !spaces, list_mul_singleton.
  assert (0 <= _max_value_len self / 2 <= _max_value_len self).
  { split; [apply Z.div_pos; lia|]. apply Z.div_le_upper_bound; lia. }
  destruct is_left; apply slice_assign_Forall; try done.
  - constructor.
    + unfold len. rewrite length_app, !length_replicate. lia.
    + apply Forall_replicate. unfold len. rewrite length_replicate. lia.
  - apply Forall_app_2.
    + apply Forall_replicate. unfold len. rewrite length_replicate. lia.
    + constructor; [|done]. unfold len.
      rewrite length_app, !length_replicate. lia.
Qed.

Lemma bridge_step_widths self below blocks e blocks' :
  0 <= _max_value_len self ->
  bridge_step self below blocks e = Ok blocks' ->
  Forall (fun blk => len blk = _max_value_len self) blocks ->
  Forall (fun blk => len blk = _max_value_len self) blocks'.
Proof.
  intros HW. destruct e as [p n]. unfold bridge_step.
  destruct (get_left n) as [cl_node|], (get_right n) as [cr_node|];
    try destruct (child_index cl_node below) as [cl|];
    try destruct (child_index cr_node below) as [cr|];
    cbn -[fill_line_blocks]; intros Heq Hblocks; try discriminate;
    apply Ok_inj in Heq as <-; repeat apply fill_widths; done.
Qed.

Lemma bridge_loop_widths self below above : forall blocks final,
  0 <= _max_value_len self ->
  bridge_loop self below blocks above = Ok final ->
  Forall (fun blk => len blk = _max_value_len self) blocks ->
  Forall (fun blk => len blk = _max_value_len self) final.
Proof.
  induction above as [|e above IH]; intros blocks final HW; simpl.
  { by intros [= ->]. }
  destruct (bridge_step self below blocks e) as [blocks'|] eqn:E; [|done].
  cbn. intros Hloop Hblocks. apply (IH blocks' final HW Hloop).
  by eapply bridge_step_widths.
Qed.

Lemma concat_block_at w (blocks : list str) (j : nat) blk :
  0 <= w ->
  Forall (fun b => len b = w) blocks ->
  blocks !! j = Some blk ->
  block_at w (concat blocks) (Z.of_nat j) = blk.
Proof.
  intros Hw Hall. unfold block_at. revert j.
  induction Hall as [|b blocks Hb Hall IH]; intros j; [done|].
  unfold len in Hb. destruct j as [|j]; simpl concat.
  - intros [= ->]. change (Z.to_nat (Z.of_nat 0 * w)) with 0%nat.
    rewrite drop_0. rewrite take_app_length'; [done|lia].
  - intros Hj. cbn [lookup list_lookup] in Hj.
    replace (Z.to_nat (Z.of_nat (S j) * w))
      with (length b + Z.to_nat (Z.of_nat j * w))%nat by lia.
    rewrite <- drop_drop, drop_app_length. by apply IH.
Qed.

Lemma increasing_from_last s tl q m p n :
  increasing_from s tl -> last tl = Some (q, m) -> (p, n) ∈ tl -> p <= q.
Proof.
  revert s. induction tl as [|[p' n'] tl IH]; intros s; [done|].
  simpl. intros [Hs Hinc] Hlast [?|Hin]%elem_of_cons.
  - simplify_eq. rewrite last_cons in Hlast.
    destruct (last tl) as [[q' m']|] eqn:E; simplify_eq; [|lia].
    apply last_Some_elem_of in E.
    pose proof (increasing_from_elem _ _ _ _ Hinc E). lia.
  - rewrite last_cons in Hlast. destruct (last tl) as [[q' m']|] eqn:E.
    + simplify_eq. by eapply IH.
    + apply last_None in E. subst. by apply elem_of_nil in Hin.
Qed.

(** ** Parents and children on adjacent lines *)

Section Adjacent.
Variable root : Node.
Variable k : nat.
Variables above below : tree_line.
Hypothesis distinct : distinct_ids root.
Hypothesis Habove : tree_lines root !! k = Some above.
Hypothesis Hbelow : tree_lines root !! S k = Some below.

Lemma above_elem p n :
  (p, n) ∈ above
  <-> exists m : nat, inorder root 0 !! m = Some (Z.of_nat k, n) /\ p = Z.of_nat m.
Proof. rewrite (elem_of_tree_line _ _ _ _ _ Habove). apply elem_of_columns. Qed.

Lemma below_elem p n :
  (p, n) ∈ below
  <-> exists m : nat, inorder root 0 !! m = Some (Z.of_nat k + 1, n) /\ p = Z.of_nat m.
Proof.
  rewrite (elem_of_tree_line _ _ _ _ _ Hbelow).
  replace (Z.of_nat (S k)) with (Z.of_nat k + 1) by lia. apply elem_of_columns.
Qed.

Lemma below_unique c cc cc' : (cc, c) ∈ below -> (cc', c) ∈ below -> cc = cc'.
Proof.
  intros (m & Hm & ->)%below_elem (m' & Hm' & ->)%below_elem. f_equal.
  eapply inorder_lookup_inj; eauto.
Qed.

Lemma child_index_found c cc :
  (cc, c) ∈ below -> child_index c below = Ok cc.
Proof.
  intros Hin. unfold child_index.
  assert (Hall : forall x, x ∈ filter (fun x => Is_true (Node_eq x.2 c)) below ->
                           x = (cc, c)).
  { intros [q m] [Heq Hx]%list_elem_of_filter. simpl in Heq.
    apply Is_true_eq_true, Nat.eqb_eq in Heq.
    assert (m = c) as ->.
    { apply (distinct_ids_inj root); [done|..|done].
      - apply below_elem in Hx as (i & Hi & _).
        eapply inorder_elem_nodes, list_elem_of_lookup_2, Hi.
      - apply below_elem in Hin as (i & Hi & _).
        eapply inorder_elem_nodes, list_elem_of_lookup_2, Hi. }
    f_equal. by eapply below_unique. }
  assert (Hne : (cc, c) ∈ filter (fun x => Is_true (Node_eq x.2 c)) below).
  { apply list_elem_of_filter. split; [|done]. simpl.
    apply Is_true_eq_left, Nat.eqb_refl. }
  destruct (filter _ below) as [|x l]; [by apply elem_of_nil in Hne|].
  rewrite (Hall x) by left. done.
Qed.

Lemma child_below p n c :
  (p, n) ∈ above -> get_left n = Some c \/ get_right n = Some c ->
  exists cc, (cc, c) ∈ below /\ 0 <= cc
    /\ (get_left n = Some c -> cc < p) /\ (get_right n = Some c -> p < cc).
Proof.
  intros (m & Hm & ->)%above_elem Hc.
  pose proof (inorder_child root 0 _ n c (list_elem_of_lookup_2 _ _ _ Hm) Hc)
    as [m' Hm']%list_elem_of_lookup.
  exists (Z.of_nat m'). split; [apply below_elem; eauto|]. split; [lia|].
  destruct (inorder_left_right root 0 m m' _ n _ c distinct Hm Hm') as [HL HR].
  split; intros Hc'; rewrite Hc' in *; simpl in *.
  - assert (m' < m)%nat; [apply HL, nodes_self|lia].
  - assert (m < m')%nat; [apply HR, nodes_self|lia].
Qed.

Lemma spans_apart e1 e2 j :
  e1 ∈ above -> e2 ∈ above -> e1.1 < e2.1 ->
  in_span below e1 j -> in_span below e2 j -> False.
Proof.
  destruct e1 as [p1 n1], e2 as [p2 n2]. simpl.
  intros (m1 & Hm1 & ->)%above_elem (m2 & Hm2 & ->)%above_elem Hlt.
  intros (c1 & cc1 & (i1 & Hi1 & ->)%below_elem & H1)
         (c2 & cc2 & (i2 & Hi2 & ->)%below_elem & H2). simpl in *.
  assert (Hap : forall x y jx jy lx ly, x ∈ nodes n1 -> y ∈ nodes n2 ->
            inorder root 0 !! jx = Some (lx, x) ->
            inorder root 0 !! jy = Some (ly, y) -> (jx < jy)%nat).
  { intros x y jx jy lx ly Hx Hy Hjx Hjy.
    eapply (inorder_subtrees_apart root 0 m1 m2); eauto. lia. }
  assert (Hc1 : c1 ∈ nodes n1) by (destruct H1 as [[H _]|[H _]];
    [eapply nodes_left|eapply nodes_right]; eauto using nodes_self).
  assert (Hc2 : c2 ∈ nodes n2) by (destruct H2 as [[H _]|[H _]];
    [eapply nodes_left|eapply nodes_right]; eauto using nodes_self).
  pose proof (Hap _ _ _ _ _ _ (nodes_self n1) Hc2 Hm1 Hi2).
  pose proof (Hap _ _ _ _ _ _ Hc1 (nodes_self n2) Hi1 Hm2).
  pose proof (Hap _ _ _ _ _ _ Hc1 Hc2 Hi1 Hi2).
  destruct H1 as [[_ ?]|[_ ?]], H2 as [[_ ?]|[_ ?]]; lia.
Qed.
Lemma adjacent_ready pa na pb nb e :
  last above = Some (pa, na) -> last below = Some (pb, nb) -> e ∈ above ->
  step_ready below (Z.to_nat (Z.max pa pb)) e.
Proof.
  intros HA HB Hin. destruct e as [p n].
  pose proof (tree_line_increasing _ _ _ Habove) as HincA.
  pose proof (tree_line_increasing _ _ _ Hbelow) as HincB.
  pose proof (increasing_from_last _ _ _ _ _ _ HincA HA Hin) as Hp.
  split; intros c Hc; simpl in *.
  - destruct (child_below p n c Hin (or_introl Hc)) as (cl & Hcl & H0 & Hlt & _).
    exists cl. split; [by apply child_index_found|]. split; [done|].
    specialize (Hlt Hc). lia.
  - destruct (child_below p n c Hin (or_intror Hc)) as (cr & Hcr & H0 & _ & Hgt).
    exists cr. split; [by apply child_index_found|]. split; [done|].
    specialize (Hgt Hc).
    pose proof (increasing_from_last _ _ _ _ _ _ HincB HB Hcr).
    destruct (tree_line_nodes _ _ _ _ _ Habove Hin) as [_ ?]. lia.
Qed.

(** The loop over a line and the line below it runs to its end. *)
Lemma adjacent_bridge_loop self pa na pb nb :
  last above = Some (pa, na) -> last below = Some (pb, nb) ->
  let init := replicate (Z.to_nat (Z.max pa pb))
                (blank_block (_max_value_len self)) in
  exists final,
    bridge_loop self below init above = Ok final
    /\ second_line_blocks self above below = Ok final
    /\ (length init <= length final)%nat
    /\ (forall e, e ∈ above -> step_ready below (length init) e)
    /\ (forall e, e ∈ above -> entry_done (_max_value_len self) below final e)
    /\ (forall j : nat, (forall e, e ∈ above -> ~ in_span below e (Z.of_nat j)) ->
          final !! j = init !! j).
Proof.
  intros HA HB init.
  assert (Hready : forall e, e ∈ above -> step_ready below (length init) e).
  { intros e He. unfold init. rewrite length_replicate.
    by eapply adjacent_ready. }
  destruct (bridge_loop_spec self below below_unique above init Hready)
    as (final & Hloop & Hlen & Hdone & Hframe).
  { apply spans_apart. }
  { exists 0. apply (tree_line_increasing _ _ _ Habove). }
  exists final. split; [done|]. split; [|done].
  unfold second_line_blocks, last_item. rewrite HA, HB. cbn.
  rewrite spaces, list_mul_singleton. exact Hloop.
Qed.
End Adjacent.

Lemma last_item_Some {A} (l : list A) : l <> [] -> exists x, last_item l = Ok x /\ last l = Some x.
Proof.
  intros [x Hx]%last_is_Some. exists x. unfold last_item. by rewrite Hx.
Qed.

(** C8: bridge-row shape.  For every tree (no node object occurring twice),
    every pair of adjacent depth levels and every parent on the upper one:
    the row is made of blocks of [W] characters; a left child's column holds
    the block whose right half is dashed, a right child's column the block
    whose left half is dashed; every column strictly between the child's and
    the parent's holds [W] dashes; every column of the row on no bridge holds
    [W] blanks.  The child's column is the column of the child object itself
    in the line below ([child_index] compares identities), whatever the
    values are. *)
Theorem C8_bridge_rows (root : Node) (k : nat) (above below : tree_line) :
  let self := __init__ (Some root) in
  let W := _max_value_len self in
  distinct_ids root ->
  tree_lines root !! k = Some above ->
  tree_lines root !! S k = Some below ->
  exists row blocks,
    _get_second_line_below_tree_line self above below = Ok row
    /\ row = concat blocks
    /\ Forall (fun blk => len blk = W) blocks
    /\ (forall p n c, (p, n) ∈ above -> get_left n = Some c ->
          exists cl, child_index c below = Ok cl /\ (cl, c) ∈ below
            /\ 0 <= cl < p /\ p <= len blocks
            /\ block_at W row cl = left_child_block W
            /\ forall j, cl < j < p -> block_at W row j = full_block W)
    /\ (forall p n c, (p, n) ∈ above -> get_right n = Some c ->
          exists cr, child_index c below = Ok cr /\ (cr, c) ∈ below
            /\ 0 <= p < cr /\ cr < len blocks
            /\ block_at W row cr = right_child_block W
            /\ forall j, p < j < cr -> block_at W row j = full_block W)
    /\ (forall j, 0 <= j < len blocks ->
          (forall e, e ∈ above -> ~ in_span below e j) ->
          block_at W row j = blank_block W).
Proof.
  intros self W Hnd Habove Hbelow.
  assert (HW : 0 <= W).
  { unfold W, self. rewrite max_value_len_init. lia. }
  destruct (last_item_Some above (tree_line_nonempty _ _ _ Habove))
    as ([pa na] & _ & HA).
  destruct (last_item_Some below (tree_line_nonempty _ _ _ Hbelow))
    as ([pb nb] & _ & HB).
  destruct (adjacent_bridge_loop root k above below Hnd Habove Hbelow
              self pa na pb nb HA HB)
    as (final & Hloop & Hblocks & Hlen & Hready & Hdone & Hframe).
  set (init := replicate (Z.to_nat (Z.max pa pb)) (blank_block W)) in *.
  assert (Hwidths : Forall (fun blk => len blk = W) final).
  { apply (bridge_loop_widths self below above init final HW Hloop).
    apply Forall_replicate. unfold blank_block, len.
    rewrite length_replicate. lia. }
  assert (Hat : forall j blk, 0 <= j -> final !! Z.to_nat j = Some blk ->
                              block_at W (concat final) j = blk).
  { intros j blk Hj Hlk. rewrite <- (Z2Nat.id j) at 1 by done.
    by apply concat_block_at. }
  exists (concat final), final.
  split; [unfold _get_second_line_below_tree_line; by rewrite Hblocks|].
  split; [done|]. split; [done|]. split; [|split].
  - intros p n c Hin Hc.
    destruct (Hready _ Hin) as [Hl _].
    destruct (Hl c Hc) as (cl & Hidx & Hcl & Hbound & Hp). simpl in *.
    destruct (Hdone _ Hin) as [Hd _].
    destruct (Hd c cl Hc Hcl) as [D1 D2]. simpl in *.
    exists cl. repeat split; try done; try lia.
    + unfold len. lia.
    + apply Hat; [lia|done].
    + intros j Hj. apply Hat; [lia|]. by apply D2.
  - intros p n c Hin Hc.
    destruct (Hready _ Hin) as [_ Hr].
    destruct (Hr c Hc) as (cr & Hidx & Hcr & Hbound & Hp). simpl in *.
    destruct (Hdone _ Hin) as [_ Hd].
    destruct (Hd c cr Hc Hcr) as [D1 D2]. simpl in *.
    exists cr. repeat split; try done; try lia.
    + apply lookup_lt_Some in D1. unfold len. lia.
    + apply Hat; [lia|done].
    + intros j Hj. apply Hat; [lia|]. by apply D2.
  - intros j Hj Hfree. apply Hat; [lia|].
    assert (Hlk : is_Some (final !! Z.to_nat j))
      by (apply lookup_lt_is_Some; unfold len in Hj; lia).
    destruct Hlk as [blk Hblk]. rewrite Hblk. f_equal.
    rewrite Hframe in Hblk.
    + unfold init in Hblk. by apply lookup_replicate in Hblk as [-> _].
    + intros e He. rewrite Z2Nat.id by lia. by apply Hfree.
Qed.

Lemma C8_bridge_rows_witness :
  let self := __init__ (Some twins) in
  let W := _max_value_len self in
  let above := [(1, tw1); (3, tw3)] in
  let below := [(0, tw2); (4, tw4)] in
  exists row blocks,
    _get_second_line_below_tree_line self above below = Ok row
    /\ row = concat blocks
    /\ Forall (fun blk => len blk = W) blocks
    /\ (forall p n c, (p, n) ∈ above -> get_left n = Some c ->
          exists cl, child_index c below = Ok cl /\ (cl, c) ∈ below
            /\ 0 <= cl < p /\ p <= len blocks
            /\ block_at W row cl = left_child_block W
            /\ forall j, cl < j < p -> block_at W row j = full_block W)
    /\ (forall p n c, (p, n) ∈ above -> get_right n = Some c ->
          exists cr, child_index c below = Ok cr /\ (cr, c) ∈ below
            /\ 0 <= p < cr /\ cr < len blocks
            /\ block_at W row cr = right_child_block W
            /\ forall j, p < j < cr -> block_at W row j = full_block W)
    /\ (forall j, 0 <= j < len blocks ->
          (forall e, e ∈ above -> ~ in_span below e j) ->
          block_at W row j = blank_block W).
Proof.
  apply (C8_bridge_rows twins 1 [(1, tw1); (3, tw3)] [(0, tw2); (4, tw4)]).
  - apply (bool_decide_unpack _). vm_compute. exact I.
  - vm_compute. reflexivity.
  - vm_compute. reflexivity.
Defined.

(** ** The rendering shown in the class docstring *)

Example docstring_inorder_listinfo :
  pending_items (_get_inorder_listinfo (Some n0))
  = [(1, n1); (2, n3); (0, n0); (2, n4); (1, n2); (2, n5)]
  /\ _find_max_value_len (Some n0) = 5.
Proof. by vm_compute. Qed.

Example docstring_rendering :
  fst (__str__ (__init__ (Some n0)))
  = Ok (join NL
          [s_ "            1  ";
           s_ "          /   \";
           s_ "   -------     -------   ";
           s_ "  |                   |  ";
           s_ "  12                 1234";
           s_ "    \               /   \";
           s_ "     --           --     --   ";
           s_ "       |         |         |  ";
           s_ "      123      56789      789"]).
Proof. by vm_compute. Qed.

(** ** Rendering over the store only reads *)

Create HintDb reads discriminated.

Lemma reads_only_ret {A} (a : A) : Heap.reads_only (Heap.ret a).
Proof. by intros σ. Qed.

Lemma reads_only_raise {A} e : Heap.reads_only (@Heap.raise A e).
Proof. by intros σ. Qed.

Lemma reads_only_pure {A} (r : result A) : Heap.reads_only (Heap.pure r).
Proof. by intros σ. Qed.

Lemma reads_only_bind {A B} (m : Heap.M A) (k : A -> Heap.M B) :
  Heap.reads_only m -> (forall a, Heap.reads_only (k a)) ->
  Heap.reads_only (Heap.bind m k).
Proof.
  intros Hm Hk σ. unfold Heap.bind. specialize (Hm σ).
  destruct (m σ) as [[a|e] σ']; simpl in Hm; subst; [apply Hk|done].
Qed.

Lemma reads_only_attribute {A} (f : Heap.NodeObj -> A) self :
  Heap.reads_only (Heap.attribute f self).
Proof. intros σ. unfold Heap.attribute. by destruct (σ !! self). Qed.

Lemma reads_only_get_left self : Heap.reads_only (Heap.get_left self).
Proof. apply reads_only_attribute. Qed.

Lemma reads_only_get_right self : Heap.reads_only (Heap.get_right self).
Proof. apply reads_only_attribute. Qed.

Lemma reads_only_get_value self : Heap.reads_only (Heap.get_value self).
Proof. apply reads_only_attribute. Qed.

#[local] Hint Resolve reads_only_ret reads_only_raise reads_only_pure
  reads_only_get_left reads_only_get_right reads_only_get_value : reads.

Ltac reads_only_step :=
  first
    [ solve [eauto with reads]
    | apply reads_only_bind; [|intros ?]
    | match goal with
      | |- forall _, _ => intros ?
      | |- Heap.reads_only (if ?b then _ else _) => destruct b
      | |- Heap.reads_only (let '(_, _) := ?p in _) => destruct p
      | |- Heap.reads_only (match ?x with _ => _ end) => destruct x
      end ].

Ltac reads_only := repeat reads_only_step.

Lemma reads_only_inorder_wrapped fuel : forall cur_node level,
  Heap.reads_only (Heap.inorder_wrapped fuel cur_node level).
Proof.
  induction fuel as [|fuel IH]; intros [n|] level; simpl; reads_only.
Qed.

Lemma reads_only_maxlen_wrapped fuel : forall cur_node,
  Heap.reads_only (Heap.maxlen_wrapped fuel cur_node).
Proof.
  induction fuel as [|fuel IH]; intros [n|]; simpl; reads_only.
Qed.

#[local] Hint Resolve reads_only_inorder_wrapped reads_only_maxlen_wrapped
  : reads.

Lemma reads_only_init fuel root : Heap.reads_only (Heap.__init__ fuel root).
Proof.
  unfold Heap.__init__, Heap._find_max_value_len, Heap._get_inorder_listinfo.
  reads_only.
Qed.

Lemma reads_only_format_loop fa :
  (forall offset node, Heap.reads_only (fa offset node)) ->
  forall tl lst line, Heap.reads_only (Heap.format_loop fa lst line tl).
Proof.
  intros Hfa tl. induction tl as [|[p n] tl IH]; intros lst line; simpl;
    reads_only.
Qed.

Lemma reads_only_comprehension {A B} (f : A -> Heap.M B) l :
  (forall x, Heap.reads_only (f x)) ->
  Heap.reads_only (Heap.comprehension f l).
Proof. intros Hf. induction l as [|x l IH]; simpl; reads_only. Qed.

Lemma reads_only_child_index child below :
  Heap.reads_only child -> Heap.reads_only (Heap.child_index child below).
Proof. intros Hc. induction below as [|x below IH]; simpl; reads_only. Qed.

#[local] Hint Resolve reads_only_format_loop reads_only_comprehension
  reads_only_child_index : reads.

Lemma reads_only_bridge_loop self below above : forall line_blocks,
  Heap.reads_only (Heap.bridge_loop self below line_blocks above).
Proof.
  induction above as [|[p n] above IH]; intros line_blocks; simpl;
    unfold Heap.bridge_step; reads_only.
Qed.

#[local] Hint Resolve reads_only_bridge_loop : reads.

Lemma reads_only_render self tree_lines :
  Heap.reads_only (Heap.render_tree_lines self tree_lines).
Proof.
  unfold Heap.render_tree_lines, Heap._build_tree_scheleton,
    Heap._get_first_line_below_tree_line, Heap._get_second_line_below_tree_line,
    Heap._get_third_line_below_tree_line, Heap._format_tree_line_with_offsets,
    Heap._left_pad_node_using_offset, Heap._get_centered_node_value.
  repeat first
    [ reads_only_step
    | apply reads_only_comprehension
    | apply reads_only_format_loop ].
Qed.

Lemma reads_only_str self : Heap.reads_only (fst (Heap.__str__ self)).
Proof.
  unfold Heap.__str__. destruct (iterate _) as [nodeinfos it]. simpl.
  apply reads_only_render.
Qed.

(** C9: rendering never mutates the tree.  Over a store of node objects, the
    constructor and the string conversion give the store back exactly as they
    got it, whatever the store, the root reference and the recursion limit
    are and whether they return or raise: every node object keeps its value
    and its left and right references. *)
Theorem C9_rendering_reads_only (fuel : nat) (root : option Heap.addr)
    (σ : Heap.store) :
  snd (Heap.__init__ fuel root σ) = σ
  /\ (forall tv : Heap.TreePrinter, snd (fst (Heap.__str__ tv) σ) = σ)
  /\ (forall a,
        snd (Heap.bind (Heap.__init__ fuel root)
               (fun tv => fst (Heap.__str__ tv)) σ) !! a
        = σ !! a).
Proof.
  split; [apply reads_only_init|]. split; [intros tv; apply reads_only_str|].
  intros a. f_equal. revert σ. apply reads_only_bind.
  - apply reads_only_init.
  - intros tv. apply reads_only_str.
Qed.

(** The docstring's tree, built in an empty store and printed: the rendering
    is the one of the docstring, and the store is the one the construction of
    the six nodes left. *)
Example heap_docstring_rendering :
  fst (Heap.docstring_print ∅)
  = Ok (join NL
          [s_ "            1  ";
           s_ "          /   \";
           s_ "   -------     -------   ";
           s_ "  |                   |  ";
           s_ "  12                 1234";
           s_ "    \               /   \";
           s_ "     --           --     --   ";
           s_ "       |         |         |  ";
           s_ "      123      56789      789"])
  /\ snd (Heap.docstring_print ∅) = snd (Heap.docstring_tree ∅)
  /\ size (snd (Heap.docstring_tree ∅)) = 6%nat.
Proof. by vm_compute. Qed.

(** ** The store-level methods compute what the value-level methods compute *)

Lemma heap_bind_Ok {A B} (m : Heap.M A) (k : A -> Heap.M B) σ a :
  m σ = (Ok a, σ) -> Heap.bind m k σ = k a σ.
Proof. intros H. unfold Heap.bind. by rewrite H. Qed.

Lemma heap_bind_eq {A B} (m : Heap.M A) (k : A -> Heap.M B) σ r :
  m σ = (r, σ) ->
  Heap.bind m k σ = match r with Ok a => k a σ | Raise e => (Raise e, σ) end.
Proof. intros H. unfold Heap.bind. by rewrite H. Qed.

Lemma heap_bind_ret {A B} (a : A) (k : A -> Heap.M B) σ :
  Heap.bind (Heap.ret a) k σ = k a σ.
Proof. done. Qed.

Lemma heap_bind_assoc {A B C} (m : Heap.M A) (k1 : A -> Heap.M B)
    (k2 : B -> Heap.M C) σ :
  Heap.bind (Heap.bind m k1) k2 σ
  = Heap.bind m (fun a => Heap.bind (k1 a) k2) σ.
Proof. unfold Heap.bind. by destruct (m σ) as [[a|e] σ']. Qed.

Lemma pending_items_refs it :
  pending_items (Iterable_refs it) = refs (pending_items it).
Proof. by destruct it. Qed.

Lemma last_refs {A} (l : list (A * Node)) :
  last (refs l) = (fun e => (e.1, node_id e.2)) <$> last l.
Proof. apply fmap_last. Qed.

Lemma refs_app {A} (l1 l2 : list (A * Node)) : refs (l1 ++ l2) = refs l1 ++ refs l2.
Proof. apply fmap_app. Qed.

Section Refinement.
Variable σ : Heap.store.
Variable root : Node.
Hypothesis Hrep : represents σ root.

Lemma heap_get_left n :
  n ∈ nodes root -> Heap.get_left (node_id n) σ = (Ok (node_id <$> get_left n), σ).
Proof.
  intros Hn. unfold Heap.get_left, Heap.attribute. cbv beta.
  by rewrite (Hrep n Hn).
Qed.

Lemma heap_get_right n :
  n ∈ nodes root -> Heap.get_right (node_id n) σ = (Ok (node_id <$> get_right n), σ).
Proof.
  intros Hn. unfold Heap.get_right, Heap.attribute. cbv beta.
  by rewrite (Hrep n Hn).
Qed.

Lemma heap_get_value n :
  n ∈ nodes root -> Heap.get_value (node_id n) σ = (Ok (get_value n), σ).
Proof.
  intros Hn. unfold Heap.get_value, Heap.attribute. cbv beta.
  by rewrite (Hrep n Hn).
Qed.

Lemma opt_nodes_left_in n :
  n ∈ nodes root -> forall x, x ∈ opt_nodes (get_left n) -> x ∈ nodes root.
Proof.
  intros Hn x Hx. apply (nodes_trans root n x Hn), opt_nodes_sub. by left.
Qed.

Lemma opt_nodes_right_in n :
  n ∈ nodes root -> forall x, x ∈ opt_nodes (get_right n) -> x ∈ nodes root.
Proof.
  intros Hn x Hx. apply (nodes_trans root n x Hn), opt_nodes_sub. by right.
Qed.

Lemma heap_inorder_wrapped fuel : forall c d,
  (forall x, x ∈ opt_nodes c -> x ∈ nodes root) ->
  (opt_height c <= fuel)%nat ->
  Heap.inorder_wrapped fuel (node_id <$> c) d σ
  = (Ok (Iterable_refs (inorder_wrapped c d)), σ).
Proof.
  induction fuel as [|fuel IH]; intros [n|] d Hin Hh; try done.
  { simpl in Hh. rewrite height_eq in Hh. lia. }
  assert (Hn : n ∈ nodes root) by apply Hin, nodes_self.
  simpl in Hh. rewrite height_eq in Hh.
  cbn [fmap option_fmap option_map Heap.inorder_wrapped].
  rewrite (heap_bind_Ok _ _ _ _ (heap_get_left n Hn)).
  rewrite (heap_bind_Ok _ _ _ _ (IH (get_left n) (d + 1)
             (opt_nodes_left_in n Hn) ltac:(lia))).
  rewrite (heap_bind_Ok _ _ _ _ (heap_get_right n Hn)).
  rewrite (heap_bind_Ok _ _ _ _ (IH (get_right n) (d + 1)
             (opt_nodes_right_in n Hn) ltac:(lia))).
  unfold Heap.ret, chain. do 2 f_equal. simpl.
  rewrite inorder_wrapped_node_chain, inorder_eq. simpl.
  rewrite !pending_items_refs, app_nil_r, refs_app. done.
Qed.

Lemma heap_maxlen_wrapped fuel : forall c,
  (forall x, x ∈ opt_nodes c -> x ∈ nodes root) ->
  (opt_height c <= fuel)%nat ->
  Heap.maxlen_wrapped fuel (node_id <$> c) σ = (Ok (maxlen_wrapped c), σ).
Proof.
  induction fuel as [|fuel IH]; intros [n|] Hin Hh; try done.
  { simpl in Hh. rewrite height_eq in Hh. lia. }
  assert (Hn : n ∈ nodes root) by apply Hin, nodes_self.
  simpl in Hh. rewrite height_eq in Hh.
  cbn [fmap option_fmap option_map Heap.maxlen_wrapped].
  rewrite (heap_bind_Ok _ _ _ _ (heap_get_value n Hn)).
  rewrite (heap_bind_Ok _ _ _ _ (heap_get_left n Hn)).
  rewrite (heap_bind_Ok _ _ _ _ (IH (get_left n) (opt_nodes_left_in n Hn)
             ltac:(lia))).
  rewrite (heap_bind_Ok _ _ _ _ (heap_get_right n Hn)).
  rewrite (heap_bind_Ok _ _ _ _ (IH (get_right n) (opt_nodes_right_in n Hn)
             ltac:(lia))).
  unfold Heap.ret. do 2 f_equal. by destruct n as [i v [l|] [r|]].
Qed.

Lemma heap_init fuel :
  (height root <= fuel)%nat ->
  Heap.__init__ fuel (Some (node_id root)) σ
  = (Ok (printer_refs (__init__ (Some root))), σ).
Proof.
  intros Hh. unfold Heap.__init__, Heap._find_max_value_len,
    Heap._get_inorder_listinfo.
  rewrite (heap_bind_Ok _ _ _ _
             (heap_maxlen_wrapped fuel (Some root) (fun x H => H) Hh)).
  rewrite (heap_bind_Ok _ _ _ _
             (heap_inorder_wrapped fuel (Some root) 0 (fun x H => H) Hh)).
  done.
Qed.
End Refinement.

Lemma comprehension_Ok {A B} (g : A -> B) (l : list A) :
  comprehension (fun x => Ok (g x)) l = Ok (map g l).
Proof. induction l as [|x l IH]; simpl; [done|]. by rewrite IH. Qed.

Lemma heap_comprehension {A Ah B} (g : A -> Ah) (fh : Ah -> Heap.M B)
    (f : A -> result B) σ (l : list A) :
  (forall x, x ∈ l -> fh (g x) σ = (f x, σ)) ->
  Heap.comprehension fh (g <$> l) σ = (comprehension f l, σ).
Proof.
  induction l as [|x l IH]; intros Hf; [done|].
  cbn [fmap list_fmap Heap.comprehension comprehension].
  unfold Heap.bind at 1. rewrite (Hf x) by left.
  destruct (f x) as [y|e]; [|done]. cbn.
  unfold Heap.bind at 1. rewrite IH by (intros; apply Hf; by right).
  by destruct (comprehension f l).
Qed.

Lemma all_but_last_fmap {A B} (g : A -> B) (l : list A) :
  all_but_last (g <$> l) = g <$> all_but_last l.
Proof. unfold all_but_last. by rewrite length_fmap, fmap_take. Qed.

Lemma enumerate_from_fmap {A B} (g : A -> B) (l : list A) : forall s,
  enumerate_from s (g <$> l) = (fun e => (e.1, g e.2)) <$> enumerate_from s l.
Proof. induction l as [|x l IH]; intros s; simpl; [done|]. by rewrite IH. Qed.

Lemma level_line_refs k (E : list (Z * (Z * Node))) :
  level_line k ((fun e => (e.1, (e.2.1, node_id e.2.2))) <$> E)
  = refs (level_line k E).
Proof.
  unfold level_line, refs. induction E as [|[i [d n]] E IH]; [done|].
  rewrite fmap_cons, !filter_cons. cbn [fst snd].
  destruct (decide (d = k)); rewrite ?fmap_cons; cbn [fst snd];
    [f_equal|]; apply IH.
Qed.

Lemma tree_lines_of_refs root :
  tree_lines_of (refs (inorder root 0)) = refs <$> tree_lines root.
Proof.
  rewrite tree_lines_levels.
  rewrite (tree_lines_of_seqZ _ (Z.of_nat (height root))).
  - rewrite <- list_fmap_compose. apply list_fmap_ext. intros _ k _. simpl.
    unfold enumerate, refs at 1. rewrite enumerate_from_fmap.
    by rewrite <- level_line_refs.
  - intros k. rewrite <- (inorder_levels root 0 k). unfold refs. split.
    + intros (a & ([d n] & [= -> ->] & Hin)%list_elem_of_fmap). eauto.
    + intros (n & Hin). exists (node_id n). apply list_elem_of_fmap.
      by exists (k, n).
Qed.

Section RenderRefinement.
Variable σ : Heap.store.
Variable root : Node.
Variable self : TreePrinter.
Hypothesis Hrep : represents σ root.

Let selfh := printer_refs self.
Let in_tree (tl : tree_line) : Prop := forall c n, (c, n) ∈ tl -> n ∈ nodes root.

Lemma heap_format_loop fah fa tl :
  in_tree tl ->
  (forall offset n, n ∈ nodes root -> fah offset (node_id n) σ = (Ok (fa offset n), σ)) ->
  forall lst line,
    Heap.format_loop fah lst line (refs tl) σ = (Ok (format_loop fa lst line tl), σ).
Proof.
  intros Hin Hfa. induction tl as [|[p n] tl IH]; intros lst line; [done|].
  cbn [refs fmap list_fmap Heap.format_loop format_loop]. simpl.
  rewrite (heap_bind_Ok _ _ _ _ (Hfa _ n (Hin p n ltac:(left)))).
  apply IH. intros c m Hm. apply (Hin c m). by right.
Qed.

Lemma heap_skeleton_line tl :
  in_tree tl ->
  Heap._format_tree_line_with_offsets (refs tl)
    (fun offset node => Heap._left_pad_node_using_offset selfh offset node) σ
  = (Ok (_format_tree_line_with_offsets tl
           (fun offset node => _left_pad_node_using_offset self offset node)), σ).
Proof.
  intros Hin. apply heap_format_loop; [done|]. intros offset n Hn.
  unfold Heap._left_pad_node_using_offset, Heap._get_centered_node_value.
  rewrite (heap_bind_Ok _ _ _ (center (get_value n) (_max_value_len self))).
  - done.
  - by rewrite (heap_bind_Ok _ _ _ _ (heap_get_value σ root Hrep n Hn)).
Qed.

Lemma heap_first_line tl :
  in_tree tl ->
  Heap._get_first_line_below_tree_line selfh (refs tl) σ
  = (Ok (_get_first_line_below_tree_line self tl), σ).
Proof.
  intros Hin. apply heap_format_loop; [done|]. intros offset n Hn.
  rewrite (heap_bind_Ok _ _ _ _ (heap_get_left σ root Hrep n Hn)).
  rewrite (heap_bind_Ok _ _ _ _ (heap_get_right σ root Hrep n Hn)).
  unfold Heap.ret. by destruct (get_left n), (get_right n).
Qed.

Lemma heap_third_line tl :
  in_tree tl ->
  Heap._get_third_line_below_tree_line selfh (refs tl) σ
  = (Ok (_get_third_line_below_tree_line self tl), σ).
Proof. intros Hin. by apply heap_format_loop. Qed.

Lemma heap_child_index getter c below :
  getter σ = (Ok (Some (node_id c)), σ) ->
  Heap.child_index getter (refs below) σ = (child_index c below, σ).
Proof.
  intros Hget. unfold child_index.
  induction below as [|[q m] below IH]; [done|].
  cbn [refs fmap list_fmap Heap.child_index]. simpl.
  rewrite (heap_bind_Ok _ _ _ _ Hget). rewrite filter_cons. simpl.
  assert (Heqb : Is_true (Node_eq m c) <-> node_id m = node_id c).
  { unfold Node_eq. rewrite Is_true_true. apply Nat.eqb_eq. }
  destruct (decide (node_id m = node_id c)) as [Heq|Hne].
  - rewrite decide_True by congruence.
    by rewrite (decide_True (P := Is_true (Node_eq m c))) by by apply Heqb.
  - rewrite decide_False by congruence.
    rewrite (decide_False (P := Is_true (Node_eq m c))) by by rewrite Heqb.
    apply IH.
Qed.

Lemma heap_bridge_step below blocks p n :
  n ∈ nodes root ->
  Heap.bridge_step selfh (refs below) blocks (p, node_id n) σ
  = (bridge_step self below blocks (p, n), σ).
Proof.
  intros Hn. unfold Heap.bridge_step, bridge_step.
  pose proof (heap_get_left σ root Hrep n Hn) as Hl.
  pose proof (heap_get_right σ root Hrep n Hn) as Hr.
  rewrite (heap_bind_Ok _ _ _ _ Hl).
  assert (Hright : forall lb,
    Heap.bind (Heap.get_right (node_id n))
      (fun r => if is_not_None r then
         Heap.bind (Heap.child_index (Heap.get_right (node_id n)) (refs below))
           (fun ci => Heap.ret (Heap.fill_line_blocks selfh lb p ci false))
       else Heap.ret lb) σ
    = (match get_right n with
       | Some c => ci ← child_index c below;
                   Ok (fill_line_blocks self lb p ci false)
       | None => Ok lb
       end, σ)).
  { intros lb. rewrite (heap_bind_Ok _ _ _ _ Hr).
    destruct (get_right n) as [cr|]; [|done].
    cbn [fmap option_fmap option_map is_not_None].
    rewrite (heap_bind_eq _ _ _ _ (heap_child_index _ cr below Hr)).
    by destruct (child_index cr below). }
  destruct (get_left n) as [cl|].
  - cbn [fmap option_fmap option_map is_not_None].
    rewrite heap_bind_assoc.
    rewrite (heap_bind_eq _ _ _ _ (heap_child_index _ cl below Hl)).
    destruct (child_index cl below) as [ci|e]; [|done].
    rewrite heap_bind_ret. apply Hright.
  - cbn [fmap option_fmap option_map is_not_None].
    rewrite heap_bind_ret. apply Hright.
Qed.

Lemma heap_bridge_loop below above : forall blocks,
  in_tree above ->
  Heap.bridge_loop selfh (refs below) blocks (refs above) σ
  = (bridge_loop self below blocks above, σ).
Proof.
  induction above as [|[p n] above IH]; intros blocks Hin; [done|].
  cbn [refs fmap list_fmap Heap.bridge_loop bridge_loop]. simpl fst. simpl snd.
  unfold Heap.bind at 1.
  rewrite heap_bridge_step by (apply (Hin p n); left).
  destruct (bridge_step self below blocks (p, n)) as [blocks'|e]; [|done].
  cbn. apply IH. intros c m Hm. apply (Hin c m). by right.
Qed.

Lemma heap_second_line above below :
  in_tree above ->
  Heap._get_second_line_below_tree_line selfh (refs above) (refs below) σ
  = (_get_second_line_below_tree_line self above below, σ).
Proof.
  intros Hin.
  unfold Heap._get_second_line_below_tree_line, _get_second_line_below_tree_line,
    second_line_blocks, Heap.pure, last_item.
  rewrite !last_refs.
  destruct (last above) as [[pa na]|];
    cbn [fmap option_fmap option_map fst snd];
    [|by rewrite (heap_bind_eq _ _ _ (Raise IndexError))].
  rewrite (heap_bind_Ok _ _ _ (pa, node_id na)) by done.
  cbn [fst snd mbind result_bind].
  destruct (last below) as [[pb nb]|];
    cbn [fmap option_fmap option_map fst snd]; cycle 1.
  { by rewrite (heap_bind_eq _ _ _ (Raise IndexError)). }
  rewrite (heap_bind_Ok _ _ _ (pb, node_id nb)) by done.
  cbn [fst snd mbind result_bind].
  rewrite (heap_bind_eq _ _ _ _ (heap_bridge_loop below above _ Hin)).
  by destruct (bridge_loop _ _ _ _).
Qed.
End RenderRefinement.

Lemma item_fmap {A B} (g : A -> B) (l : list A) i :
  item (g <$> l) i = match item l i with Ok x => Ok (g x) | Raise e => Raise e end.
Proof.
  unfold item. destruct (i <? 0); [done|]. rewrite list_lookup_fmap.
  by destruct (l !! Z.to_nat i).
Qed.

Lemma elem_of_all_but_last {A} (l : list A) x : x ∈ all_but_last l -> x ∈ l.
Proof. unfold all_but_last. apply subseteq_take. Qed.

Lemma elem_of_tail {A} (l : list A) x : x ∈ tail l -> x ∈ l.
Proof. destruct l; [done|]. by right. Qed.

Lemma heap_render σ root self tls :
  represents σ root ->
  (forall tl c n, tl ∈ tls -> (c, n) ∈ tl -> n ∈ nodes root) ->
  Heap.render_tree_lines (printer_refs self) (refs <$> tls) σ
  = (render_tree_lines self tls, σ).
Proof.
  intros Hrep Hin. unfold Heap.render_tree_lines, render_tree_lines,
    Heap._build_tree_scheleton, _build_tree_scheleton.
  rewrite (heap_bind_eq _ _ _ _
    (heap_comprehension refs _
       (fun tl => Ok (_format_tree_line_with_offsets tl
          (fun offset node => _left_pad_node_using_offset self offset node)))
       σ tls
       (fun tl Htl => heap_skeleton_line σ root self Hrep tl (fun c n => Hin tl c n Htl)))).
  rewrite comprehension_Ok.
  rewrite (heap_bind_eq _ _ _ _
    (heap_comprehension refs _
       (fun tl => Ok (_get_first_line_below_tree_line self tl)) σ tls
       (fun tl Htl => heap_first_line σ root self Hrep tl (fun c n => Hin tl c n Htl)))).
  rewrite comprehension_Ok.
  rewrite all_but_last_fmap. unfold enumerate. rewrite enumerate_from_fmap.
  rewrite (heap_bind_eq _ _ _
    (comprehension
       (fun '(i, tl) => below ← item tls (i + 1);
                        _get_second_line_below_tree_line self tl below)
       (enumerate_from 0 (all_but_last tls)))).
  2:{ apply heap_comprehension. intros [i tl] Hitl. cbn [fst snd].
      rewrite item_fmap.
      rewrite (heap_bind_eq _ _ _
                 match item tls (i + 1) with
                 | Ok x => Ok (refs x)
                 | Raise e => Raise e
                 end) by done.
      destruct (item tls (i + 1)) as [below|e]; [|done].
      apply (heap_second_line σ root self Hrep).
      apply elem_of_enumerate_from in Hitl as (m & Hm & _).
      intros c n. apply (Hin tl), elem_of_all_but_last.
      eapply list_elem_of_lookup_2, Hm. }
  destruct (comprehension _ (enumerate_from 0 (all_but_last tls)))
    as [second_lines|e]; [|done].
  rewrite <- fmap_tail.
  rewrite (heap_bind_eq _ _ _ _
    (heap_comprehension refs _
       (fun tl => Ok (_get_third_line_below_tree_line self tl)) σ (tail tls)
       (fun tl Htl => heap_third_line σ root self tl
          (fun c n => Hin tl c n (elem_of_tail _ _ Htl))))).
  rewrite comprehension_Ok. done.
Qed.

(** X12: the methods on a store of objects and the methods on tree values
    agree.  With a store that holds the tree, and given enough recursion
    depth (there is a number of frames, depending on the tree, from which on
    this holds), constructing the printer and rendering it returns exactly
    what the value-level methods compute, the same string or the same
    exception, and the store as it was. *)
Theorem heap_print_refines σ (root : Node) :
  represents σ root ->
  exists frames : nat, forall fuel : nat, (frames <= fuel)%nat ->
    Heap.bind (Heap.__init__ fuel (Some (node_id root)))
      (fun tv => fst (Heap.__str__ tv)) σ
    = (fst (__str__ (__init__ (Some root))), σ).
Proof.
  intros Hrep. exists (height root). intros fuel Hfuel.
  rewrite (heap_bind_Ok _ _ _ _ (heap_init σ root Hrep fuel Hfuel)).
  rewrite str_init. unfold Heap.__str__, printer_refs, __init__.
  unfold _get_inorder_listinfo, inorder_wrapped.
  cbn [Heap._inorder_listinfo _inorder_listinfo].
  rewrite inorder_wrapped_node_chain. cbn [Iterable_refs iterate fst].
  rewrite tree_lines_of_refs.
  apply (heap_render σ root
           {| _root := Some root;
              _max_value_len := Z.max 2 (_find_max_value_len (Some root));
              _inorder_listinfo := PyChain (inorder root 0) |}); [done|].
  intros tl c n [k Hk]%list_elem_of_lookup Hcn.
  by destruct (tree_line_nodes root k tl c n Hk Hcn).
Qed.

Lemma heap_print_refines_witness :
  let σ : Heap.store :=
    list_to_map ((fun n => (node_id n, obj_of n)) <$> nodes n0) in
  exists frames : nat, forall fuel : nat, (frames <= fuel)%nat ->
    Heap.bind (Heap.__init__ fuel (Some (node_id n0)))
      (fun tv => fst (Heap.__str__ tv)) σ
    = (fst (__str__ (__init__ (Some n0))), σ).
Proof.
  apply (heap_print_refines _ n0).
  intros n Hn. cbn in Hn.
  repeat (apply elem_of_cons in Hn as [->|Hn]; [vm_compute; reflexivity|]).
  by apply elem_of_nil in Hn.
Defined.

(** ** Rendering a tree returns a string *)

Lemma comprehension_returns {A B} (f : A -> result B) (l : list A) :
  (forall x, x ∈ l -> exists y, f x = Ok y) ->
  exists ys, comprehension f l = Ok ys.
Proof.
  induction l as [|x l IH]; intros Hf; [by eexists|].
  destruct (Hf x) as [y Hy]; [left|].
  destruct IH as [ys Hys]; [intros; apply Hf; by right|].
  exists (y :: ys). simpl. by rewrite Hy, Hys.
Qed.

Lemma second_line_returns root (k : nat) above below :
  distinct_ids root ->
  tree_lines root !! k = Some above ->
  tree_lines root !! S k = Some below ->
  exists row,
    _get_second_line_below_tree_line (__init__ (Some root)) above below = Ok row.
Proof.
  intros Hnd Habove Hbelow.
  destruct (last_item_Some above (tree_line_nonempty _ _ _ Habove))
    as ([pa na] & _ & HA).
  destruct (last_item_Some below (tree_line_nonempty _ _ _ Hbelow))
    as ([pb nb] & _ & HB).
  destruct (adjacent_bridge_loop root k above below Hnd Habove Hbelow
              (__init__ (Some root)) pa na pb nb HA HB)
    as (final & _ & Hblocks & _).
  exists (concat final). unfold _get_second_line_below_tree_line.
  by rewrite Hblocks.
Qed.

(** X11: rendering never raises.  For every tree in which no node object
    occurs twice, the first conversion of its printer to a string returns a
    string: no lookup of a child and no index fails. *)
Theorem str_returns (root : Node) :
  distinct_ids root ->
  exists out, fst (__str__ (__init__ (Some root))) = Ok out.
Proof.
  intros Hnd. rewrite str_init. unfold render_tree_lines.
  destruct (comprehension_returns
              (fun '(i, tl) =>
                 below ← item (tree_lines root) (i + 1);
                 _get_second_line_below_tree_line (__init__ (Some root)) tl below)
              (enumerate (all_but_last (tree_lines root))))
    as [second_lines Hsecond].
  { intros [i tl] (m & Hm & ->)%elem_of_enumerate_from.
    unfold all_but_last in Hm. apply lookup_take_Some in Hm as [Hm Hlt].
    destruct (lookup_lt_is_Some_2 (tree_lines root) (S m)) as [below Hbelow];
      [lia|].
    destruct (second_line_returns root m tl below Hnd Hm Hbelow) as [row Hrow].
    exists row. unfold item.
    destruct (Z.ltb_spec (0 + Z.of_nat m + 1) 0) as [?|_]; [lia|].
    replace (Z.to_nat (0 + Z.of_nat m + 1)) with (S m) by lia.
    rewrite Hbelow. exact Hrow. }
  rewrite Hsecond. by eexists.
Qed.

Lemma str_returns_witness :
  exists out, fst (__str__ (__init__ (Some tester_n7))) = Ok out.
Proof.
  apply (str_returns tester_n7).
  apply (bool_decide_unpack _). vm_compute. exact I.
Defined.

(** ** Further properties of the rows of a level *)

(** X1: the row of vertical strokes.  For every tree and every level, the
    row [_get_third_line_below_tree_line] builds has, in the block of every
    node of the level, one stroke after [W // 2] blanks and blanks after it,
    so the stroke stands at character [column * W + W // 2]; every other
    column up to the last node of the level is blank. *)
Theorem X1_vertical_rows (root : Node) (k : nat) (tl : tree_line) (c : Z) :
  let self := __init__ (Some root) in
  let W := _max_value_len self in
  let row := _get_third_line_below_tree_line self tl in
  tree_lines root !! k = Some tl ->
  0 <= c ->
  (forall n, (c, n) ∈ tl ->
     block_at W row c = vertical_block W
     /\ row !! Z.to_nat (c * W + W / 2) = Some "|"%char
     /\ forall j, c * W <= j < (c + 1) * W -> j <> c * W + W / 2 ->
                  row !! Z.to_nat j = Some " "%char)
  /\ ((forall n, (c, n) ∉ tl) -> (exists p n, (p, n) ∈ tl /\ c < p) ->
      block_at W row c = replicate (Z.to_nat W) " "%char).
Proof.
  intros self W row Htl Hc.
  assert (HW : 2 <= W).
  { unfold W, self. rewrite max_value_len_init. lia. }
  assert (Hhalf : 0 <= W / 2 /\ W / 2 < W).
  { split; [apply Z.div_pos; lia|apply Z.div_lt; lia]. }
  pose (body := fun _ : Node =>
    str_mul (W / 2) (s_ " ") ++ s_ "|" ++ str_mul (W - W / 2 - 1) (s_ " ")).
  assert (Hbody_eq : forall n, body n = vertical_block W).
  { intros n. unfold body, vertical_block. by rewrite !spaces. }
  assert (Hbody : forall c n, (c, n) ∈ tl -> len (body n) = W).
  { intros c' n' _. rewrite Hbody_eq. unfold vertical_block, len.
    rewrite !length_app, !length_replicate. simpl. lia. }
  pose proof (format_row_blocks W body ltac:(lia) tl c
                (tree_line_increasing _ _ _ Htl) Hbody Hc) as [H1 H2].
  change (_format_tree_line_with_offsets tl _) with row in H1, H2.
  split; [|exact H2]. intros n Hin. specialize (H1 n Hin).
  rewrite Hbody_eq in H1. split; [exact H1|].
  assert (Hat : forall i : nat, Z.of_nat i < W ->
            row !! Z.to_nat (c * W + Z.of_nat i) = vertical_block W !! i).
  { intros i Hi. rewrite <- H1. symmetry. apply block_at_lookup; lia. }
  split.
  - replace (c * W + W / 2) with (c * W + Z.of_nat (Z.to_nat (W / 2))) by lia.
    rewrite Hat by lia. unfold vertical_block.
    rewrite lookup_app_r by (rewrite length_replicate; lia).
    rewrite length_replicate. by replace (_ - _)%nat with 0%nat by lia.
  - intros j Hj Hne.
    replace j with (c * W + Z.of_nat (Z.to_nat (j - c * W))) by lia.
    rewrite Hat by lia. unfold vertical_block.
    destruct (decide (j - c * W < W / 2)) as [Hlt|Hge].
    + rewrite lookup_app_l by (rewrite length_replicate; lia).
      apply lookup_replicate_2. lia.
    + rewrite lookup_app_r by (rewrite length_replicate; lia).
      rewrite length_replicate.
      destruct (Z.to_nat (j - c * W) - Z.to_nat (W / 2))%nat as [|i] eqn:E;
        [lia|].
      simpl. apply lookup_replicate_2. lia.
Qed.

Lemma X1_vertical_rows_witness :
  let self := __init__ (Some tester_n7) in
  let W := _max_value_len self in
  let tl := [(1, tester_n3); (3, tester_n6); (5, tester_n8); (7, tester_n14)] in
  let row := _get_third_line_below_tree_line self tl in
  (forall n, (3, n) ∈ tl ->
     block_at W row 3 = vertical_block W
     /\ row !! Z.to_nat (3 * W + W / 2) = Some "|"%char
     /\ forall j, 3 * W <= j < (3 + 1) * W -> j <> 3 * W + W / 2 ->
                  row !! Z.to_nat j = Some " "%char)
  /\ ((forall n, (3, n) ∉ tl) -> (exists p n, (p, n) ∈ tl /\ 3 < p) ->
      block_at W row 3 = replicate (Z.to_nat W) " "%char).
Proof.
  apply (X1_vertical_rows tester_n7 2
           [(1, tester_n3); (3, tester_n6); (5, tester_n8); (7, tester_n14)] 3).
  - vm_compute. reflexivity.
  - lia.
Defined.

Lemma level_rows_length (root : Node) (k : nat) (tl : tree_line) (p : Z) (m : Node) :
  let self := __init__ (Some root) in
  let W := _max_value_len self in
  tree_lines root !! k = Some tl ->
  last tl = Some (p, m) ->
  len (_format_tree_line_with_offsets tl
         (fun offset node => _left_pad_node_using_offset self offset node))
  = (p + 1) * W
  /\ len (_get_first_line_below_tree_line self tl) = (p + 1) * W
  /\ len (_get_third_line_below_tree_line self tl) = (p + 1) * W.
Proof.
  intros self W Htl Hlast.
  assert (HW : 2 <= W).
  { unfold W, self. rewrite max_value_len_init. lia. }
  assert (Hhalf : 0 <= W / 2 /\ W / 2 < W).
  { split; [apply Z.div_pos; lia|apply Z.div_lt; lia]. }
  pose proof (tree_line_increasing _ _ _ Htl) as Hinc.
  assert (Hlen : forall body, (forall c n, (c, n) ∈ tl -> len (body n) = W) ->
    len (_format_tree_line_with_offsets tl (fun offset node =>
           str_mul offset (str_mul W (s_ " ")) ++ body node)) = (p + 1) * W).
  { intros body Hbody. unfold _format_tree_line_with_offsets.
    rewrite (format_loop_length W body ltac:(lia) tl 0 (Z.le_refl 0) Hinc Hbody).
    rewrite Hlast. lia. }
  split; [|split].
  - apply (Hlen (_get_centered_node_value self)). intros c n Hin.
    apply center_length. destruct (tree_line_nodes _ _ _ _ _ Htl Hin) as [Hn _].
    by apply max_value_len_ge.
  - apply (Hlen (fun node =>
      (if is_not_None (get_left node) then s_ "/" else s_ " ")
      ++ str_mul (W - 2) (s_ " ")
      ++ (if is_not_None (get_right node) then s_ "\" else s_ " "))).
    intros c n _. rewrite spaces. unfold len.
    rewrite !length_app, length_replicate.
    destruct (is_not_None _), (is_not_None _); simpl; lia.
  - apply (Hlen (fun _ =>
      str_mul (W / 2) (s_ " ") ++ s_ "|" ++ str_mul (W - W / 2 - 1) (s_ " "))).
    intros c n _. rewrite !spaces. unfold len.
    rewrite !length_app, !length_replicate. simpl. lia.
Qed.

(** X2: the three rows built for a level by
    [_format_tree_line_with_offsets] have the same length, [W] characters for
    every column up to the last node of the level: the skeleton row, the row
    of slashes and the row of vertical strokes are aligned block by block. *)
Theorem X2_row_lengths (root : Node) (k : nat) (tl : tree_line) (p : Z) (m : Node) :
  let self := __init__ (Some root) in
  let W := _max_value_len self in
  tree_lines root !! k = Some tl ->
  last tl = Some (p, m) ->
  len (_format_tree_line_with_offsets tl
         (fun offset node => _left_pad_node_using_offset self offset node))
  = (p + 1) * W
  /\ len (_get_first_line_below_tree_line self tl) = (p + 1) * W
  /\ len (_get_third_line_below_tree_line self tl) = (p + 1) * W.
Proof. exact (level_rows_length root k tl p m). Qed.

Lemma X2_row_lengths_witness :
  let self := __init__ (Some tester_n7) in
  let W := _max_value_len self in
  let tl := [(2, tester_n4); (6, tester_n10)] in
  len (_format_tree_line_with_offsets tl
         (fun offset node => _left_pad_node_using_offset self offset node))
  = (6 + 1) * W
  /\ len (_get_first_line_below_tree_line self tl) = (6 + 1) * W
  /\ len (_get_third_line_below_tree_line self tl) = (6 + 1) * W.
Proof.
  apply (X2_row_lengths tester_n7 1 [(2, tester_n4); (6, tester_n10)] 6 tester_n10).
  - vm_compute. reflexivity.
  - reflexivity.
Defined.

(** ** Lines and columns *)

Lemma increasing_from_lookup tl : forall s (i j : nat) ci ni cj nj,
  increasing_from s tl -> (i < j)%nat ->
  tl !! i = Some (ci, ni) -> tl !! j = Some (cj, nj) -> ci < cj.
Proof.
  induction tl as [|[p n] tl IH]; intros s i j ci ni cj nj; [done|].
  simpl. intros [Hs Hinc] Hij Hi Hj. destruct j as [|j]; [lia|].
  simpl in Hj. destruct i as [|i]; simpl in Hi.
  - simplify_eq.
    pose proof (increasing_from_elem _ _ _ _ Hinc (list_elem_of_lookup_2 _ _ _ Hj)).
    lia.
  - eapply (IH (p + 1) i j); eauto. lia.
Qed.

Lemma columns_paths root c k n :
  (c, (k, n)) ∈ columns root
  <-> 0 <= c
      /\ exists path, inorder_paths root !! Z.to_nat c = Some path
                      /\ node_at root path = Some n /\ len path = k.
Proof.
  pose proof (inorder_paths_spec root 0) as Hall. rewrite elem_of_columns. split.
  - intros (m & Hm & ->). split; [lia|]. rewrite Nat2Z.id.
    destruct (Forall2_lookup_l _ _ _ _ _ Hall Hm) as (path & Hpath & Hat & Hk).
    simpl in *. exists path. repeat split; [done..|lia].
  - intros (Hc & path & Hpath & Hat & Hk). exists (Z.to_nat c). split; [|lia].
    destruct (Forall2_lookup_r _ _ _ _ _ Hall Hpath) as ([k' n'] & He & Hat' & Hk').
    simpl in *. rewrite He. do 2 f_equal; [lia|congruence].
Qed.

(** X3: the lines of a tree.  The first loop of [__str__] and the sorted keys
    give one line for every depth from 0 to the height of the tree minus one;
    no line is empty; the line of depth [k] holds, in strictly increasing
    column order, exactly the nodes that stand [k] steps below the root, each
    with its position in the in-order sequence of the tree's positions. *)
Theorem X3_lines_by_depth (root : Node) :
  length (tree_lines root) = height root
  /\ forall (k : nat) tl, tree_lines root !! k = Some tl ->
       tl <> []
       /\ (forall (i j : nat) ci ni cj nj, (i < j)%nat ->
             tl !! i = Some (ci, ni) -> tl !! j = Some (cj, nj) -> ci < cj)
       /\ (forall c n,
             (c, n) ∈ tl
             <-> 0 <= c
                 /\ exists path,
                      inorder_paths root !! Z.to_nat c = Some path
                      /\ node_at root path = Some n
                      /\ length path = k).
Proof.
  split; [apply length_tree_lines|]. intros k tl Htl.
  split; [by eapply tree_line_nonempty|]. split.
  - intros i j ci ni cj nj. apply increasing_from_lookup with (s := 0).
    by eapply tree_line_increasing.
  - intros c n. rewrite (elem_of_tree_line _ _ _ _ _ Htl), columns_paths.
    unfold len. split; intros (Hc & path & H1 & H2 & H3);
      (split; [done|]); exists path; repeat split; auto; lia.
Qed.

Lemma length_columns root : length (columns root) = length (nodes root).
Proof.
  unfold columns, enumerate.
  assert (Hlen : forall {A} (l : list A) s, length (enumerate_from s l) = length l).
  { intros A l. induction l as [|x l IH]; intros s; simpl; [done|].
    by rewrite IH. }
  rewrite Hlen. change (pending_items _) with (inorder root 0).
  by rewrite <- (inorder_nodes root 0), length_fmap.
Qed.

Lemma level_line_app {N} k (E1 E2 : list (Z * (Z * N))) :
  level_line k (E1 ++ E2) = level_line k E1 ++ level_line k E2.
Proof. unfold level_line. by rewrite filter_app, fmap_app. Qed.

Lemma level_line_cons {N} k i d (n : N) E :
  level_line k ((i, (d, n)) :: E)
  = if decide (d = k) then (i, n) :: level_line k E else level_line k E.
Proof. unfold level_line. rewrite filter_cons. cbn [fst snd]. by case_decide. Qed.

Lemma level_line_other {N} k (l : list (Z * N)) : forall s,
  (forall d n, (d, n) ∈ l -> d <> k) -> level_line k (enumerate_from s l) = [].
Proof.
  induction l as [|[d n] l IH]; intros s Hne; [done|].
  cbn [enumerate_from]. rewrite level_line_cons.
  rewrite decide_False by (apply (Hne d n); left).
  apply IH. intros d' n' Hin. apply (Hne d' n'). by right.
Qed.

Lemma enumerate_from_snoc {A} (l1 l2 : list A) : forall s,
  enumerate_from s (l1 ++ l2)
  = enumerate_from s l1 ++ enumerate_from (s + len l1) l2.
Proof.
  induction l1 as [|x l1 IH]; intros s; simpl.
  - unfold len; simpl. by rewrite Z.add_0_r.
  - rewrite IH. do 3 f_equal. unfold len; simpl. lia.
Qed.

Lemma opt_inorder_nodes_length c d :
  length (opt_inorder c d) = length (opt_nodes c).
Proof.
  destruct c as [n|]; [|done]. simpl.
  by rewrite <- (inorder_nodes n d), length_fmap.
Qed.

Lemma root_line root :
  tree_lines root !! 0%nat
  = Some [(len (opt_nodes (get_left root)), root)].
Proof.
  apply tree_lines_lookup. split; [rewrite height_eq; lia|].
  unfold columns, enumerate. change (pending_items _) with (inorder root 0).
  assert (Hl : forall (c : option Node) s,
            level_line 0 (enumerate_from s (opt_inorder c (0 + 1))) = []).
  { intros c s. apply level_line_other. intros d n Hd%opt_inorder_level_ge. lia. }
  rewrite inorder_eq, enumerate_from_snoc, level_line_app.
  cbn [enumerate_from]. rewrite level_line_cons, decide_True by done.
  change (Z.of_nat 0) with 0. rewrite !Hl. simpl. do 3 f_equal.
  unfold len. by rewrite opt_inorder_nodes_length.
Qed.

(** X4: one node per column.  The column indices given out by [enumerate]
    in [__str__] are the numbers from 0 to the number of nodes minus one;
    every such column holds exactly one node, on exactly one line, so no two
    nodes of the rendering share a column.  The root stands alone on the
    first line, in the column whose index is the number of nodes of its left
    subtree. *)
Theorem X4_one_node_per_column (root : Node) :
  (forall (k : nat) tl c n, tree_lines root !! k = Some tl -> (c, n) ∈ tl ->
     0 <= c < len (nodes root))
  /\ (forall c, 0 <= c < len (nodes root) ->
        exists (k : nat) tl n,
          tree_lines root !! k = Some tl /\ (c, n) ∈ tl
          /\ forall (k' : nat) tl' n',
               tree_lines root !! k' = Some tl' -> (c, n') ∈ tl' ->
               k' = k /\ n' = n)
  /\ tree_lines root !! 0%nat = Some [(len (opt_nodes (get_left root)), root)].
Proof.
  assert (Hlen : length (inorder root 0) = length (nodes root)).
  { by rewrite <- (inorder_nodes root 0), length_fmap. }
  split; [|split; [|apply root_line]].
  - intros k tl c n Htl Hin.
    apply (elem_of_tree_line _ _ _ _ _ Htl), elem_of_columns in Hin
      as (m & Hm%lookup_lt_Some & ->).
    unfold len. lia.
  - intros c Hc.
    destruct (lookup_lt_is_Some_2 (inorder root 0) (Z.to_nat c)) as [[d n] Hdn];
      [unfold len in Hc; lia|].
    assert (Hd : 0 <= d < 0 + Z.of_nat (height root)).
    { apply inorder_levels. exists n. eapply list_elem_of_lookup_2, Hdn. }
    exists (Z.to_nat d), (level_line d (columns root)), n.
    split; [apply tree_lines_lookup; split; [lia|f_equal; lia]|].
    split; [apply elem_of_level_line, elem_of_columns; exists (Z.to_nat c);
            split; [done|lia]|].
    intros k' tl' n' Htl' Hin.
    apply (elem_of_tree_line _ _ _ _ _ Htl'), elem_of_columns in Hin
      as (m & Hm & ->).
    rewrite Nat2Z.id in Hdn. simplify_eq. split; [lia|done].
Qed.

(** ** What [__str__] returns *)

Lemma rstrip_last s c : last (rstrip s) = Some c -> isspace c = false.
Proof.
  induction s as [|x s IH]; [done|]. simpl.
  destruct (rstrip s) as [|y r] eqn:E.
  - destruct (isspace x) eqn:Ex; [done|]. by intros [= <-].
  - rewrite last_cons. destruct (last (y :: r)) as [z|] eqn:El.
    + intros [= <-]. by apply IH.
    + by apply last_None in El.
Qed.

Lemma rstrip_idemp s : rstrip (rstrip s) = rstrip s.
Proof.
  induction s as [|x s IH]; [done|]. simpl.
  destruct (rstrip s) as [|y r] eqn:E.
  - destruct (isspace x) eqn:Ex; [done|]. simpl. by rewrite Ex.
  - simpl in *. by rewrite IH.
Qed.

Lemma render_is_rstrip self tls out :
  render_tree_lines self tls = Ok out -> exists s, out = rstrip s.
Proof.
  unfold render_tree_lines.
  destruct (comprehension _ _) as [second_lines|e]; [|done].
  cbn. intros [= <-]. eauto.
Qed.

(** X5: whenever [__str__] returns, the string has no trailing whitespace:
    it is empty or its last character is not a whitespace character, and
    stripping it again changes nothing.  In particular no blank connector
    row is left at the end of a rendering. *)
Theorem X5_no_trailing_whitespace (self : TreePrinter) (out : str) :
  fst (__str__ self) = Ok out ->
  (forall c, last out = Some c -> isspace c = false) /\ rstrip out = out.
Proof.
  unfold __str__. destruct (iterate _) as [nodeinfos it]. cbn [fst].
  intros [s ->]%render_is_rstrip. split.
  - intros c. apply rstrip_last.
  - apply rstrip_idemp.
Qed.

Lemma X5_no_trailing_whitespace_witness :
  (forall c, last (s_ "5") = Some c -> isspace c = false)
  /\ rstrip (s_ "5") = s_ "5".
Proof.
  apply (X5_no_trailing_whitespace (__init__ (Some single5)) (s_ "5")).
  vm_compute. reflexivity.
Defined.

(** X6: a printer of a tree that is not empty renders once.  After the first
    conversion to a string its cached iterator is exhausted: every later
    conversion returns the empty string and leaves the printer as it is, for
    every tree. *)
Theorem X6_later_renderings_empty (root : Node) :
  let tp := snd (__str__ (__init__ (Some root))) in
  _inorder_listinfo tp = PyChain []
  /\ fst (__str__ tp) = Ok []
  /\ snd (__str__ tp) = tp.
Proof.
  unfold __init__, _get_inorder_listinfo, inorder_wrapped.
  rewrite inorder_wrapped_node_chain. done.
Qed.

(** X7: [Node.__repr__] shows the value between [Node(] and [)]; different
    values give different representations. *)
Theorem X7_repr_injective (a b : Node) :
  __repr__ a = __repr__ b -> get_value a = get_value b.
Proof.
  unfold __repr__. intros H. apply app_inv_head in H.
  by apply app_inv_tail in H.
Qed.

Lemma X7_repr_injective_witness : get_value tw2 = get_value tw4.
Proof. apply (X7_repr_injective tw2 tw4). reflexivity. Defined.

(** X8: what makes [_get_second_line_below_tree_line] raise.  With an empty
    line above or below, the index [-1] raises [IndexError]; when the first
    parent has a left child, or no left child and a right child, that no
    entry of the line below is identical to, [next] raises
    [StopIteration]. *)
Theorem X8_bridge_row_errors (self : TreePrinter) (above below : tree_line) :
  (above = [] \/ below = [] ->
   _get_second_line_below_tree_line self above below = Raise IndexError)
  /\ (forall p n rest c,
        above = (p, n) :: rest -> below <> [] ->
        (get_left n = Some c
         \/ (get_left n = None /\ get_right n = Some c)) ->
        (forall q m, (q, m) ∈ below -> node_id m <> node_id c) ->
        _get_second_line_below_tree_line self above below = Raise StopIteration).
Proof.
  split.
  - intros [-> | ->]; unfold _get_second_line_below_tree_line, second_line_blocks.
    + done.
    + unfold last_item. by destruct (last above).
  - intros p n rest c -> Hbelow Hc Hmissing.
    assert (Hidx : child_index c below = Raise StopIteration).
    { unfold child_index.
      destruct (filter _ below) as [|[q m] l] eqn:E; [done|].
      assert (Hin : (q, m) ∈ filter (fun x => Is_true (Node_eq x.2 c)) below)
        by (rewrite E; left).
      apply list_elem_of_filter in Hin as [Heq Hin]. simpl in Heq.
      apply Is_true_eq_true, Nat.eqb_eq in Heq.
      by destruct (Hmissing q m Hin). }
    destruct (last_item_Some ((p, n) :: rest)) as (la & Hla & _); [done|].
    destruct (last_item_Some below Hbelow) as (lb & Hlb & _).
    unfold _get_second_line_below_tree_line, second_line_blocks.
    rewrite Hla, Hlb. cbn -[fill_line_blocks]. unfold bridge_step.
    destruct Hc as [Hl|[Hl Hr]].
    + rewrite Hl. cbn -[fill_line_blocks]. by rewrite Hidx.
    + rewrite Hl, Hr. cbn -[fill_line_blocks]. by rewrite Hidx.
Qed.

Example bridge_row_child_missing :
  _get_second_line_below_tree_line (__init__ (Some n0)) [(2, n0)] [(1, n3)]
  = Raise StopIteration.
Proof. by vm_compute. Qed.

(** ** Constructing a node in the store *)

(** [str] of the values the docstring and [tester.py] pass. *)
Example str_of_values :
  py_str (PyInt 123) = s_ "123" /\ py_str (PyInt 12) = s_ "12"
  /\ py_str (PyInt 1234) = s_ "1234" /\ py_str (PyInt 14) = s_ "14"
  /\ py_str (PyInt 0) = s_ "0" /\ py_str (PyInt (-5)) = s_ "-5"
  /\ py_str (PyStr (s_ "56789")) = s_ "56789".
Proof. by vm_compute. Qed.


(** ** The length of a bridge row *)

Lemma slice_assign_length_eq {A} (l new : list A) (a b : Z) :
  0 <= a <= len l -> a <= b -> len new = b - a ->
  len (slice_assign l a b new) = Z.max (len l) b.
Proof.
  unfold slice_assign, slice_index, len. intros Ha Hab Hnew.
  destruct (Z.ltb_spec a 0) as [?|_]; [lia|].
  destruct (Z.ltb_spec b 0) as [?|_]; [lia|].
  rewrite !length_app, length_take, length_drop. lia.
Qed.

Lemma fill_left_length self blocks (cl p : Z) :
  0 <= cl < p -> p <= len blocks ->
  len (fill_line_blocks self blocks cl p true) = len blocks.
Proof.
  intros Hcl Hp. unfold fill_line_blocks. rewrite list_mul_singleton.
  rewrite slice_assign_length_eq; [lia|lia|lia|].
  unfold len. rewrite length_app, length_replicate. simpl. lia.
Qed.

Lemma fill_right_length self blocks (p cr : Z) :
  0 <= p < cr -> p + 1 <= len blocks ->
  len (fill_line_blocks self blocks p cr false) = Z.max (len blocks) (cr + 1).
Proof.
  intros Hcr Hp. unfold fill_line_blocks. rewrite list_mul_singleton.
  rewrite slice_assign_length_eq; [lia|lia|lia|].
  unfold len. rewrite length_app, length_replicate. simpl. lia.
Qed.

Lemma bridge_step_length_le self below blocks e blocks' (B : Z) :
  step_ready below (length blocks) e ->
  (forall cc c, (cc, c) ∈ below -> cc < B) ->
  len blocks <= B ->
  bridge_step self below blocks e = Ok blocks' ->
  len blocks <= len blocks' <= B.
Proof.
  destruct e as [p n]. unfold step_ready, bridge_step. cbn [fst snd].
  intros [Hl Hr] HB Hlen.
  destruct (get_left n) as [cl_node|];
    [destruct (Hl _ eq_refl) as (cl & -> & Hcl & Hclp & Hlen1)|clear Hl];
  (destruct (get_right n) as [cr_node|];
    [destruct (Hr _ eq_refl) as (cr & -> & Hcr & Hpcr & Hlen2)|clear Hr]);
  cbn -[fill_line_blocks]; intros Heq; apply Ok_inj in Heq as <-;
  try pose proof (HB _ _ Hcl); try pose proof (HB _ _ Hcr);
  rewrite ?fill_right_length, ?fill_left_length;
  rewrite ?fill_left_length; unfold len in *; lia.
Qed.

Lemma bridge_loop_length_le self below above (B : Z) : forall blocks final,
  (forall e, e ∈ above -> step_ready below (length blocks) e) ->
  (forall cc c, (cc, c) ∈ below -> cc < B) ->
  len blocks <= B ->
  bridge_loop self below blocks above = Ok final ->
  len blocks <= len final <= B.
Proof.
  induction above as [|e above IH]; intros blocks final Hready HB Hlen; simpl.
  { intros [= <-]. lia. }
  destruct (bridge_step self below blocks e) as [blocks1|] eqn:E; [|done].
  cbn. intros Hloop.
  pose proof (bridge_step_length_le self below blocks e blocks1 B
                (Hready e ltac:(left)) HB Hlen E) as Hstep.
  assert (len blocks1 <= len final <= B); [|lia].
  apply (IH blocks1 final); [|done|lia|done].
  intros e' He'. apply (step_ready_mono self below (length blocks)).
  - unfold len in Hstep. lia.
  - apply Hready. by right.
Qed.

Lemma len_concat_blocks w (blocks : list str) :
  Forall (fun blk => len blk = w) blocks -> len (concat blocks) = len blocks * w.
Proof.
  unfold len. induction 1 as [|b blocks Hb _ IH]; simpl; [lia|].
  rewrite length_app. lia.
Qed.

Lemma bridge_row_blocks (root : Node) (k : nat) (above below : tree_line)
    (pa pb : Z) (na nb : Node) :
  let self := __init__ (Some root) in
  let W := _max_value_len self in
  distinct_ids root ->
  tree_lines root !! k = Some above ->
  tree_lines root !! S k = Some below ->
  last above = Some (pa, na) ->
  last below = Some (pb, nb) ->
  exists row nblocks,
    _get_second_line_below_tree_line self above below = Ok row
    /\ len row = nblocks * W
    /\ Z.max pa pb <= nblocks <= Z.max pa pb + 1.
Proof.
  intros self W Hnd Habove Hbelow HA HB.
  assert (HW : 0 <= W).
  { unfold W, self. rewrite max_value_len_init. lia. }
  destruct (adjacent_bridge_loop root k above below Hnd Habove Hbelow
              self pa na pb nb HA HB)
    as (final & Hloop & Hblocks & Hlen & Hready & _).
  set (init := replicate (Z.to_nat (Z.max pa pb)) (blank_block W)) in *.
  assert (Hpa : 0 <= pa).
  { apply last_Some_elem_of in HA.
    by destruct (tree_line_nodes _ _ _ _ _ Habove HA). }
  assert (Hinit : len init = Z.max pa pb).
  { unfold init, len. rewrite length_replicate. lia. }
  pose proof (bridge_loop_length_le self below above (Z.max pa pb + 1)
                init final Hready) as Hle.
  destruct Hle as [Hge Hle]; [|lia|exact Hloop|].
  { intros cc c Hin.
    pose proof (increasing_from_last _ _ _ _ _ _
                  (tree_line_increasing _ _ _ Hbelow) HB Hin). lia. }
  exists (concat final), (len final).
  split; [unfold _get_second_line_below_tree_line; by rewrite Hblocks|].
  split; [|lia]. apply len_concat_blocks.
  apply (bridge_loop_widths self below above init final HW Hloop).
  apply Forall_replicate. unfold blank_block, len.
  rewrite length_replicate. lia.
Qed.

(** X10: the length of a bridge row.  Between two adjacent levels of a tree
    (no node object occurring twice), the row
    [_get_second_line_below_tree_line] returns is made of whole blocks of [W]
    characters; their number is the larger of the last column indices of the
    two levels, or one more: the row never reaches beyond the longer of the
    two skeleton rows it lies between. *)
Theorem X10_bridge_row_length (root : Node) (k : nat) (above below : tree_line)
    (pa pb : Z) (na nb : Node) :
  let self := __init__ (Some root) in
  let W := _max_value_len self in
  distinct_ids root ->
  tree_lines root !! k = Some above ->
  tree_lines root !! S k = Some below ->
  last above = Some (pa, na) ->
  last below = Some (pb, nb) ->
  exists row nblocks,
    _get_second_line_below_tree_line self above below = Ok row
    /\ len row = nblocks * W
    /\ Z.max pa pb <= nblocks <= Z.max pa pb + 1.
Proof. exact (bridge_row_blocks root k above below pa pb na nb). Qed.

Lemma X10_bridge_row_length_witness :
  let self := __init__ (Some tester_n7) in
  let W := _max_value_len self in
  exists row nblocks,
    _get_second_line_below_tree_line self
      [(2, tester_n4); (6, tester_n10)]
      [(1, tester_n3); (3, tester_n6); (5, tester_n8); (7, tester_n14)] = Ok row
    /\ len row = nblocks * W
    /\ Z.max 6 7 <= nblocks <= Z.max 6 7 + 1.
Proof.
  apply (X10_bridge_row_length tester_n7 1
           [(2, tester_n4); (6, tester_n10)]
           [(1, tester_n3); (3, tester_n6); (5, tester_n8); (7, tester_n14)]
           6 7 tester_n10 tester_n14).
  - apply (bool_decide_unpack _). vm_compute. exact I.
  - vm_compute. reflexivity.
  - vm_compute. reflexivity.
  - reflexivity.
  - reflexivity.
Defined.

(** ** The rows of a rendering *)

Lemma join_cons sep x (xs : list str) :
  xs <> [] -> join sep (x :: xs) = x ++ sep ++ join sep xs.
Proof. by destruct xs. Qed.

Lemma join_snoc sep (R : list str) x :
  join sep (R ++ [x]) = concat (map (fun r => r ++ sep) R) ++ x.
Proof.
  induction R as [|r R IH]; [done|].
  change ((r :: R) ++ [x]) with (r :: (R ++ [x])).
  rewrite join_cons by (by destruct R). rewrite IH. simpl.
  by rewrite <- !app_assoc.
Qed.

Lemma join_app_tail sep (R : list str) x rest :
  join sep (R ++ x :: rest)
  = join sep (R ++ [x]) ++ concat (map (fun r => sep ++ r) rest).
Proof.
  revert R x. induction rest as [|y rest IH]; intros R x; simpl.
  { by rewrite app_nil_r. }
  replace (R ++ x :: y :: rest) with ((R ++ [x]) ++ y :: rest)
    by (by rewrite <- app_assoc).
  rewrite IH, !join_snoc, map_app, concat_app. simpl.
  by rewrite <- !app_assoc.
Qed.

Lemma join_sep sep (l : list str) :
  l <> [] -> concat (map (fun r => sep ++ r) l) = sep ++ join sep l.
Proof.
  induction l as [|x l IH]; [done|]. intros _. destruct l as [|y l].
  { simpl. by rewrite app_nil_r. }
  rewrite join_cons by done. rewrite <- IH by done. simpl.
  by rewrite <- !app_assoc.
Qed.

Lemma join_concat sep (gs : list (list str)) :
  Forall (fun g => g <> []) gs ->
  join sep (map (join sep) gs) = join sep (concat gs).
Proof.
  intros Hgs. destruct gs as [|g gs]; [done|].
  apply (app_inv_head sep).
  rewrite <- !join_sep; [|by apply Forall_cons in Hgs as [? _]; destruct g|done].
  induction Hgs as [|g' gs' Hg _ IH]; [done|].
  simpl. rewrite map_app, concat_app, <- IH. f_equal.
  by rewrite join_sep.
Qed.

Lemma rstrip_nonempty s ch : ch ∈ s -> isspace ch = false -> rstrip s <> [].
Proof.
  induction s as [|c s IH]; [by intros ?%elem_of_nil|].
  intros [->|Hin]%elem_of_cons Hch; simpl.
  - destruct (rstrip s); [by rewrite Hch|done].
  - specialize (IH Hin Hch). by destruct (rstrip s).
Qed.

Lemma rstrip_app_nonempty a b : rstrip b <> [] -> rstrip (a ++ b) = a ++ rstrip b.
Proof.
  intros Hb. induction a as [|c a IH]; [done|]. simpl. rewrite IH.
  destruct a; [by destruct (rstrip b)|done].
Qed.

Lemma zip4_lookup {A B C D} (a : list A) (b : list B) (c : list C)
    (d : list D) (i : nat) x y z w :
  a !! i = Some x -> b !! i = Some y -> c !! i = Some z -> d !! i = Some w ->
  zip4 a b c d !! i = Some (x, y, z, w).
Proof.
  revert b c d i.
  induction a as [|x' a IH]; intros [|y' b] [|z' c] [|w' d] [|i]; try done.
  - by intros [= ->] [= ->] [= ->] [= ->].
  - simpl. apply IH.
Qed.

Lemma zip4_length {A B C D} (a : list A) (b : list B) (c : list C)
    (d : list D) (n : nat) :
  length a = n -> length b = n -> length c = n -> length d = n ->
  length (zip4 a b c d) = n.
Proof.
  revert a b c d.
  induction n as [|n IH]; intros [|x a] [|y b] [|z c] [|w d]; try done.
  simpl. intros [= ?] [= ?] [= ?] [= ?]. f_equal. by apply IH.
Qed.

Lemma elem_of_zip4 {A B C D} (a : list A) (b : list B) (c : list C)
    (d : list D) x y z w :
  (x, y, z, w) ∈ zip4 a b c d -> x ∈ a /\ y ∈ b /\ z ∈ c /\ w ∈ d.
Proof.
  revert b c d.
  induction a as [|x' a IH]; intros [|y' b] [|z' c] [|w' d];
    try (by intros ?%elem_of_nil).
  simpl. intros [[= -> -> -> ->]|Hin]%elem_of_cons.
  - repeat split; left.
  - destruct (IH _ _ _ Hin) as (? & ? & ? & ?). repeat split; by right.
Qed.

Lemma comprehension_lookup {A B} (f : A -> result B) (l : list A) ys :
  comprehension f l = Ok ys ->
  length ys = length l
  /\ forall (i : nat) x, l !! i = Some x ->
       exists y, ys !! i = Some y /\ f x = Ok y.
Proof.
  revert ys. induction l as [|x l IH]; intros ys; simpl.
  { intros [= <-]. split; [done|]. by intros i x ?. }
  destruct (f x) as [y|] eqn:Hy; [|done].
  destruct (comprehension f l) as [ys'|]; [|done].
  cbn. intros [= <-]. destruct (IH ys' eq_refl) as [Hlen Hlook].
  split; [simpl; by rewrite Hlen|].
  intros [|i] x'; simpl; [intros [= <-]; eauto|apply Hlook].
Qed.

Lemma format_loop_Forall (P : ascii -> Prop) fa (tl : tree_line) :
  (forall off c n, (c, n) ∈ tl -> Forall P (fa off n)) ->
  forall lst line, Forall P line -> Forall P (format_loop fa lst line tl).
Proof.
  induction tl as [|[p n] tl IH]; intros Hfa lst line Hline; simpl; [done|].
  apply IH.
  - intros off c m Hin. apply (Hfa off c). by right.
  - apply Forall_app_2; [done|]. apply (Hfa _ p). left.
Qed.

Lemma format_loop_elem fa (tl : tree_line) ch c n :
  (c, n) ∈ tl -> (forall off, ch ∈ fa off n) ->
  forall lst line, ch ∈ format_loop fa lst line tl.
Proof.
  intros Hin Hch. induction tl as [|[p m] tl IH]; intros lst line;
    [by apply elem_of_nil in Hin|].
  simpl. apply elem_of_cons in Hin as [[= <- <-]|Hin].
  - rewrite format_loop_line. apply elem_of_app. left.
    apply elem_of_app. right. apply Hch.
  - by apply IH.
Qed.

Lemma center_elem s w ch : ch ∈ s -> ch ∈ center s w.
Proof.
  intros Hin. unfold center. destruct (w <=? len s); [done|].
  apply elem_of_app. right. apply elem_of_app. by left.
Qed.

Lemma concat_rows_lookup (quads : list (list str)) (i j : nat) q :
  Forall (fun q => length q = 4%nat) quads ->
  quads !! i = Some q -> (j < 4)%nat ->
  concat quads !! (4 * i + j)%nat = q !! j.
Proof.
  intros Hlen. revert i. induction Hlen as [|q' quads Hq' _ IH]; intros i;
    [done|].
  destruct i as [|i]; simpl.
  - intros [= ->] Hj. by rewrite lookup_app_l by lia.
  - intros Hi Hj. rewrite lookup_app_r by lia.
    rewrite <- (IH i Hi Hj). f_equal. lia.
Qed.

Lemma one_line_spaces n : one_line (replicate n " "%char).
Proof. by apply Forall_replicate. Qed.

Lemma one_line_dashes n : one_line (replicate n "-"%char).
Proof. by apply Forall_replicate. Qed.

Lemma skeleton_row_one_line self (tl : tree_line) :
  (forall c n, (c, n) ∈ tl -> one_line (get_value n)) ->
  one_line (_format_tree_line_with_offsets tl
              (fun offset node => _left_pad_node_using_offset self offset node)).
Proof.
  intros Hval. apply format_loop_Forall; [|constructor].
  intros off c n Hin. unfold _left_pad_node_using_offset.
  rewrite str_mul_spaces. apply Forall_app_2; [apply one_line_spaces|].
  apply Forall_forall. intros ch [Hch| ->]%center_chars; [|done].
  specialize (Hval c n Hin). by apply (proj1 (Forall_forall _ _) Hval).
Qed.

Lemma first_row_one_line self (tl : tree_line) :
  one_line (_get_first_line_below_tree_line self tl).
Proof.
  apply format_loop_Forall; [|constructor]. intros off c n _.
  rewrite str_mul_spaces, spaces.
  repeat apply Forall_app_2; try apply one_line_spaces;
    by destruct (is_not_None _); repeat constructor.
Qed.

Lemma third_row_one_line self (tl : tree_line) :
  one_line (_get_third_line_below_tree_line self tl).
Proof.
  apply format_loop_Forall; [|constructor]. intros off c n _.
  rewrite str_mul_spaces, !spaces.
  repeat apply Forall_app_2; try apply one_line_spaces.
  by repeat constructor.
Qed.

Lemma fill_one_line self blocks a b is_left :
  Forall one_line blocks ->
  Forall one_line (fill_line_blocks self blocks a b is_left).
Proof.
  intros Hblocks. unfold fill_line_blocks.
  rewrite !dashes, !spaces, list_mul_singleton.
  destruct is_left; apply slice_assign_Forall; try done.
  - constructor; [|apply Forall_replicate, one_line_dashes].
    apply Forall_app_2; [apply one_line_spaces|apply one_line_dashes].
  - apply Forall_app_2; [apply Forall_replicate, one_line_dashes|].
    constructor; [|done].
    apply Forall_app_2; [apply one_line_dashes|apply one_line_spaces].
Qed.

Lemma bridge_step_one_line self below blocks e blocks' :
  bridge_step self below blocks e = Ok blocks' ->
  Forall one_line blocks -> Forall one_line blocks'.
Proof.
  destruct e as [p n]. unfold bridge_step.
  destruct (get_left n) as [cl_node|], (get_right n) as [cr_node|];
    try destruct (child_index cl_node below) as [cl|];
    try destruct (child_index cr_node below) as [cr|];
    cbn -[fill_line_blocks]; intros Heq Hblocks; try discriminate;
    apply Ok_inj in Heq as <-; repeat apply fill_one_line; done.
Qed.

Lemma bridge_loop_one_line self below above : forall blocks final,
  bridge_loop self below blocks above = Ok final ->
  Forall one_line blocks -> Forall one_line final.
Proof.
  induction above as [|e above IH]; intros blocks final; simpl.
  { by intros [= ->]. }
  destruct (bridge_step self below blocks e) as [blocks'|] eqn:E; [|done].
  cbn. intros Hloop Hblocks. apply (IH blocks' final Hloop).
  by eapply bridge_step_one_line.
Qed.

Lemma second_row_one_line self above below row :
  _get_second_line_below_tree_line self above below = Ok row -> one_line row.
Proof.
  unfold _get_second_line_below_tree_line, second_line_blocks.
  destruct (last_item above) as [la|]; [|done].
  destruct (last_item below) as [lb|]; [|done]. cbn.
  destruct (bridge_loop _ _ _ _) as [final|] eqn:Hloop; [|done].
  cbn. intros [= <-]. apply Forall_concat.
  apply (bridge_loop_one_line _ _ _ _ _ Hloop).
  rewrite list_mul_singleton, spaces.
  apply Forall_replicate, one_line_spaces.
Qed.

(** The nodes of the last line have no children. *)
Lemma last_line_leaves root (k : nat) tl c n :
  tree_lines root !! k = Some tl -> tree_lines root !! S k = None ->
  (c, n) ∈ tl -> get_left n = None /\ get_right n = None.
Proof.
  intros Htl Hlast Hin.
  apply lookup_ge_None in Hlast. rewrite length_tree_lines in Hlast.
  apply (elem_of_tree_line _ _ _ _ _ Htl) in Hin.
  apply elem_of_columns in Hin as (m & Hm & _).
  apply list_elem_of_lookup_2 in Hm.
  assert (Hno : forall ch, get_left n = Some ch \/ get_right n = Some ch -> False).
  { intros ch Hch. pose proof (inorder_child root 0 _ n ch Hm Hch) as Hc.
    assert (0 <= Z.of_nat k + 1 < 0 + Z.of_nat (height root)); [|lia].
    apply inorder_levels. eauto. }
  split.
  - destruct (get_left n) as [ch|]; [|done]. destruct (Hno ch); auto.
  - destruct (get_right n) as [ch|]; [|done]. destruct (Hno ch); auto.
Qed.

Lemma first_row_blank self (tl : tree_line) :
  (forall c n, (c, n) ∈ tl -> get_left n = None /\ get_right n = None) ->
  Forall (fun ch => isspace ch = true) (_get_first_line_below_tree_line self tl).
Proof.
  intros Hleaf. apply format_loop_Forall; [|constructor]. intros off c n Hin.
  destruct (Hleaf c n Hin) as [-> ->]. simpl is_not_None. cbv iota.
  rewrite str_mul_spaces, spaces.
  repeat apply Forall_app_2; try (by apply Forall_replicate);
    by repeat constructor.
Qed.

Lemma length_enumerate_from {A} (l : list A) : forall s,
  length (enumerate_from s l) = length l.
Proof. induction l as [|x l IH]; intros s; simpl; [done|]. by rewrite IH. Qed.

Lemma length_concat_rows (quads : list (list str)) :
  Forall (fun q => length q = 4%nat) quads ->
  length (concat quads) = (4 * length quads)%nat.
Proof.
  induction 1 as [|q quads Hq _ IH]; [done|]. simpl.
  rewrite length_app, IH. lia.
Qed.

Lemma take_snoc_last {A} (l : list A) (n : nat) x :
  l !! n = Some x -> length l = S n -> l = take n l ++ [x].
Proof.
  intros Hx Hlen. rewrite <- (take_drop n l) at 1. f_equal.
  rewrite (drop_S _ _ _ Hx). by rewrite drop_ge by lia.
Qed.

Lemma comprehension_elem {A B} (f : A -> result B) (l : list A) ys y :
  comprehension f l = Ok ys -> y ∈ ys -> exists x, x ∈ l /\ f x = Ok y.
Proof.
  intros [Hlen Hlook]%comprehension_lookup [i Hi]%list_elem_of_lookup.
  destruct (lookup_lt_is_Some_2 l i) as [x Hx].
  { rewrite <- Hlen. eapply lookup_lt_Some, Hi. }
  destruct (Hlook i x Hx) as (y' & Hy' & Hf).
  exists x. split; [eapply list_elem_of_lookup_2, Hx|]. congruence.
Qed.

Lemma one_line_intro s : newline ∉ s -> one_line s.
Proof. intros Hs. apply Forall_forall. by intros ch Hch ->. Qed.

Lemma one_line_elim s : one_line s -> newline ∉ s.
Proof. intros Hs Hin. by apply (proj1 (Forall_forall _ _) Hs newline Hin). Qed.

Lemma second_lines_return root :
  distinct_ids root ->
  exists second_lines,
    comprehension
      (fun '(i, tl) =>
         below ← item (tree_lines root) (i + 1);
         _get_second_line_below_tree_line (__init__ (Some root)) tl below)
      (enumerate (all_but_last (tree_lines root))) = Ok second_lines.
Proof.
  intros Hnd. apply comprehension_returns.
  intros [i tl] (m & Hm & ->)%elem_of_enumerate_from.
  unfold all_but_last in Hm. apply lookup_take_Some in Hm as [Hm Hlt].
  destruct (lookup_lt_is_Some_2 (tree_lines root) (S m)) as [below Hbelow];
    [lia|].
  destruct (second_line_returns root m tl below Hnd Hm Hbelow) as [row Hrow].
  exists row. unfold item.
  destruct (Z.ltb_spec (0 + Z.of_nat m + 1) 0) as [?|_]; [lia|].
  replace (Z.to_nat (0 + Z.of_nat m + 1)) with (S m) by lia.
  rewrite Hbelow. exact Hrow.
Qed.

(** X13: the rows of a rendering.  For a tree in which no node object occurs
    twice and whose values hold no newline and at least one character that is
    not whitespace, [__str__] returns the rows below joined with newlines:
    for every level but the last its skeleton row, its row of slashes, the
    bridge row to the next level and the row of vertical strokes of the next
    level, untouched, and for the last level its skeleton row with the
    trailing blanks stripped.  That is [4 * height - 3] rows, none of which
    holds a newline: [zip] drops no row, and only the two empty connector
    rows, the blank row of slashes of the leaves and the trailing blanks of
    the last skeleton row are stripped. *)
Theorem X13_rendering_rows (root : Node) :
  let self := __init__ (Some root) in
  distinct_ids root ->
  (forall n, n ∈ nodes root ->
     (newline ∉ get_value n)
     /\ exists ch, ch ∈ get_value n /\ isspace ch = false) ->
  exists rows : list str,
    fst (__str__ self) = Ok (join NL rows)
    /\ length rows = (4 * height root - 3)%nat
    /\ (forall r, r ∈ rows -> newline ∉ r)
    /\ forall (k : nat) tl, tree_lines root !! k = Some tl ->
         let skel := _format_tree_line_with_offsets tl
                       (fun offset node =>
                          _left_pad_node_using_offset self offset node) in
         match tree_lines root !! S k with
         | None => rows !! (4 * k)%nat = Some (rstrip skel)
         | Some below =>
             rows !! (4 * k)%nat = Some skel
             /\ rows !! (4 * k + 1)%nat
                = Some (_get_first_line_below_tree_line self tl)
             /\ (exists row,
                   _get_second_line_below_tree_line self tl below = Ok row
                   /\ rows !! (4 * k + 2)%nat = Some row)
             /\ rows !! (4 * k + 3)%nat
                = Some (_get_third_line_below_tree_line self below)
         end.
Proof.
  intros self Hnd Hval.
  pose proof (length_tree_lines root) as Hlen.
  assert (Hh : exists h, height root = S h).
  { rewrite height_eq. eauto. }
  destruct Hh as [h Hh]. rewrite Hh in Hlen |- *.
  destruct (second_lines_return root Hnd) as [second_lines Hsecond].
  fold self in Hsecond.
  pose proof (comprehension_lookup _ _ _ Hsecond) as [Hseclen Hseclook].
  unfold enumerate in Hseclen. rewrite length_enumerate_from in Hseclen.
  unfold all_but_last in Hseclen. rewrite length_take, Hlen in Hseclen.
  replace (Nat.min (S h - 1) (S h)) with h in Hseclen by lia.
  rewrite (str_init root : fst (__str__ self) = _). fold self.
  unfold render_tree_lines. rewrite Hsecond. cbn.
  set (skel := _build_tree_scheleton self (tree_lines root)).
  set (first := map (_get_first_line_below_tree_line self) (tree_lines root)).
  set (second := second_lines ++ [[]]).
  set (third := map (_get_third_line_below_tree_line self)
                    (tail (tree_lines root)) ++ [[]]).
  set (quads := zip4 skel first second third).
  set (q4 := fun q : str * str * str * str =>
               let '(x0, x1, x2, x3) := q in [x0; x1; x2; x3]).
  assert (Hq4 : forall qs : list (str * str * str * str),
            Forall (fun q => length q = 4%nat) (map q4 qs)).
  { intros qs. rewrite map_fmap. apply Forall_fmap, Forall_forall.
    by intros [[[? ?] ?] ?] _. }
  assert (Hquads : length quads = S h).
  { apply zip4_length.
    - unfold skel, _build_tree_scheleton. by rewrite length_map.
    - unfold first. by rewrite length_map.
    - unfold second. rewrite length_app, Hseclen. simpl. lia.
    - unfold third. rewrite length_app, length_map, length_tl, Hlen.
      simpl. lia. }
  destruct (lookup_lt_is_Some_2 (tree_lines root) h) as [tl_last Hlast];
    [lia|].
  assert (Hnone : tree_lines root !! S h = None).
  { apply lookup_ge_None. lia. }
  set (skel_last := _format_tree_line_with_offsets tl_last
         (fun offset node => _left_pad_node_using_offset self offset node)).
  set (first_last := _get_first_line_below_tree_line self tl_last).
  assert (Hqlast : quads !! h = Some (skel_last, first_last, [], [])).
  { apply zip4_lookup.
    - unfold skel, _build_tree_scheleton.
      by rewrite map_fmap, list_lookup_fmap, Hlast.
    - unfold first. by rewrite map_fmap, list_lookup_fmap, Hlast.
    - unfold second. rewrite lookup_app_r by lia.
      by replace (h - length second_lines)%nat with 0%nat by lia.
    - unfold third. rewrite lookup_app_r by (rewrite length_map, length_tl; lia).
      rewrite length_map, length_tl, Hlen.
      by replace (h - (S h - 1))%nat with 0%nat by lia. }
  set (R := concat (map q4 (take h quads))).
  assert (HRlen : length R = (4 * h)%nat).
  { unfold R. rewrite length_concat_rows by apply Hq4.
    rewrite length_map, length_take. lia. }
  assert (Hflat : concat (map q4 quads)
                  = R ++ [skel_last; first_last; []; []]).
  { rewrite (take_snoc_last quads h _ Hqlast Hquads) at 1.
    rewrite map_app, concat_app. simpl. by rewrite ?app_nil_r. }
  assert (Hskel_last : rstrip skel_last <> []).
  { destruct tl_last as [|[c n] rest] eqn:E.
    { by destruct (tree_line_nonempty _ _ _ Hlast). }
    destruct (tree_line_nodes root h tl_last c n) as [Hn _];
      [by rewrite E|rewrite E; left|].
    destruct (Hval n Hn) as (_ & ch & Hch & Hns).
    apply (rstrip_nonempty _ ch); [|done].
    apply (format_loop_elem _ _ ch c n); [left|].
    intros off. unfold _left_pad_node_using_offset. apply elem_of_app. right.
    by apply center_elem. }
  assert (Hout : rstrip (join NL (map (fun '(x0, x1, x2, x3) =>
                    x0 ++ NL ++ x1 ++ NL ++ x2 ++ NL ++ x3) quads))
                 = join NL (R ++ [rstrip skel_last])).
  { replace (map _ quads) with (map (join NL) (map q4 quads)).
    2:{ rewrite map_map. apply map_ext. by intros [[[? ?] ?] ?]. }
    rewrite join_concat.
    2:{ eapply Forall_impl; [apply Hq4|]. intros q Hq ->. done. }
    rewrite Hflat, join_app_tail, !join_snoc. simpl concat.
    rewrite rstrip_app_spaces.
    - by apply rstrip_app_nonempty.
    - constructor; [done|].
      apply Forall_app_2; [|by repeat constructor].
      apply first_row_blank. intros c n.
      by apply (last_line_leaves root h tl_last). }
  exists (R ++ [rstrip skel_last]).
  split; [f_equal; exact Hout|]. split; [rewrite length_app, HRlen; simpl; lia|].
  assert (Hvals : forall (k : nat) tl c n,
            tree_lines root !! k = Some tl -> (c, n) ∈ tl ->
            one_line (get_value n)).
  { intros k tl c n Htl Hin. apply one_line_intro.
    destruct (tree_line_nodes _ _ _ _ _ Htl Hin) as [Hn _].
    by destruct (Hval n Hn). }
  split.
  - intros r Hr. apply one_line_elim. revert r Hr. apply Forall_forall.
    apply Forall_app_2.
    + unfold R. apply Forall_concat. rewrite map_fmap.
      apply Forall_fmap, Forall_forall.
      intros [[[x0 x1] x2] x3] (i & Hq%list_elem_of_lookup_2 & _)%elem_of_take.
      apply elem_of_zip4 in Hq as (H0 & H1 & H2 & H3). simpl.
      repeat constructor.
      * unfold skel, _build_tree_scheleton in H0. rewrite map_fmap in H0.
        apply list_elem_of_fmap in H0 as (tl & -> & [k Hk]%list_elem_of_lookup).
        apply skeleton_row_one_line. intros c n. by apply (Hvals k).
      * unfold first in H1. rewrite map_fmap in H1.
        apply list_elem_of_fmap in H1 as (tl & -> & _).
        apply first_row_one_line.
      * unfold second in H2. apply elem_of_app in H2 as [H2|H2].
        -- destruct (comprehension_elem _ _ _ _ Hsecond H2)
             as ([i' tl] & _ & Hrow).
           destruct (item (tree_lines root) (i' + 1)) as [below|]; [|done].
           by apply (second_row_one_line self tl below).
        -- apply list_elem_of_singleton in H2 as ->. constructor.
      * unfold third in H3. apply elem_of_app in H3 as [H3|H3].
        -- rewrite map_fmap in H3.
           apply list_elem_of_fmap in H3 as (tl & -> & _).
           apply third_row_one_line.
        -- apply list_elem_of_singleton in H3 as ->. constructor.
    + constructor; [|done].
      apply Forall_forall. intros ch Hch.
      pose proof (elem_of_sublist _ _ _ Hch (rstrip_subseq skel_last)) as Hch'.
      assert (Hs : one_line skel_last).
      { apply skeleton_row_one_line. intros c n. by apply (Hvals h). }
      by apply (proj1 (Forall_forall _ _) Hs ch).
  - intros k tl Htl.
    set (skel_k := _format_tree_line_with_offsets tl
           (fun offset node => _left_pad_node_using_offset self offset node)).
    destruct (tree_lines root !! S k) as [below|] eqn:Hbelow.
    + pose proof (lookup_lt_Some _ _ _ Hbelow) as Hk. rewrite Hlen in Hk.
      destruct (Hseclook k (Z.of_nat k, tl)) as (row & Hrow & Hf).
      { unfold enumerate. rewrite enumerate_from_lookup.
        unfold all_but_last. rewrite lookup_take_lt by lia. rewrite Htl.
        simpl. do 2 f_equal. }
      unfold item in Hf.
      destruct (Z.ltb_spec (Z.of_nat k + 1) 0) as [?|_]; [lia|].
      replace (Z.to_nat (Z.of_nat k + 1)) with (S k) in Hf by lia.
      rewrite Hbelow in Hf. cbn in Hf.
      assert (Hq : map q4 (take h quads) !! k
                   = Some [skel_k; _get_first_line_below_tree_line self tl;
                           row; _get_third_line_below_tree_line self below]).
      { rewrite map_fmap, list_lookup_fmap, lookup_take_lt by lia.
        unfold quads.
        rewrite (zip4_lookup skel first second third k skel_k
                   (_get_first_line_below_tree_line self tl) row
                   (_get_third_line_below_tree_line self below)); [done|..].
        - unfold skel, _build_tree_scheleton.
          by rewrite map_fmap, list_lookup_fmap, Htl.
        - unfold first. by rewrite map_fmap, list_lookup_fmap, Htl.
        - unfold second. rewrite lookup_app_l by lia. done.
        - unfold third.
          rewrite lookup_app_l by (rewrite length_map, length_tl; lia).
          by rewrite map_fmap, list_lookup_fmap, lookup_tail, Hbelow. }
      assert (Hrows : forall j : nat, (j < 4)%nat ->
                (R ++ [rstrip skel_last]) !! (4 * k + j)%nat
                = [skel_k; _get_first_line_below_tree_line self tl;
                   row; _get_third_line_below_tree_line self below] !! j).
      { intros j Hj. rewrite lookup_app_l by lia.
        by apply concat_rows_lookup. }
      pose proof (Hrows 0%nat ltac:(lia)) as H0.
      rewrite Nat.add_0_r in H0.
      split; [exact H0|]. split; [exact (Hrows 1%nat ltac:(lia))|].
      split; [|exact (Hrows 3%nat ltac:(lia))].
      exists row. split; [exact Hf|exact (Hrows 2%nat ltac:(lia))].
    + assert (k = h) as ->.
      { apply lookup_ge_None in Hbelow. apply lookup_lt_Some in Htl. lia. }
      rewrite lookup_app_r by lia.
      assert (Hz : (h + (h + (h + (h + 0))) - length R = 0)%nat) by lia.
      rewrite Hz. assert (tl = tl_last) as -> by congruence. done.
Qed.

Lemma X13_rendering_rows_witness :
  let self := __init__ (Some tester_n7) in
  exists rows : list str,
    fst (__str__ self) = Ok (join NL rows)
    /\ length rows = (4 * height tester_n7 - 3)%nat
    /\ (forall r, r ∈ rows -> newline ∉ r)
    /\ forall (k : nat) tl, tree_lines tester_n7 !! k = Some tl ->
         let skel := _format_tree_line_with_offsets tl
                       (fun offset node =>
                          _left_pad_node_using_offset self offset node) in
         match tree_lines tester_n7 !! S k with
         | None => rows !! (4 * k)%nat = Some (rstrip skel)
         | Some below =>
             rows !! (4 * k)%nat = Some skel
             /\ rows !! (4 * k + 1)%nat
                = Some (_get_first_line_below_tree_line self tl)
             /\ (exists row,
                   _get_second_line_below_tree_line self tl below = Ok row
                   /\ rows !! (4 * k + 2)%nat = Some row)
             /\ rows !! (4 * k + 3)%nat
                = Some (_get_third_line_below_tree_line self below)
         end.
Proof.
  apply (X13_rendering_rows tester_n7).
  - apply (bool_decide_unpack _). vm_compute. exact I.
  - intros n Hn. cbn in Hn.
    repeat (apply elem_of_cons in Hn as [->|Hn];
            [split;
             [intros Hin;
              repeat (apply elem_of_cons in Hin as [Hin|Hin]; [discriminate|]);
              by apply elem_of_nil in Hin
             |eexists; split; [left|reflexivity]]|]).
    by apply elem_of_nil in Hn.
Defined.

(** ** The width of a rendering *)

Lemma tree_line_column_bound root (k : nat) tl c n :
  tree_lines root !! k = Some tl -> (c, n) ∈ tl -> 0 <= c < len (nodes root).
Proof.
  intros Htl Hin.
  apply (elem_of_tree_line _ _ _ _ _ Htl), elem_of_columns in Hin
    as (m & Hm%lookup_lt_Some & ->).
  assert (Hlen : length (inorder root 0) = length (nodes root)).
  { by rewrite <- (inorder_nodes root 0), length_fmap. }
  unfold len. lia.
Qed.

(** X14: the width of a rendering.  In a tree of [N] nodes in which no node
    object occurs twice, no row built for a level is longer than [N * W]
    characters: not its skeleton row, its row of slashes or its row of
    vertical strokes, and not the bridge row to the next level, which is
    returned. *)
Theorem X14_row_width (root : Node) (k : nat) (tl : tree_line) :
  let self := __init__ (Some root) in
  let W := _max_value_len self in
  let N := len (nodes root) in
  distinct_ids root ->
  tree_lines root !! k = Some tl ->
  len (_format_tree_line_with_offsets tl
         (fun offset node => _left_pad_node_using_offset self offset node))
  <= N * W
  /\ len (_get_first_line_below_tree_line self tl) <= N * W
  /\ len (_get_third_line_below_tree_line self tl) <= N * W
  /\ forall below, tree_lines root !! S k = Some below ->
       exists row,
         _get_second_line_below_tree_line self tl below = Ok row
         /\ len row <= N * W.
Proof.
  intros self W N Hnd Htl.
  assert (HW : 2 <= W).
  { unfold W, self. rewrite max_value_len_init. lia. }
  destruct (last_item_Some tl (tree_line_nonempty _ _ _ Htl))
    as ([p m] & _ & Hlast).
  pose proof (tree_line_column_bound root k tl p m Htl
                (last_Some_elem_of _ _ Hlast)) as Hp.
  fold N in Hp.
  destruct (level_rows_length root k tl p m Htl Hlast) as (H1 & H2 & H3).
  fold self in H1, H2, H3. fold W in H1, H2, H3.
  rewrite H1, H2, H3.
  split; [nia|]. split; [nia|]. split; [nia|].
  intros below Hbelow.
  destruct (last_item_Some below (tree_line_nonempty _ _ _ Hbelow))
    as ([pb mb] & _ & Hlastb).
  pose proof (tree_line_column_bound root (S k) below pb mb Hbelow
                (last_Some_elem_of _ _ Hlastb)) as Hpb.
  fold N in Hpb.
  destruct (bridge_row_blocks root k tl below p pb m mb Hnd Htl Hbelow
              Hlast Hlastb) as (row & nblocks & Hrow & Hlen & Hn).
  fold self in Hrow. fold self in Hlen. fold W in Hlen.
  exists row. split; [exact Hrow|]. rewrite Hlen. nia.
Qed.

Lemma X14_row_width_witness :
  let self := __init__ (Some tester_n7) in
  let W := _max_value_len self in
  let N := len (nodes tester_n7) in
  let tl := [(2, tester_n4); (6, tester_n10)] in
  len (_format_tree_line_with_offsets tl
         (fun offset node => _left_pad_node_using_offset self offset node))
  <= N * W
  /\ len (_get_first_line_below_tree_line self tl) <= N * W
  /\ len (_get_third_line_below_tree_line self tl) <= N * W
  /\ forall below, tree_lines tester_n7 !! 2%nat = Some below ->
       exists row,
         _get_second_line_below_tree_line self tl below = Ok row
         /\ len row <= N * W.
Proof.
  apply (X14_row_width tester_n7 1 [(2, tester_n4); (6, tester_n10)]).
  - apply (bool_decide_unpack _). vm_compute. exact I.
  - vm_compute. reflexivity.
Defined.
